(** * Snapshot builder of swarmweaver: [repo_to_json.py]

    A shallow embedding of [src/repo_to_json.py] together with the parts of
    the Python standard library it calls ([os.walk], the text-mode [open],
    [json.dump]), and the properties of the repository snapshot that follow
    from the code.

    Conventions.
    - A Python [str] is a list of Unicode code points ([pystr]); a file holds
      bytes.
    - A Python [dict] keeps insertion order: it is an association list with
      unique keys, updated in place or extended at the end.
    - Exceptions are the left summand of [exn + _].
    - Paths are lists of components that are already resolved: [repo_path]
      and [output_file] name places in one filesystem tree.  Permissions are
      modelled for reading only (a file that cannot be opened, a directory
      that cannot be listed); interpreter limits are not modelled.
    - A file that was opened for writing takes what is written to it: a
      device that fails during the write is not modelled.  [main] starts
      from the two parsed arguments: what [argparse] does with a malformed
      command line, or with [-h], comes before and is not modelled, and the
      confirmation of line 48 is taken to be printable.
    - The platform is POSIX: a line feed is written as it is. *)

From Stdlib Require Import List NArith ZArith Bool String Ascii Strings.Byte Lia.
From Stdlib Require Import DecimalString.
Import ListNotations.

Local Set Warnings "-register-all".
Local Open Scope N_scope.

(** ** Python strings *)

Definition pystr := list N.

(** A string literal of the source, as its code points. *)
Definition lit (s : string) : pystr :=
  List.map N_of_ascii (list_ascii_of_string s).

Fixpoint str_eqb (a b : pystr) : bool :=
  match a, b with
  | [], [] => true
  | x :: a', y :: b' => N.eqb x y && str_eqb a' b'
  | _, _ => false
  end.

(** [x in s] for a set literal [s] of strings. *)
Definition str_in (x : pystr) (s : list pystr) : bool :=
  existsb (str_eqb x) s.

(** [a.startswith(p)] *)
Fixpoint startswith (a p : pystr) : bool :=
  match p, a with
  | [], _ => true
  | y :: p', x :: a' => N.eqb x y && startswith a' p'
  | _ :: _, [] => false
  end.

(** [a.endswith(suffix)] *)
Definition endswith (a suffix : pystr) : bool :=
  startswith (rev a) (rev suffix).

(** ** The exclusion policy (lines 7-9) *)

Definition excluded_dirs : list pystr :=
  [lit ".git"; lit "node_modules"; lit "dist"; lit "build"; lit "__pycache__"].

Definition excluded_files : list pystr :=
  [lit ".DS_Store"; lit "*.log"; lit "*.lock"].

Definition excluded_extensions : list pystr :=
  [lit ".js"; lit ".js.map"; lit ".d.ts"; lit ".exe"; lit ".pyc"].

(** Line 15: the test [d not in excluded_dirs] of the comprehension. *)
Definition keep_dir (d : pystr) : bool := negb (str_in d excluded_dirs).

(** Lines 25-26: the condition under which the file loop executes
    [continue]. *)
Definition file_excluded (file : pystr) : bool :=
  existsb (fun ext => endswith file ext) excluded_extensions
  || str_in file excluded_files.

(** ** Exceptions that can leave [repo_to_json] *)

Inductive exn : Type :=
| OSError          (* open()/read() refused by the operating system *)
| TypeError        (* item assignment on a str *)
| AttributeError   (* .setdefault on a str *)
| UnicodeEncodeError.

Definition result (A : Type) : Type := (exn + A)%type.

Definition ret {A} (a : A) : result A := inr a.
Definition raise {A} (e : exn) : result A := inl e.
Definition bind {A B} (m : result A) (k : A -> result B) : result B :=
  match m with
  | inl e => inl e
  | inr a => k a
  end.

Notation "x <- m ;; k" := (bind m (fun x => k))
  (at level 61, m at next level, right associativity).

(** A [for] loop whose body updates a state and may raise. *)
Fixpoint for_each {A S} (body : S -> A -> result S) (xs : list A) (s : S)
  : result S :=
  match xs with
  | [] => ret s
  | x :: tl =>
      s' <- body s x ;;
      for_each body tl s'
  end.

(** ** Mappings from names that keep their order *)

(** The value bound to [k]. *)
Fixpoint assoc_get {V} (items : list (pystr * V)) (k : pystr) : option V :=
  match items with
  | [] => None
  | (k', v) :: tl => if str_eqb k k' then Some v else assoc_get tl k
  end.

(** Binding [k] to [v]: a name that is bound keeps its position, a new name
    goes last. *)
Fixpoint assoc_set {V} (items : list (pystr * V)) (k : pystr) (v : V)
  : list (pystr * V) :=
  match items with
  | [] => [(k, v)]
  | (k', v') :: tl =>
      if str_eqb k k' then (k', v) :: tl else (k', v') :: assoc_set tl k v
  end.

(** The names bound. *)
Definition keys {V} (items : list (pystr * V)) : list pystr :=
  List.map fst items.

(** ** The in-memory tree: nested dicts with str leaves *)

Inductive json : Type :=
| JStr (s : pystr)
| JObj (items : list (pystr * json)).

(** [d.get(k)] on the items of a dict. *)
Abbreviation dict_get := (@assoc_get json).

(** [d[k] = v]: an existing key keeps its position, a new key goes last. *)
Abbreviation dict_set := (@assoc_set json).

(** The value [d.setdefault(k, {})] returns. *)
Definition setdefault_value (items : list (pystr * json)) (k : pystr) : json :=
  match dict_get items k with
  | Some v => v
  | None => JObj []
  end.

(** Following a path of keys from a node. *)
Fixpoint json_at (t : json) (path : list pystr) : option json :=
  match path with
  | [] => Some t
  | k :: rest =>
      match t with
      | JStr _ => None
      | JObj items =>
          match dict_get items k with
          | Some v => json_at v rest
          | None => None
          end
      end
  end.

(** ** The filesystem *)

(** A regular file with its bytes and whether it can be opened for reading,
    or a directory with its entries in [scandir] order and whether it can be
    listed.  A symbolic link to a file reads as the file; a broken link is an
    unreadable file; a link to a directory met during the walk is listed
    among [dirs] and not entered, like a directory that cannot be listed. *)
Inductive fsnode : Type :=
| FsFile (readable : bool) (data : list byte)
| FsDir (listable : bool) (entries : list (pystr * fsnode)).

Definition is_dir (n : fsnode) : bool :=
  match n with
  | FsDir _ _ => true
  | FsFile _ _ => false
  end.

(** The entry a name resolves to in a directory, and its replacement. *)
Abbreviation fs_get := (@assoc_get fsnode).
Abbreviation fs_set := (@assoc_set fsnode).

(** Resolving a path from a node. *)
Fixpoint fs_at (n : fsnode) (path : list pystr) : option fsnode :=
  match path with
  | [] => Some n
  | k :: rest =>
      match n with
      | FsFile _ _ => None
      | FsDir _ entries =>
          match fs_get entries k with
          | Some c => fs_at c rest
          | None => None
          end
      end
  end.

(** A directory never holds two entries of one name. *)
Fixpoint names_unique (names : list pystr) : bool :=
  match names with
  | [] => true
  | n :: tl => negb (str_in n tl) && names_unique tl
  end.

Fixpoint well_formed (n : fsnode) : bool :=
  match n with
  | FsFile _ _ => true
  | FsDir _ entries =>
      names_unique (List.map fst entries)
      && forallb (fun e => well_formed (snd e)) entries
  end.

(** ** Reading a file as text: [open(p, 'r', encoding='utf-8').read()] *)

(** A continuation byte, 10xxxxxx. *)
Definition is_cont (b : N) : bool := (0x80 <=? b) && (b <=? 0xBF).

(** The payload bits of a continuation byte. *)
Definition cont_bits (b : N) : N := N.land b 0x3F.

(** The strict UTF-8 decoder: shortest forms only, no surrogates, nothing
    above U+10FFFF; [None] stands for [UnicodeDecodeError]. *)
Fixpoint utf8_decode (bs : list byte) : option pystr :=
  match bs with
  | [] => Some []
  | b0 :: t0 =>
      let x0 := Byte.to_N b0 in
      if x0 <? 0x80 then
        option_map (cons x0) (utf8_decode t0)
      else if (0xC2 <=? x0) && (x0 <=? 0xDF) then
        match t0 with
        | b1 :: t1 =>
            let x1 := Byte.to_N b1 in
            if is_cont x1 then
              option_map
                (cons (N.lor (N.shiftl (N.land x0 0x1F) 6) (cont_bits x1)))
                (utf8_decode t1)
            else None
        | _ => None
        end
      else if (0xE0 <=? x0) && (x0 <=? 0xEF) then
        match t0 with
        | b1 :: b2 :: t2 =>
            let x1 := Byte.to_N b1 in
            let x2 := Byte.to_N b2 in
            let lo := if x0 =? 0xE0 then 0xA0 else 0x80 in
            let hi := if x0 =? 0xED then 0x9F else 0xBF in
            if (lo <=? x1) && (x1 <=? hi) && is_cont x2 then
              option_map
                (cons (N.lor (N.shiftl (N.land x0 0x0F) 12)
                         (N.lor (N.shiftl (cont_bits x1) 6) (cont_bits x2))))
                (utf8_decode t2)
            else None
        | _ => None
        end
      else if (0xF0 <=? x0) && (x0 <=? 0xF4) then
        match t0 with
        | b1 :: b2 :: b3 :: t3 =>
            let x1 := Byte.to_N b1 in
            let x2 := Byte.to_N b2 in
            let x3 := Byte.to_N b3 in
            let lo := if x0 =? 0xF0 then 0x90 else 0x80 in
            let hi := if x0 =? 0xF4 then 0x8F else 0xBF in
            if (lo <=? x1) && (x1 <=? hi) && is_cont x2 && is_cont x3 then
              option_map
                (cons (N.lor (N.shiftl (N.land x0 0x07) 18)
                         (N.lor (N.shiftl (cont_bits x1) 12)
                            (N.lor (N.shiftl (cont_bits x2) 6) (cont_bits x3)))))
                (utf8_decode t3)
            else None
        | _ => None
        end
      else None
  end.

(** Universal newlines, the default [newline=None] of a text-mode read:
    CR LF and a lone CR both arrive as LF. *)
Fixpoint universal_newlines (s : pystr) : pystr :=
  match s with
  | [] => []
  | c :: rest =>
      if c =? 13 then
        match rest with
        | c' :: rest' =>
            if c' =? 10 then 10 :: universal_newlines rest'
            else 10 :: universal_newlines rest
        | [] => [10]
        end
      else c :: universal_newlines rest
  end.

Inductive read_outcome : Type :=
| ReadText (content : pystr)
| ReadDecodeError     (* UnicodeDecodeError *)
| ReadOSError.        (* PermissionError, IsADirectoryError, ... *)

(** Lines 31-32. *)
Definition open_read (n : fsnode) : read_outcome :=
  match n with
  | FsFile true data =>
      match utf8_decode data with
      | Some s => ReadText (universal_newlines s)
      | None => ReadDecodeError
      end
  | FsFile false _ => ReadOSError
  | FsDir _ _ => ReadOSError
  end.

(** ** [os.walk], top-down, [onerror=None], [followlinks=False] *)

(** What the generator yields for one directory: the components of
    [os.path.relpath(root, repo_path)] (empty for the top itself) and the
    entries of [files].  [dirs] is left out: the loop body only filters it. *)
Definition step : Type := (list pystr * list (pystr * fsnode))%type.

(** The entries for which [is_dir()] is false, in [scandir] order. *)
Definition nondirs (entries : list (pystr * fsnode)) : list (pystr * fsnode) :=
  filter (fun e => negb (is_dir (snd e))) entries.

(** The walk of a caller that filters [dirs] in place with [keep] before the
    generator is resumed.  A [scandir] that fails yields nothing, silently;
    the directories kept are entered in order, each after the step of its
    parent. *)
Fixpoint os_walk (keep : pystr -> bool) (rel : list pystr) (top : fsnode)
  : list step :=
  match top with
  | FsDir true entries =>
      (rel, nondirs entries)
      :: flat_map
           (fun e =>
              if is_dir (snd e) && keep (fst e)
              then os_walk keep (rel ++ [fst e]) (snd e)
              else [])
           entries
  | _ => []
  end.

(** ** The loop body of [repo_to_json] (lines 17-36) *)

(** Lines 24-36, one iteration of the file loop on the object
    [current_level] is bound to. *)
Definition visit_file (current_level : json) (f : pystr * fsnode)
  : result json :=
  if file_excluded (fst f) then ret current_level            (* line 27 *)
  else
    match open_read (snd f) with
    | ReadOSError => raise OSError                            (* not caught *)
    | ReadDecodeError => ret current_level                    (* line 34 *)
    | ReadText content =>
        match current_level with                              (* line 36 *)
        | JObj items => ret (JObj (dict_set items (fst f) (JStr content)))
        | JStr _ => raise TypeError
        end
    end.

(** Lines 24-36, the whole file loop. *)
Definition visit_files (files : list (pystr * fsnode)) (current_level : json)
  : result json :=
  for_each visit_file files current_level.

(** Lines 17-22: [current_level] walks down from the node it is given, one
    [setdefault(part, {})] per component, and [body] then mutates the object
    reached.  That object is shared with the tree, so the new state of the
    node is the old one with the child under [part] replaced (or added last
    when [setdefault] created it). *)
Fixpoint with_level (parts : list pystr) (body : json -> result json)
  (node : json) : result json :=
  match parts with
  | [] => body node
  | part :: rest =>
      match node with
      | JStr _ => raise AttributeError
      | JObj items =>
          child <- with_level rest body (setdefault_value items part) ;;
          ret (JObj (dict_set items part child))
      end
  end.

(** Lines 17-36 for one step of the walk. *)
Definition visit_dir (repo_structure : json) (s : step) : result json :=
  with_level (fst s) (visit_files (snd s)) repo_structure.

(** Lines 13-36: the loop over the walk. *)
Definition run_walk (steps : list step) (repo_structure : json) : result json :=
  for_each visit_dir steps repo_structure.

(** Lines 11-36: the tree built for what [repo_path] resolves to ([None]
    when nothing is there). *)
Definition build (repo : option fsnode) : result json :=
  run_walk
    (match repo with
     | Some top => os_walk keep_dir [] top
     | None => []
     end)
    (JObj []).

(** ** [json.dump(obj, f, indent=2)] *)

(** One lower-case hexadecimal digit. *)
Definition hex_digit (n : N) : N := if n <? 10 then 48 + n else 87 + n.

(** ['\\u{0:04x}'.format(n)] for [n < 0x10000]. *)
Definition u_escape (n : N) : pystr :=
  [92; 117;
   hex_digit (N.land (N.shiftr n 12) 15);
   hex_digit (N.land (N.shiftr n 8) 15);
   hex_digit (N.land (N.shiftr n 4) 15);
   hex_digit (N.land n 15)].

(** The replacement of one character by [encode_basestring_ascii]
    (the default [ensure_ascii=True]): printable ASCII other than the quote
    and the backslash stays, everything else is escaped. *)
Definition escape_char (c : N) : pystr :=
  if c =? 92 then [92; 92]
  else if c =? 34 then [92; 34]
  else if c =? 8 then [92; 98]
  else if c =? 12 then [92; 102]
  else if c =? 10 then [92; 110]
  else if c =? 13 then [92; 114]
  else if c =? 9 then [92; 116]
  else if (32 <=? c) && (c <=? 126) then [c]
  else if c <? 0x10000 then u_escape c
  else
    let n := c - 0x10000 in
    u_escape (N.lor 0xd800 (N.land (N.shiftr n 10) 0x3ff))
    ++ u_escape (N.lor 0xdc00 (N.land n 0x3ff)).

Definition encode_basestring_ascii (s : pystr) : pystr :=
  [34] ++ flat_map escape_char s ++ [34].

(** ['\n' + indent * level] with [indent = '  ']. *)
Definition newline_indent (level : nat) : pystr :=
  10 :: repeat 32 (2 * level)%nat.

(** [sep.join(chunks)] *)
Fixpoint join (sep : pystr) (chunks : list pystr) : pystr :=
  match chunks with
  | [] => []
  | [c] => c
  | c :: tl => c ++ sep ++ join sep tl
  end.

(** [_iterencode] at nesting depth [level], with item separator [','] and
    key separator [': ']. *)
Fixpoint iterencode (level : nat) (o : json) : pystr :=
  match o with
  | JStr s => encode_basestring_ascii s
  | JObj [] => lit "{}"
  | JObj items =>
      lit "{" ++ newline_indent (S level)
      ++ join (44 :: newline_indent (S level))
           (List.map
              (fun kv =>
                 encode_basestring_ascii (fst kv) ++ lit ": "
                 ++ iterencode (S level) (snd kv))
              items)
      ++ newline_indent level ++ lit "}"
  end.

Definition json_dumps (o : json) : pystr := iterencode 0 o.

(** ** Writing the output file *)

Definition byte_of_N (n : N) : byte :=
  match Byte.of_N n with
  | Some b => b
  | None => x00
  end.

(** The UTF-8 encoding of one code point, [None] for a surrogate or a value
    above U+10FFFF ([UnicodeEncodeError]). *)
Definition utf8_encode_char (c : N) : option (list byte) :=
  if c <? 0x80 then Some [byte_of_N c]
  else if c <? 0x800 then
    Some [byte_of_N (N.lor 0xC0 (N.shiftr c 6));
          byte_of_N (N.lor 0x80 (N.land c 0x3F))]
  else if c <? 0x10000 then
    if (0xD800 <=? c) && (c <=? 0xDFFF) then None
    else
      Some [byte_of_N (N.lor 0xE0 (N.shiftr c 12));
            byte_of_N (N.lor 0x80 (N.land (N.shiftr c 6) 0x3F));
            byte_of_N (N.lor 0x80 (N.land c 0x3F))]
  else if c <? 0x110000 then
    Some [byte_of_N (N.lor 0xF0 (N.shiftr c 18));
          byte_of_N (N.lor 0x80 (N.land (N.shiftr c 12) 0x3F));
          byte_of_N (N.lor 0x80 (N.land (N.shiftr c 6) 0x3F));
          byte_of_N (N.lor 0x80 (N.land c 0x3F))]
  else None.

Fixpoint utf8_encode (s : pystr) : option (list byte) :=
  match s with
  | [] => Some []
  | c :: tl =>
      match utf8_encode_char c, utf8_encode tl with
      | Some b, Some bs => Some (b ++ bs)
      | _, _ => None
      end
  end.

(** The filesystem after the file at [path] was opened with mode ['w'] and
    [data] written to it: an existing regular file is replaced, a missing one
    is created in an existing directory; [None] when the path names a
    directory or runs through something that is not one ([OSError]). *)
Fixpoint fs_write (top : fsnode) (path : list pystr) (data : list byte)
  : option fsnode :=
  match path with
  | [] =>
      match top with
      | FsFile r _ => Some (FsFile r data)
      | FsDir _ _ => None
      end
  | k :: rest =>
      match top with
      | FsFile _ _ => None
      | FsDir l entries =>
          match fs_get entries k with
          | Some c =>
              match fs_write c rest data with
              | Some c' => Some (FsDir l (fs_set entries k c'))
              | None => None
              end
          | None =>
              match rest with
              | [] => Some (FsDir l (entries ++ [(k, FsFile true data)]))
              | _ :: _ => None
              end
          end
      end
  end.

(** ** [repo_to_json] and the command line *)

(** Lines 5-39 on the filesystem [fs]: the filesystem afterwards, and the
    exception that left the function, if any. *)
Definition repo_to_json (fs : fsnode) (repo_path output_file : list pystr)
  : fsnode * option exn :=
  match build (fs_at fs repo_path) with
  | inl e => (fs, Some e)
  | inr repo_structure =>
      match fs_write fs output_file [] with                  (* line 38 *)
      | None => (fs, Some OSError)
      | Some opened =>
          match utf8_encode (json_dumps repo_structure) with (* line 39 *)
          | None => (opened, Some UnicodeEncodeError)
          | Some data =>
              match fs_write opened output_file data with
              | Some written => (written, None)
              | None => (opened, Some OSError)
              end
          end
      end
  end.

(** What the process leaves behind. *)
Record process : Type := {
  final_fs : fsnode;
  exit_code : N;
  confirmation : bool   (* line 48 printed *)
}.

(** Lines 41-48.  An exception that is not caught ends the interpreter with
    exit status 1. *)
Definition main (fs : fsnode) (repo_path output_file : list pystr) : process :=
  match repo_to_json fs repo_path output_file with
  | (fs', None) => {| final_fs := fs'; exit_code := 0; confirmation := true |}
  | (fs', Some _) => {| final_fs := fs'; exit_code := 1; confirmation := false |}
  end.

(** ** Notions the properties are stated with *)

(** The walk from [top] enters the directory at [dirpath]: every component
    names a directory that passes the filter of line 15 and can be listed. *)
Fixpoint walked (top : fsnode) (dirpath : list pystr) : bool :=
  match top with
  | FsDir true entries =>
      match dirpath with
      | [] => true
      | k :: rest =>
          keep_dir k
          && match fs_get entries k with
             | Some c => walked c rest
             | None => false
             end
      end
  | _ => false
  end.

(** A file entry gets a leaf: its name passes lines 25-26 and it reads as
    text. *)
Definition survives (e : pystr * fsnode) : bool :=
  negb (file_excluded (fst e))
  && match open_read (snd e) with
     | ReadText _ => true
     | _ => false
     end.

(** The items one file contributes to its directory. *)
Definition leaf_of (e : pystr * fsnode) : list (pystr * json) :=
  if file_excluded (fst e) then []
  else
    match open_read (snd e) with
    | ReadText content => [(fst e, JStr content)]
    | _ => []
    end.

(** The items of the object of a directory when nothing fails and no name
    occurs twice: the leaves of its files, then one object per directory the
    walk enters. *)
Fixpoint tree_of (top : fsnode) : list (pystr * json) :=
  match top with
  | FsDir true entries =>
      flat_map leaf_of (nondirs entries)
      ++ flat_map
           (fun e =>
              match snd e with
              | FsDir true _ =>
                  if keep_dir (fst e)
                  then [(fst e, JObj (tree_of (snd e)))]
                  else []
              | _ => []
              end)
           entries
  | _ => []
  end.

(** The steps of the walk below [top], played on the object of [top]
    itself: the file loop, then each directory entered through one
    [setdefault] on that object. *)
Fixpoint snapshot_into (keep : pystr -> bool) (top : fsnode) (lvl : json)
  : result json :=
  match top with
  | FsDir true entries =>
      lvl1 <- visit_files (nondirs entries) lvl ;;
      for_each
        (fun l e =>
           match snd e with
           | FsDir true _ =>
               if keep (fst e)
               then with_level [fst e] (snapshot_into keep (snd e)) l
               else ret l
           | _ => ret l
           end)
        entries lvl1
  | _ => ret lvl
  end.

(** What one entry of a directory adds to the object of that directory when
    the walk comes to it. *)
Definition enter_dir (keep : pystr -> bool) (l : json) (e : pystr * fsnode)
  : result json :=
  match snd e with
  | FsDir true _ =>
      if keep (fst e)
      then with_level [fst e] (snapshot_into keep (snd e)) l
      else ret l
  | _ => ret l
  end.

Definition dir_object (e : pystr * fsnode) : list (pystr * json) :=
  match snd e with
  | FsDir true _ =>
      if keep_dir (fst e) then [(fst e, JObj (tree_of (snd e)))] else []
  | _ => []
  end.

(** The node an entry [k] of a walked directory has in the object of that
    directory, if it has one. *)
Definition node_of (k : pystr) (n : fsnode) : option json :=
  match n with
  | FsFile _ _ =>
      if file_excluded k then None
      else
        match open_read n with
        | ReadText content => Some (JStr content)
        | _ => None
        end
  | FsDir true _ => if keep_dir k then Some (JObj (tree_of n)) else None
  | FsDir false _ => None
  end.

(** Line 31 does not raise [OSError] for this entry of [files]. *)
Definition file_opens (e : pystr * fsnode) : bool :=
  file_excluded (fst e)
  || match open_read (snd e) with
     | ReadOSError => false
     | _ => true
     end.

(** Every [open] of the walk below [top] succeeds. *)
Fixpoint opens_ok (top : fsnode) : bool :=
  match top with
  | FsDir true entries =>
      forallb file_opens (nondirs entries)
      && forallb
           (fun e =>
              match snd e with
              | FsDir true _ => negb (keep_dir (fst e)) || opens_ok (snd e)
              | _ => true
              end)
           entries
  | _ => true
  end.

Definition dir_opens (e : pystr * fsnode) : bool :=
  match snd e with
  | FsDir true _ => negb (keep_dir (fst e)) || opens_ok (snd e)
  | _ => true
  end.

(** The filesystem without the directories line 15 filters out, at every
    depth. *)
Fixpoint prune_excluded (top : fsnode) : fsnode :=
  match top with
  | FsFile r d => FsFile r d
  | FsDir l entries =>
      FsDir l
        (flat_map
           (fun e =>
              if is_dir (snd e) && negb (keep_dir (fst e)) then []
              else [(fst e, prune_excluded (snd e))])
           entries)
  end.

(** What a path shows of a tree, whatever the order of the keys. *)
Inductive view : Type :=
| Absent
| Leaf (s : pystr)
| Object.

Definition view_at (t : json) (path : list pystr) : view :=
  match json_at t path with
  | None => Absent
  | Some (JStr s) => Leaf s
  | Some (JObj _) => Object
  end.

(** Equality of two documents that ignores the order of keys. *)
Definition same_document (a b : json) : Prop :=
  forall path, view_at a path = view_at b path.

(** The printable ASCII characters, and the characters of a JSON text. *)
Definition printable (c : N) : Prop := 32 <= c <= 126.

Definition text_char (c : N) : Prop := c = 10 \/ printable c.


(** The bytes of an ASCII literal. *)
Definition ascii_bytes (s : string) : list byte :=
  List.map byte_of_ascii (list_ascii_of_string s).

(** Every object of a tree binds each key once. *)
Fixpoint dict_ok (t : json) : bool :=
  match t with
  | JStr _ => true
  | JObj items =>
      names_unique (keys items) && forallb (fun kv => dict_ok (snd kv)) items
  end.

(** A byte that occurs in no UTF-8 text: 0xC0, 0xC1, and 0xF5 to 0xFF. *)
Definition never_utf8 (b : byte) : bool :=
  let x := Byte.to_N b in
  (x =? 0xC0) || (x =? 0xC1) || (0xF5 <=? x).

(** ** Sample filesystems *)

Definition text_file (s : string) : fsnode := FsFile true (ascii_bytes s).

(** The scenario of the specification: [src/main.txt], [.git/config],
    [app.js] and [readme.md]. *)
Definition scenario_repo : fsnode :=
  FsDir true
    [(lit "src", FsDir true [(lit "main.txt", text_file "hello")]);
     (lit ".git", FsDir true [(lit "config", FsFile false [xff; xfe])]);
     (lit "app.js", text_file "x");
     (lit "readme.md", text_file "hi")].

(** A text file with a Windows line ending. *)
Definition crlf_repo : fsnode :=
  FsDir true [(lit "a.txt", FsFile true [x78; x0d; x0a; x79])].


(** Bytes that are not UTF-8. *)
Definition binary_repo : fsnode :=
  FsDir true [(lit "blob.bin", FsFile true [xff; xfe; x00])].

(** A file that cannot be opened next to one that can. *)
Definition unreadable_file_repo : fsnode :=
  FsDir true [(lit "a.txt", FsFile false [x68; x69]);
              (lit "b.txt", text_file "hi")].

(** A directory that cannot be listed next to a file. *)
Definition unlistable_dir_repo : fsnode :=
  FsDir true [(lit "locked", FsDir false [(lit "c.txt", text_file "x")]);
              (lit "b.txt", text_file "hi")].

(** A directory with nothing that survives, and files named like an
    extension. *)
Definition filtered_repo : fsnode :=
  FsDir true
    [(lit "docs", FsDir true [(lit "app.js", text_file "x");
                               (lit ".DS_Store", text_file "y")]);
     (lit ".js", text_file "x");
     (lit "foo.log", text_file "z")].

(** A machine with the repository at [repo] and room for the output next to
    it. *)
Definition host (repo : fsnode) : fsnode := FsDir true [(lit "repo", repo)].

(** * The API key tester: [test_api_keys.py] *)

(** The two HTTP services, the texts of exceptions and the formatting of
    values that are not strings belong to the world the script runs in: a
    [world] gives the outcome of each request, a [session] the environment
    variables (after [load_dotenv]) and the lines waiting on standard
    input.  Standard output encodes UTF-8 strictly, as it does in a UTF-8
    locale: printing a text that holds a surrogate code point raises
    [UnicodeEncodeError]; the literals of the source hold none. *)
Module ApiKeys.

(** A string literal of the source, decoded from the UTF-8 bytes it is
    written with. *)
Definition text (s : string) : pystr :=
  match utf8_decode (ascii_bytes s) with
  | Some p => p
  | None => []
  end.

(** [str(n)] for a non-negative [int]. *)
Definition decimal (n : N) : pystr :=
  lit (NilEmpty.string_of_uint (N.to_uint n)).

(** ** Python values as [response.json()] returns them *)

Inductive pyval : Type :=
| VNone
| VBool (b : bool)
| VInt (z : Z)
| VFloat (repr : pystr)
| VStr (s : pystr)
| VList (xs : list pyval)
| VDict (items : list (pystr * pyval)).

(** The operations the script applies to values, and the exceptions: an
    operation on an operand it does not accept, [response.json()] or
    [requests.post] raising with a message, [input] at the end of standard
    input. *)
Inductive pyop : Type :=
| OpGet (key : pystr)   (* v.get(key, default) *)
| OpIndex0              (* v[0] *)
| OpSlice50             (* v[:50] *)
| OpStrip               (* v.strip() *)
| OpPrint.              (* print(v), UnicodeEncodeError *)

Inductive pyerr : Type :=
| Raised (op : pyop) (operand : pyval)
| JsonError (message : pystr)
| PostError (message : pystr)
| EOFError.

Definition py (A : Type) : Type := (pyerr + A)%type.

Definition py_bind {A B} (m : py A) (k : A -> py B) : py B :=
  match m with
  | inl e => inl e
  | inr a => k a
  end.

Notation "x <~ m ;; k" := (py_bind m (fun x => k))
  (at level 61, m at next level, right associativity).

(** [v.get(key, default)]: only a dict has the method. *)
Definition py_get (v : pyval) (key : pystr) (default : pyval) : py pyval :=
  match v with
  | VDict items =>
      match assoc_get items key with
      | Some x => inr x
      | None => inr default
      end
  | _ => inl (Raised (OpGet key) v)
  end.

(** [v[0]]: the first element of a list, the first character of a str;
    a dict parsed from JSON has no key [0]. *)
Definition py_index0 (v : pyval) : py pyval :=
  match v with
  | VList (x :: _) => inr x
  | VStr (c :: _) => inr (VStr [c])
  | _ => inl (Raised OpIndex0 v)
  end.

(** [v[:50]] *)
Definition py_slice50 (v : pyval) : py pyval :=
  match v with
  | VStr s => inr (VStr (firstn 50 s))
  | VList xs => inr (VList (firstn 50 xs))
  | _ => inl (Raised OpSlice50 v)
  end.

(** The characters [str.strip()] removes. *)
Definition is_space (c : N) : bool :=
  ((9 <=? c) && (c <=? 13)) || ((28 <=? c) && (c <=? 32))
  || (c =? 0x85) || (c =? 0xA0) || (c =? 0x1680)
  || ((0x2000 <=? c) && (c <=? 0x200A))
  || (c =? 0x2028) || (c =? 0x2029) || (c =? 0x202F) || (c =? 0x205F)
  || (c =? 0x3000).

Fixpoint lstrip (s : pystr) : pystr :=
  match s with
  | [] => []
  | c :: tl => if is_space c then lstrip tl else s
  end.

(** [s.strip()] *)
Definition strip (s : pystr) : pystr := rev (lstrip (rev (lstrip s))).

(** [v.strip()]: only a str has the method. *)
Definition py_strip (v : pyval) : py pyval :=
  match v with
  | VStr s => inr (VStr (strip s))
  | _ => inl (Raised OpStrip v)
  end.

(** ** The world *)

Record request : Type := {
  req_url : pystr;
  req_headers : list (pystr * pystr);
  req_json : pyval;
  req_timeout : N
}.

Inductive post_outcome : Type :=
| PostRaises (message : pystr)
    (* [requests.post] raised; [message] is [str(e)] *)
| PostResponse (status_code : N) (json : pystr + pyval).
    (* [response.json()] raises with the message, or returns the value *)

Record world : Type := {
  post : request -> post_outcome;
  error_text : pyop -> pyval -> pystr;   (* str(e) of the exception raised *)
  value_text : pyval -> pystr            (* str(v) of a value that is no str *)
}.

Definition response_json (json : pystr + pyval) : py pyval :=
  match json with
  | inl message => inl (JsonError message)
  | inr data => inr data
  end.

(** [str(e)] *)
Definition exception_text (w : world) (e : pyerr) : pystr :=
  match e with
  | Raised op operand => error_text w op operand
  | JsonError message => message
  | PostError message => message
  | EOFError => text "EOF when reading a line"
  end.

(** A value as an f-string shows it. *)
Definition format_value (w : world) (v : pyval) : pystr :=
  match v with
  | VStr s => s
  | _ => value_text w v
  end.

(** ** Statements with effects *)

(** What a statement can change: the text written to standard output, the
    calls of [requests.post] made so far, the lines left on standard
    input. *)
Record state : Type := {
  stdout : pystr;
  requests : list request;
  lines : list pystr
}.

(** A statement: the state after it, and its value or the exception that
    leaves it. *)
Definition script (A : Type) : Type := state -> state * py A.

Definition done {A} (a : A) : script A := fun st => (st, inr a).

Definition raise_error {A} (e : pyerr) : script A := fun st => (st, inl e).

Definition script_bind {A B} (m : script A) (k : A -> script B) : script B :=
  fun st =>
    match m st with
    | (st', inl e) => (st', inl e)
    | (st', inr a) => k a st'
    end.

Notation "x <-- m ;; k" := (script_bind m (fun x => k))
  (at level 61, m at next level, right associativity).
Notation "m ;;; k" := (script_bind m (fun _ => k))
  (at level 61, right associativity).

(** [try: body  except ...: handler(e)], for a handler that catches every
    exception of the model. *)
Definition try {A} (body : script A) (handler : pyerr -> script A)
  : script A :=
  fun st =>
    match body st with
    | (st', inl e) => handler e st'
    | (st', inr a) => (st', inr a)
    end.

(** An expression that may raise. *)
Definition eval {A} (m : py A) : script A := fun st => (st, m).

Definition is_surrogate (c : N) : bool := (0xD800 <=? c) && (c <=? 0xDFFF).

Definition has_surrogate (s : pystr) : bool := existsb is_surrogate s.

(** [print(line)] *)
Definition print (line : pystr) : script unit :=
  fun st =>
    if has_surrogate line
    then (st, inl (Raised OpPrint (VStr line)))
    else ({| stdout := stdout st ++ line ++ [10];
             requests := requests st;
             lines := lines st |},
          inr tt).

(** [input(prompt)] *)
Definition input (prompt : pystr) : script pystr :=
  fun st =>
    match lines st with
    | [] =>
        ({| stdout := stdout st ++ prompt;
            requests := requests st;
            lines := [] |},
         inl EOFError)
    | line :: rest =>
        ({| stdout := stdout st ++ prompt;
            requests := requests st;
            lines := rest |},
         inr line)
    end.

(** [requests.post(...)]: the call is recorded, and returns the response or
    raises. *)
Definition requests_post (w : world) (req : request)
  : script (N * (pystr + pyval)) :=
  fun st =>
    let st' := {| stdout := stdout st;
                  requests := requests st ++ [req];
                  lines := lines st |} in
    match post w req with
    | PostRaises message => (st', inl (PostError message))
    | PostResponse status_code json => (st', inr (status_code, json))
    end.

(** ** [test_openai_key] and [test_perplexity_key] *)

(** Lines 27 and 78: [{api_key[:5]}...{api_key[-4:] if len(api_key) > 9
    else ''}]. *)
Definition key_preview (api_key : pystr) : pystr :=
  firstn 5 api_key ++ text "..."
  ++ (if Nat.ltb 9 (List.length api_key)
      then skipn (List.length api_key - 4) api_key
      else []).

Definition bearer (api_key : pystr) : list (pystr * pystr) :=
  [(text "Content-Type", text "application/json");
   (text "Authorization", text "Bearer " ++ api_key)].

Definition say_hello : pyval :=
  VList [VDict [(text "role", VStr (text "user"));
                (text "content", VStr (text "Say hello"))]].

(** Lines 29-46. *)
Definition openai_request (api_key : pystr) : request :=
  {| req_url := text "https://api.openai.com/v1/chat/completions";
     req_headers := bearer api_key;
     req_json := VDict [(text "model", VStr (text "gpt-3.5-turbo"));
                        (text "messages", say_hello);
                        (text "max_tokens", VInt 10)];
     req_timeout := 10 |}.

(** Lines 80-96. *)
Definition perplexity_request (api_key : pystr) : request :=
  {| req_url := text "https://api.perplexity.ai/chat/completions";
     req_headers := bearer api_key;
     req_json := VDict [(text "model", VStr (text "sonar"));
                        (text "messages", say_hello)];
     req_timeout := 10 |}.

(** Lines 53 and 103. *)
Definition completion_content (data : pyval) : py pyval :=
  choices <~ py_get data (text "choices") (VList [VDict []]) ;;
  first <~ py_index0 choices ;;
  message <~ py_get first (text "message") (VDict []) ;;
  py_get message (text "content") (VStr []).

(** Lines 58-59 and 108-109. *)
Definition error_message (error_data : pyval) : py pyval :=
  err <~ py_get error_data (text "error") (VDict []) ;;
  py_get err (text "message") (VStr (text "Unknown error")).

(** Lines 56-63 and 106-113: a status other than 200; the bare [except]
    catches whatever the inner [try] raises. *)
Definition report_error (w : world) (status_code : N) (json : pystr + pyval)
  : script bool :=
  try (error_data <-- eval (response_json json) ;;
       m <-- eval (error_message error_data) ;;
       print (text "❌ Error: " ++ format_value w m))
      (fun _ => print (text "❌ Error: HTTP " ++ decimal status_code)) ;;;
  done false.

(** Lines 64-66 and 114-116. *)
Definition report_exception (w : world) (e : pyerr) : script bool :=
  print (text "❌ Exception occurred: " ++ exception_text w e) ;;;
  done false.

(** Lines 47-55 of the [try] of [test_openai_key], once [requests.post]
    has returned. *)
Definition judge_openai (w : world) (status_code : N) (json : pystr + pyval)
  : script bool :=
  print (text "📡 API response status code: " ++ decimal status_code) ;;;
  if status_code =? 200 then
    data <-- eval (response_json json) ;;
    content <-- eval (completion_content data) ;;
    shown <-- eval (py_strip content) ;;
    print (text "✅ Success! Response: '" ++ format_value w shown
           ++ text "'") ;;;
    done true
  else report_error w status_code json.

(** Lines 97-105 of the [try] of [test_perplexity_key]. *)
Definition judge_perplexity (w : world) (status_code : N)
  (json : pystr + pyval) : script bool :=
  print (text "📡 API response status code: " ++ decimal status_code) ;;;
  if status_code =? 200 then
    data <-- eval (response_json json) ;;
    content <-- eval (completion_content data) ;;
    head <-- eval (py_slice50 content) ;;
    shown <-- eval (py_strip head) ;;
    print (text "✅ Success! Response: '" ++ format_value w shown
           ++ text "...'") ;;;
    done true
  else report_error w status_code json.

(** Lines 17-66. *)
Definition test_openai_key (w : world) (api_key : pystr) : script bool :=
  print (10 :: text "---------------------") ;;;
  print (text "Testing OpenAI API Key") ;;;
  print (text "---------------------") ;;;
  match api_key with
  | [] =>
      print (text "❌ No API key provided") ;;;
      done false
  | _ :: _ =>
      print (text "🔑 Using key: " ++ key_preview api_key) ;;;
      try (response <-- requests_post w (openai_request api_key) ;;
           judge_openai w (fst response) (snd response))
          (report_exception w)
  end.

(** Lines 68-116. *)
Definition test_perplexity_key (w : world) (api_key : pystr) : script bool :=
  print (10 :: text "-------------------------") ;;;
  print (text "Testing Perplexity API Key") ;;;
  print (text "-------------------------") ;;;
  match api_key with
  | [] =>
      print (text "❌ No API key provided") ;;;
      done false
  | _ :: _ =>
      print (text "🔑 Using key: " ++ key_preview api_key) ;;;
      try (response <-- requests_post w (perplexity_request api_key) ;;
           judge_perplexity w (fst response) (snd response))
          (report_exception w)
  end.

(** ** [main] *)

Record session : Type := {
  env_openai : pystr;       (* os.getenv("OPENAI_API_KEY", "") *)
  env_perplexity : pystr;   (* os.getenv("PERPLEXITY_API_KEY", "") *)
  stdin : list pystr        (* the lines [input] can read *)
}.

(** What the process leaves behind; [exit_status] is 1 when an exception
    left [main]. *)
Record finished : Type := {
  printed : pystr;
  sent : list request;
  exit_status : N
}.

(** Lines 129-132 and 134-137: the key of one service. *)
Definition obtain_key (env_value prompt found : pystr) : script pystr :=
  match env_value with
  | [] =>
      line <-- input prompt ;;
      done (strip line)
  | _ :: _ =>
      print found ;;;
      done env_value
  end.

(** ['✅ Valid' if result else '❌ Invalid'] *)
Definition validity (result : bool) : pystr :=
  if result then text "✅ Valid" else text "❌ Invalid".

(** Lines 143-144 and 146-147: a test runs only for a key that is not
    empty. *)
Definition tested (run : pystr -> script bool) (key : pystr)
  : script (option bool) :=
  match key with
  | [] => done None
  | _ :: _ =>
      result <-- run key ;;
      done (Some result)
  end.

(** Lines 151-154: one line of the summary. *)
Definition summary_line (label : pystr) (result : option bool) : script unit :=
  match result with
  | Some r => print (label ++ validity r)
  | None => done tt
  end.

(** Lines 139-155, once both keys are known. *)
Definition test_keys (w : world) (openai_key perplexity_key : pystr)
  : script unit :=
  let rule := text "=================================" in
  match openai_key, perplexity_key with
  | [], [] => print (10 :: text "❌ No API keys provided. Exiting.")
  | _, _ =>
      openai_result <-- tested (test_openai_key w) openai_key ;;
      perplexity_result <-- tested (test_perplexity_key w) perplexity_key ;;
      print (10 :: rule) ;;;
      print (text "Summary:") ;;;
      summary_line (text "OpenAI API Key: ") openai_result ;;;
      summary_line (text "Perplexity API Key: ") perplexity_result ;;;
      print rule
  end.

(** Lines 118-155. *)
Definition main_body (w : world) (s : session) : script unit :=
  let rule := text "=================================" in
  print rule ;;;
  print (text "API Key Tester for SwarmWeaver") ;;;
  print rule ;;;
  openai_key <--
    obtain_key (env_openai s)
      (text "Enter your OpenAI API Key (or press Enter to skip): ")
      (text "OpenAI API Key found in environment variables") ;;
  perplexity_key <--
    obtain_key (env_perplexity s)
      (text "Enter your Perplexity API Key (or press Enter to skip): ")
      (text "Perplexity API Key found in environment variables") ;;
  test_keys w openai_key perplexity_key.

(** Lines 157-158: the script as a process. *)
Definition main (w : world) (s : session) : finished :=
  let run := main_body w s {| stdout := []; requests := []; lines := stdin s |} in
  {| printed := stdout (fst run);
     sent := requests (fst run);
     exit_status := match snd run with
                    | inr _ => 0
                    | inl _ => 1
                    end |}.

(** The keys [main] tests: the variable of a service or, when it is not
    set, the answer to the prompt of that service, stripped. *)
Definition openai_key_of (s : session) : pystr :=
  match env_openai s with
  | [] => strip (hd [] (stdin s))
  | _ :: _ => env_openai s
  end.

Definition perplexity_key_of (s : session) : pystr :=
  match env_perplexity s with
  | [] =>
      strip (hd [] (match env_openai s with
                    | [] => tl (stdin s)
                    | _ :: _ => stdin s
                    end))
  | _ :: _ => env_perplexity s
  end.

(** The requests the script means to send, in order. *)
Definition intended (openai_key perplexity_key : pystr) : list request :=
  match openai_key with
  | [] => []
  | _ :: _ => [openai_request openai_key]
  end
  ++ match perplexity_key with
     | [] => []
     | _ :: _ => [perplexity_request perplexity_key]
     end.

(** A statement that calls [requests.post] for the requests of [l], in
    order, and for nothing else: for all of them when it returns, for the
    first few when an exception leaves it. *)
Definition sends {A} (l : list request) (m : script A) : Prop :=
  forall st,
  exists l',
    requests (fst (m st)) = requests st ++ l'
    /\ (exists later, l = l' ++ later)
    /\ (forall a, snd (m st) = inr a -> l' = l).

(** A statement that calls [requests.post] not at all, however it ends. *)
Definition quiet {A} (m : script A) : Prop :=
  forall st, requests (fst (m st)) = requests st.

(** A statement that does not look at standard input: with other lines to
    read it does the same and leaves those lines where they are. *)
Definition with_lines (ls : list pystr) (st : state) : state :=
  {| stdout := stdout st; requests := requests st; lines := ls |}.

Definition ignores_stdin {A} (m : script A) : Prop :=
  forall st ls,
    m (with_lines ls st) = (with_lines ls (fst (m st)), snd (m st)).

(** An exception raised by one of the operations on values. *)
Definition raised_by_operation (e : pyerr) : Prop :=
  exists op operand, e = Raised op operand.

(** The texts the world hands to the script can all be printed. *)
Definition printable_world (w : world) : Prop :=
  (forall op operand, has_surrogate (error_text w op operand) = false)
  /\ (forall req message,
        post w req = PostRaises message -> has_surrogate message = false)
  /\ (forall req status_code message,
        post w req = PostResponse status_code (inl message) ->
        has_surrogate message = false).

End ApiKeys.

(** * Properties *)

(** ** Strings *)

Lemma str_eqb_refl (a : pystr) : str_eqb a a = true.
Proof.
  induction a as [|x a IH]; simpl; [reflexivity|].
  now rewrite N.eqb_refl.
Qed.

Lemma str_eqb_eq (a b : pystr) : str_eqb a b = true <-> a = b.
Proof.
  split.
  - revert b; induction a as [|x a IH]; intros [|y b]; simpl; try discriminate.
    + reflexivity.
    + intros H. apply andb_true_iff in H as [Hx Hab].
      apply N.eqb_eq in Hx. f_equal; auto.
  - intros ->. apply str_eqb_refl.
Qed.

Lemma str_eqb_neq (a b : pystr) : str_eqb a b = false <-> a <> b.
Proof.
  destruct (str_eqb a b) eqn:E.
  - apply str_eqb_eq in E. split; [discriminate | congruence].
  - split; [|reflexivity]. intros _ Hab. apply str_eqb_eq in Hab. congruence.
Qed.

Lemma str_eqb_sym (a b : pystr) : str_eqb a b = str_eqb b a.
Proof.
  destruct (str_eqb a b) eqn:E; symmetry.
  - apply str_eqb_eq in E. subst. apply str_eqb_refl.
  - apply str_eqb_neq in E. apply str_eqb_neq. congruence.
Qed.

Lemma str_in_In (x : pystr) (s : list pystr) : str_in x s = true <-> In x s.
Proof.
  unfold str_in. rewrite existsb_exists. split.
  - intros [y [Hy E]]. apply str_eqb_eq in E. now subst.
  - intros H. exists x. split; [assumption | apply str_eqb_refl].
Qed.

Lemma str_in_not_In (x : pystr) (s : list pystr) :
  str_in x s = false <-> ~ In x s.
Proof.
  rewrite <- str_in_In. destruct (str_in x s); split; congruence.
Qed.

Lemma startswith_prefix (a p : pystr) :
  startswith a p = true <-> exists t, a = p ++ t.
Proof.
  revert a; induction p as [|y p IH]; intros a; simpl.
  - split; [intros _; now exists a | intros _; now destruct a].
  - destruct a as [|x a].
    + split; [discriminate | intros [t Ht]; discriminate].
    + simpl. rewrite andb_true_iff, N.eqb_eq, IH. split.
      * intros [-> [t ->]]. now exists t.
      * intros [t Ht]. injection Ht as -> ->. split; [reflexivity | now exists t].
Qed.

Lemma endswith_suffix (a s : pystr) :
  endswith a s = true <-> exists pre, a = pre ++ s.
Proof.
  unfold endswith. rewrite startswith_prefix. split.
  - intros [t Ht]. exists (rev t).
    rewrite <- (rev_involutive a), Ht, rev_app_distr, rev_involutive.
    reflexivity.
  - intros [pre ->]. exists (rev pre). apply rev_app_distr.
Qed.

Lemma endswith_refl (a : pystr) : endswith a a = true.
Proof. apply endswith_suffix. now exists []. Qed.

(** ** The error monad *)

Lemma bind_ret_l {A B} (a : A) (k : A -> result B) : bind (ret a) k = k a.
Proof. reflexivity. Qed.

Lemma bind_assoc {A B C} (m : result A) (f : A -> result B)
  (g : B -> result C) :
  bind (bind m f) g = bind m (fun a => bind (f a) g).
Proof. destruct m; reflexivity. Qed.

Lemma bind_ext {A B} (m : result A) (f g : A -> result B) :
  (forall a, f a = g a) -> bind m f = bind m g.
Proof. intros H. destruct m; simpl; auto. Qed.

Lemma bind_inr {A B} (m : result A) (k : A -> result B) (b : B) :
  bind m k = inr b -> exists a, m = inr a /\ k a = inr b.
Proof. destruct m as [e|a]; simpl; [discriminate | eauto]. Qed.

(** ** Ordered mappings *)

Section Assoc.

Context {V : Type}.
Implicit Types (items a b : list (pystr * V)) (k : pystr) (v : V).

Lemma assoc_get_set_same items k v : assoc_get (assoc_set items k v) k = Some v.
Proof.
  induction items as [|[k' v'] tl IH]; simpl.
  - now rewrite str_eqb_refl.
  - destruct (str_eqb k k') eqn:E; simpl; rewrite E; auto.
Qed.

Lemma assoc_get_set_other items k k' v :
  k <> k' -> assoc_get (assoc_set items k v) k' = assoc_get items k'.
Proof.
  intros Hne. induction items as [|[k0 v0] tl IH]; simpl.
  - assert (str_eqb k' k = false) as -> by (apply str_eqb_neq; congruence).
    reflexivity.
  - destruct (str_eqb k k0) eqn:E; simpl.
    + apply str_eqb_eq in E; subst k0.
      assert (str_eqb k' k = false) as -> by (apply str_eqb_neq; congruence).
      reflexivity.
    + now rewrite IH.
Qed.

Lemma assoc_set_set items k v v' :
  assoc_set (assoc_set items k v) k v' = assoc_set items k v'.
Proof.
  induction items as [|[k0 v0] tl IH]; simpl.
  - now rewrite str_eqb_refl.
  - destruct (str_eqb k k0) eqn:E; simpl; rewrite E; [reflexivity|].
    now rewrite IH.
Qed.

Lemma assoc_set_get items k v :
  assoc_get items k = Some v -> assoc_set items k v = items.
Proof.
  induction items as [|[k0 v0] tl IH]; simpl; [discriminate|].
  destruct (str_eqb k k0) eqn:E.
  - now intros [= ->].
  - intros H. now rewrite IH.
Qed.

Lemma assoc_set_absent items k v :
  assoc_get items k = None -> assoc_set items k v = items ++ [(k, v)].
Proof.
  induction items as [|[k0 v0] tl IH]; simpl; [reflexivity|].
  destruct (str_eqb k k0); [discriminate|].
  intros H. now rewrite IH.
Qed.

Lemma assoc_get_app a b k :
  assoc_get (a ++ b) k =
  match assoc_get a k with
  | Some v => Some v
  | None => assoc_get b k
  end.
Proof.
  induction a as [|[k0 v0] tl IH]; simpl; [reflexivity|].
  destruct (str_eqb k k0); auto.
Qed.

Lemma assoc_get_absent items k :
  ~ In k (keys items) -> assoc_get items k = None.
Proof.
  induction items as [|[k0 v0] tl IH]; simpl; [reflexivity|].
  intros H. destruct (str_eqb k k0) eqn:E.
  - apply str_eqb_eq in E. subst. tauto.
  - apply IH. tauto.
Qed.

Lemma assoc_get_In items k v :
  assoc_get items k = Some v -> In (k, v) items.
Proof.
  induction items as [|[k0 v0] tl IH]; simpl; [discriminate|].
  destruct (str_eqb k k0) eqn:E.
  - apply str_eqb_eq in E. intros [= ->]. subst. now left.
  - auto.
Qed.

End Assoc.

Lemma bind_ret_r {A} (m : result A) : bind m ret = m.
Proof. now destruct m. Qed.

(** ** Loops *)

Lemma for_each_app {A S} (body : S -> A -> result S) (xs ys : list A) (s : S) :
  for_each body (xs ++ ys) s = bind (for_each body xs s) (for_each body ys).
Proof.
  revert s; induction xs as [|x xs IH]; intros s; simpl; [reflexivity|].
  rewrite bind_assoc. apply bind_ext. intros a. apply IH.
Qed.

(** A body that fails on one element whatever the state makes the loop
    fail. *)
Lemma for_each_fails {A S} (body : S -> A -> result S) (xs : list A) (x : A) :
  In x xs ->
  (forall s, exists e, body s x = inl e) ->
  forall s, exists e, for_each body xs s = inl e.
Proof.
  intros Hin Hx. induction xs as [|y ys IH]; [destruct Hin|].
  intros s. simpl. destruct Hin as [-> | Hin].
  - destruct (Hx s) as [e ->]. now exists e.
  - destruct (body s y) as [e|s']; simpl; [now exists e | auto].
Qed.

(** ** Filesystem trees *)

Lemma fsnode_nested_ind (P : fsnode -> Prop) :
  (forall r d, P (FsFile r d)) ->
  (forall l entries,
      Forall (fun e => P (snd e)) entries -> P (FsDir l entries)) ->
  forall n, P n.
Proof.
  intros Hfile Hdir. fix IH 1. intros [r d | l entries].
  - apply Hfile.
  - apply Hdir. induction entries as [|[k c] tl IHtl]; constructor.
    + apply IH.
    + exact IHtl.
Qed.

Lemma json_nested_ind (P : json -> Prop) :
  (forall s, P (JStr s)) ->
  (forall items, Forall (fun kv => P (snd kv)) items -> P (JObj items)) ->
  forall t, P t.
Proof.
  intros Hstr Hobj. fix IH 1. intros [s | items].
  - apply Hstr.
  - apply Hobj. induction items as [|[k v] tl IHtl]; constructor.
    + apply IH.
    + exact IHtl.
Qed.

(** ** Descending to the current level *)

Lemma with_level_ext parts (f g : json -> result json) node :
  (forall l, f l = g l) -> with_level parts f node = with_level parts g node.
Proof.
  intros Hfg. revert node; induction parts as [|p ps IH]; intros node; simpl.
  - apply Hfg.
  - destruct node as [s|items]; [reflexivity|]. now rewrite IH.
Qed.

Lemma with_level_app ps qs body node :
  with_level (ps ++ qs) body node = with_level ps (with_level qs body) node.
Proof.
  revert node; induction ps as [|p ps IH]; intros node; simpl; [reflexivity|].
  destruct node as [s|items]; [reflexivity|]. now rewrite IH.
Qed.

(** Two visits of one level, one after the other, are one visit running
    both bodies: the objects [setdefault] created the first time are found
    the second time. *)
Lemma with_level_seq parts (f g : json -> result json) node :
  bind (with_level parts f node) (with_level parts g)
  = with_level parts (fun l => bind (f l) g) node.
Proof.
  revert node; induction parts as [|p ps IH]; intros node; simpl.
  - reflexivity.
  - destruct node as [s|items]; [reflexivity|].
    rewrite <- IH, !bind_assoc. apply bind_ext. intros child. simpl.
    unfold setdefault_value. rewrite assoc_get_set_same.
    apply bind_ext. intros child'. now rewrite assoc_set_set.
Qed.

Lemma with_level_fails parts (body : json -> result json) :
  (forall l, exists e, body l = inl e) ->
  forall node, exists e, with_level parts body node = inl e.
Proof.
  intros Hbody. induction parts as [|p ps IH]; intros node; simpl.
  - apply Hbody.
  - destruct node as [s|items]; [now exists AttributeError|].
    destruct (IH (setdefault_value items p)) as [e ->]. now exists e.
Qed.

(** ** The walk, one directory at a time *)

(** What the loop does with the directories below a step that was visited
    at [rel]. *)
Lemma run_walk_subdirs keep rel entries :
  Forall
    (fun e => forall l es rel' acc,
         snd e = FsDir l es ->
         run_walk (os_walk keep rel' (snd e)) acc
         = match l with
           | true => with_level rel' (snapshot_into keep (snd e)) acc
           | false => ret acc
           end)
    entries ->
  forall (f : json -> result json) acc,
    bind (with_level rel f acc)
      (run_walk
         (flat_map
            (fun e =>
               if is_dir (snd e) && keep (fst e)
               then os_walk keep (rel ++ [fst e]) (snd e)
               else [])
            entries))
    = with_level rel
        (fun lvl =>
           bind (f lvl)
             (for_each
                (fun l e =>
                   match snd e with
                   | FsDir true _ =>
                       if keep (fst e)
                       then with_level [fst e] (snapshot_into keep (snd e)) l
                       else ret l
                   | _ => ret l
                   end)
                entries))
        acc.
Proof.
  unfold run_walk.
  induction 1 as [|[k c] tl Hc _ IH]; intros f acc.
  - cbn [flat_map for_each]. rewrite bind_ret_r. apply with_level_ext.
    intros l. now rewrite bind_ret_r.
  - cbn [flat_map for_each fst snd] in *.
    set (enter := fun (l : json) (e : pystr * fsnode) =>
                    match snd e with
                    | FsDir true _ =>
                        if keep (fst e)
                        then with_level [fst e] (snapshot_into keep (snd e)) l
                        else ret l
                    | _ => ret l
                    end) in *.
    assert (Hstep :
              bind (with_level rel f acc)
                (for_each visit_dir
                   (if is_dir c && keep k
                    then os_walk keep (rel ++ [k]) c else []))
              = with_level rel (fun l => bind (f l) (fun s => enter s (k, c)))
                  acc).
    { unfold enter. cbn [fst snd].
      destruct c as [r d | [|] es]; cbn [is_dir andb].
      - cbn [for_each]. rewrite bind_ret_r. apply with_level_ext.
        intros l. now rewrite bind_ret_r.
      - destruct (keep k).
        + erewrite bind_ext;
            [|intros a; rewrite (Hc true es (rel ++ [k]) a eq_refl);
              apply with_level_app].
          apply with_level_seq.
        + cbn [for_each]. rewrite bind_ret_r. apply with_level_ext.
          intros l. now rewrite bind_ret_r.
      - assert (for_each visit_dir
                  (if keep k then os_walk keep (rel ++ [k]) (FsDir false es)
                   else []) = ret) as ->.
        { now destruct (keep k). }
        rewrite bind_ret_r. apply with_level_ext.
        intros l. now rewrite bind_ret_r. }
    erewrite bind_ext; [|intros a; apply for_each_app].
    rewrite <- bind_assoc, Hstep, IH. apply with_level_ext. intros l.
    now rewrite bind_assoc.
Qed.

(** The loop over the walk of a directory that can be listed is one visit
    of its level. *)
Lemma run_walk_snapshot keep top :
  forall l es rel acc,
    top = FsDir l es ->
    run_walk (os_walk keep rel top) acc
    = match l with
      | true => with_level rel (snapshot_into keep top) acc
      | false => ret acc
      end.
Proof.
  induction top as [r d | l0 entries IH] using fsnode_nested_ind;
    intros l es rel acc [= <- <-].
  destruct l0; [|reflexivity].
  pose proof (run_walk_subdirs keep rel entries) as Hsub.
  specialize (Hsub IH (visit_files (nondirs entries)) acc).
  cbn [os_walk snapshot_into]. unfold run_walk in *. cbn [for_each].
  unfold visit_dir at 1. cbn [fst snd]. exact Hsub.
Qed.

Lemma build_snapshot l es :
  build (Some (FsDir l es))
  = match l with
    | true => snapshot_into keep_dir (FsDir l es) (JObj [])
    | false => ret (JObj [])
    end.
Proof.
  unfold build. now rewrite (run_walk_snapshot keep_dir _ l es [] _ eq_refl).
Qed.

Lemma build_not_a_directory r d : build (Some (FsFile r d)) = ret (JObj []).
Proof. reflexivity. Qed.

Lemma build_missing : build None = ret (JObj []).
Proof. reflexivity. Qed.

Lemma snapshot_into_eq keep es lvl :
  snapshot_into keep (FsDir true es) lvl
  = bind (visit_files (nondirs es) lvl) (for_each (enter_dir keep) es).
Proof. reflexivity. Qed.

Lemma tree_of_eq es :
  tree_of (FsDir true es)
  = flat_map leaf_of (nondirs es) ++ flat_map dir_object es.
Proof. reflexivity. Qed.

Lemma opens_ok_eq es :
  opens_ok (FsDir true es)
  = forallb file_opens (nondirs es) && forallb dir_opens es.
Proof. reflexivity. Qed.

(** ** Directories without repeated names *)

Lemma names_unique_NoDup (names : list pystr) :
  names_unique names = true <-> NoDup names.
Proof.
  induction names as [|n tl IH]; simpl.
  - split; [constructor | reflexivity].
  - rewrite andb_true_iff, negb_true_iff, str_in_not_In, IH. split.
    + intros [Hn Htl]. now constructor.
    + intros H. inversion H; subst. now split.
Qed.

Lemma well_formed_dir l es :
  well_formed (FsDir l es) = true ->
  NoDup (keys es) /\ Forall (fun e => well_formed (snd e) = true) es.
Proof.
  simpl. rewrite andb_true_iff, names_unique_NoDup, forallb_forall.
  intros [Hn Hc]. split; [exact Hn | now apply Forall_forall].
Qed.

Lemma keys_In {V} (items : list (pystr * V)) k v :
  In (k, v) items -> In k (keys items).
Proof. intros H. apply (in_map fst) in H. exact H. Qed.

Lemma NoDup_keys_functional {V} (items : list (pystr * V)) k a b :
  NoDup (keys items) -> In (k, a) items -> In (k, b) items -> a = b.
Proof.
  induction items as [|[k0 v0] tl IH]; simpl; [tauto|].
  intros Hnd Ha Hb. inversion Hnd as [|? ? Hk0 Htl]; subst.
  destruct Ha as [Ha | Ha], Hb as [Hb | Hb].
  - congruence.
  - injection Ha as -> _. exfalso. apply Hk0. eapply keys_In; eauto.
  - injection Hb as -> _. exfalso. apply Hk0. eapply keys_In; eauto.
  - auto.
Qed.

Lemma leaf_of_keys fs k :
  In k (keys (flat_map leaf_of fs)) -> In k (keys fs).
Proof.
  induction fs as [|[k0 n0] tl IH]; simpl; [tauto|].
  unfold keys in *. rewrite map_app, in_app_iff. intros [H | H]; [|auto].
  left. unfold leaf_of in H. cbn [fst snd] in H.
  destruct (file_excluded k0); [destruct H|].
  destruct (open_read n0); simpl in H; tauto.
Qed.

Lemma nondirs_In e es : In e (nondirs es) <-> In e es /\ is_dir (snd e) = false.
Proof.
  unfold nondirs. rewrite filter_In, negb_true_iff. reflexivity.
Qed.

Lemma nondirs_keys es k : In k (keys (nondirs es)) -> In k (keys es).
Proof.
  unfold keys. rewrite !in_map_iff. intros [e [He Hin]].
  apply nondirs_In in Hin. exists e. tauto.
Qed.

Lemma NoDup_keys_nondirs es : NoDup (keys es) -> NoDup (keys (nondirs es)).
Proof.
  induction es as [|[k c] tl IH]; simpl; [constructor|].
  intros H. inversion H as [|? ? Hk Htl]; subst.
  destruct (is_dir c); simpl; auto.
  constructor; auto. intros Hin. apply Hk. now apply nondirs_keys.
Qed.

(** The file loop on a directory without repeated names: every surviving
    file adds its leaf at the end, and the only failure is an [open] that
    the system refuses. *)
Lemma visit_files_unique fs :
  forall items,
    NoDup (keys fs) ->
    (forall k, In k (keys fs) -> dict_get items k = None) ->
    visit_files fs (JObj items)
    = if forallb file_opens fs
      then inr (JObj (items ++ flat_map leaf_of fs))
      else inl OSError.
Proof.
  unfold visit_files.
  induction fs as [|[k n] tl IH]; intros items Hnd Hfresh.
  - simpl. now rewrite app_nil_r.
  - inversion Hnd as [|? ? Hk Htl]; subst.
    assert (Hitems : forall k', In k' (keys tl) -> dict_get items k' = None)
      by (intros k' Hk'; apply Hfresh; now right).
    cbn [for_each forallb flat_map].
    unfold visit_file, file_opens, leaf_of. cbn [fst snd].
    destruct (file_excluded k); cbn [orb bind ret app].
    + now apply IH.
    + destruct (open_read n) as [content| |]; cbn [andb bind ret raise app].
      * rewrite assoc_set_absent by (apply Hfresh; now left).
        rewrite IH; [now rewrite <- app_assoc | assumption |].
        intros k' Hk'. rewrite assoc_get_app, Hitems by assumption.
        simpl. destruct (str_eqb k' k) eqn:E; [|reflexivity].
        apply str_eqb_eq in E. now subst.
      * now apply IH.
      * reflexivity.
Qed.

(** The directories of a step, entered one after the other. *)
Lemma enter_dirs_unique ds :
  forall acc,
    NoDup (keys ds) ->
    Forall
      (fun e =>
         forall es, snd e = FsDir true es ->
           snapshot_into keep_dir (snd e) (JObj [])
           = if opens_ok (snd e)
             then inr (JObj (tree_of (snd e)))
             else inl OSError)
      ds ->
    (forall e, In e ds -> is_dir (snd e) = true ->
               dict_get acc (fst e) = None) ->
    for_each (enter_dir keep_dir) ds (JObj acc)
    = if forallb dir_opens ds
      then inr (JObj (acc ++ flat_map dir_object ds))
      else inl OSError.
Proof.
  induction ds as [|[k c] tl IH]; intros acc Hnd Hch Hfresh.
  - simpl. now rewrite app_nil_r.
  - inversion Hnd as [|? ? Hk Htl]; subst.
    inversion Hch as [|? ? Hc Hchtl]; subst.
    assert (Hacc : forall e, In e tl -> is_dir (snd e) = true ->
                             dict_get acc (fst e) = None)
      by (intros e He; apply Hfresh; now right).
    cbn [for_each forallb flat_map].
    unfold enter_dir at 1, dir_opens at 1, dir_object at 1. cbn [fst snd] in *.
    destruct c as [r d | [|] es]; cbn [bind ret andb app]; try now apply IH.
    destruct (keep_dir k) eqn:Hkeep; cbn [negb orb bind ret app];
      [|now apply IH].
    assert (Hk_acc : dict_get acc k = None)
      by (apply (Hfresh (k, FsDir true es)); [now left | reflexivity]).
    cbn [with_level]. unfold setdefault_value.
    rewrite Hk_acc, (Hc es eq_refl).
    destruct (opens_ok (FsDir true es)); cbn [bind ret andb]; [|reflexivity].
    rewrite assoc_set_absent by assumption.
    rewrite IH; [now rewrite <- app_assoc | assumption | assumption |].
    intros e He Hdir. rewrite assoc_get_app, Hacc by assumption.
    simpl. destruct (str_eqb (fst e) k) eqn:E; [|reflexivity].
    apply str_eqb_eq in E. subst k. exfalso. apply Hk.
    destruct e as [k' c']. eapply keys_In; eauto.
Qed.

(** The tree of a well-formed directory that can be listed. *)
Lemma snapshot_well_formed top :
  well_formed top = true ->
  forall es, top = FsDir true es ->
    snapshot_into keep_dir top (JObj [])
    = if opens_ok top then inr (JObj (tree_of top)) else inl OSError.
Proof.
  induction top as [r d | l entries IH] using fsnode_nested_ind;
    intros Hwf es [= -> ->].
  apply well_formed_dir in Hwf as [Hnd Hch].
  rewrite snapshot_into_eq, opens_ok_eq, tree_of_eq.
  rewrite visit_files_unique;
    [|now apply NoDup_keys_nondirs | reflexivity].
  destruct (forallb file_opens (nondirs es)); cbn [bind andb]; [|reflexivity].
  apply enter_dirs_unique; [assumption| |].
  - rewrite Forall_forall in *. intros e He es' Hes'.
    exact (IH e He (Hch e He) es' Hes').
  - intros [k c] He Hdir. cbn [fst snd] in *. simpl.
    apply assoc_get_absent. intros Hin.
    apply leaf_of_keys in Hin. unfold keys in Hin.
    apply in_map_iff in Hin as [[k' c'] [Hk' Hin]]. cbn [fst] in Hk'. subst k'.
    apply nondirs_In in Hin as [Hin Hnot]. cbn [snd] in Hnot.
    assert (c' = c) by (eapply NoDup_keys_functional; eauto).
    congruence.
Qed.

Lemma build_well_formed es :
  well_formed (FsDir true es) = true ->
  build (Some (FsDir true es))
  = if opens_ok (FsDir true es)
    then inr (JObj (tree_of (FsDir true es)))
    else inl OSError.
Proof.
  intros Hwf. rewrite build_snapshot.
  now apply snapshot_well_formed with (es := es).
Qed.

Lemma build_inr top t :
  well_formed top = true ->
  build (Some top) = inr t ->
  t = JObj (tree_of top).
Proof.
  intros Hwf Hb. destruct top as [r d | [|] es].
  - rewrite build_not_a_directory in Hb. now injection Hb as <-.
  - rewrite build_well_formed in Hb by assumption.
    destruct (opens_ok (FsDir true es)); [now injection Hb as <- | discriminate].
  - rewrite build_snapshot in Hb. now injection Hb as <-.
Qed.

Lemma build_total top :
  well_formed top = true ->
  opens_ok top = true ->
  build (Some top) = inr (JObj (tree_of top)).
Proof.
  intros Hwf Hok. destruct top as [r d | [|] es].
  - reflexivity.
  - rewrite build_well_formed by assumption. now rewrite Hok.
  - now rewrite build_snapshot.
Qed.

(** ** Looking names up *)

Lemma assoc_get_unique es k c :
  NoDup (keys es) -> In (k, c) es -> fs_get es k = Some c.
Proof.
  intros Hnd Hin. destruct (fs_get es k) as [c'|] eqn:E.
  - apply assoc_get_In in E. f_equal. eapply NoDup_keys_functional; eauto.
  - exfalso. induction es as [|[k0 c0] tl IH]; [destruct Hin|].
    simpl in E. destruct (str_eqb k k0) eqn:Ek; [discriminate|].
    apply str_eqb_neq in Ek. inversion Hnd; subst.
    destruct Hin as [[= -> ->] | Hin]; [congruence | auto].
Qed.

Lemma fs_get_nondirs es k :
  NoDup (keys es) ->
  fs_get (nondirs es) k
  = match fs_get es k with
    | Some n => if is_dir n then None else Some n
    | None => None
    end.
Proof.
  induction es as [|[k0 c0] tl IH]; simpl; [reflexivity|].
  intros Hnd. inversion Hnd as [|? ? Hk0 Htl]; subst.
  destruct (str_eqb k k0) eqn:E.
  - apply str_eqb_eq in E. subst k0. destruct (is_dir c0) eqn:Hd; simpl.
    + apply assoc_get_absent. intros Hin. apply Hk0. now apply nondirs_keys.
    + now rewrite str_eqb_refl.
  - destruct (is_dir c0); simpl; [|rewrite E]; now apply IH.
Qed.

(** A dict assembled entry by entry, each entry giving at most an item of
    its own name. *)
Lemma dict_get_flat_map (g : pystr * fsnode -> list (pystr * json)) es k :
  (forall e k', In k' (keys (g e)) -> k' = fst e) ->
  NoDup (keys es) ->
  dict_get (flat_map g es) k
  = match fs_get es k with
    | Some n => dict_get (g (k, n)) k
    | None => None
    end.
Proof.
  intros Hg. induction es as [|[k0 c0] tl IH]; simpl; [reflexivity|].
  intros Hnd. inversion Hnd as [|? ? Hk0 Htl]; subst.
  rewrite assoc_get_app. destruct (str_eqb k k0) eqn:E.
  - apply str_eqb_eq in E. subst k0.
    destruct (dict_get (g (k, c0)) k); [reflexivity|].
    rewrite IH by assumption. now rewrite assoc_get_absent.
  - rewrite (assoc_get_absent (g (k0, c0))); [now apply IH|].
    intros Hin. apply Hg in Hin. cbn [fst] in Hin.
    apply str_eqb_neq in E. congruence.
Qed.

Lemma leaf_of_own_key e k : In k (keys (leaf_of e)) -> k = fst e.
Proof.
  unfold leaf_of. destruct (file_excluded (fst e)); [intros []|].
  destruct (open_read (snd e)); simpl; intuition congruence.
Qed.

Lemma dir_object_own_key e k : In k (keys (dir_object e)) -> k = fst e.
Proof.
  unfold dir_object. destruct (snd e) as [r d | [|] es]; try (intros []).
  destruct (keep_dir (fst e)); simpl; intuition congruence.
Qed.

(** The object of a walked directory, name by name. *)
Lemma tree_of_get es k :
  NoDup (keys es) ->
  dict_get (tree_of (FsDir true es)) k
  = match fs_get es k with
    | Some n => node_of k n
    | None => None
    end.
Proof.
  intros Hnd. rewrite tree_of_eq, assoc_get_app.
  rewrite (dict_get_flat_map leaf_of);
    [|intros e k'; apply leaf_of_own_key | now apply NoDup_keys_nondirs].
  rewrite (dict_get_flat_map dir_object);
    [|intros e k'; apply dir_object_own_key | assumption].
  rewrite fs_get_nondirs by assumption.
  destruct (fs_get es k) as [[r d | [|] sub]|]; try reflexivity.
  - unfold leaf_of, dir_object, node_of. cbn [is_dir fst snd].
    destruct (file_excluded k); [reflexivity|].
    destruct (open_read (FsFile r d)); simpl; try reflexivity.
    now rewrite str_eqb_refl.
  - unfold dir_object, node_of. cbn [is_dir fst snd].
    destruct (keep_dir k); simpl; [now rewrite str_eqb_refl | reflexivity].
Qed.

Lemma well_formed_child l es k c :
  well_formed (FsDir l es) = true ->
  fs_get es k = Some c ->
  well_formed c = true.
Proof.
  intros Hwf Hget. apply well_formed_dir in Hwf as [_ Hch].
  rewrite Forall_forall in Hch. apply assoc_get_In in Hget.
  exact (Hch _ Hget).
Qed.

(** One step down in the tree of a well-formed filesystem. *)
Lemma tree_of_step l es k rest :
  well_formed (FsDir l es) = true ->
  json_at (JObj (tree_of (FsDir l es))) (k :: rest)
  = match l, fs_get es k with
    | true, Some n =>
        match node_of k n with
        | Some v => json_at v rest
        | None => None
        end
    | _, _ => None
    end.
Proof.
  intros Hwf. destruct l; [|reflexivity].
  apply well_formed_dir in Hwf as [Hnd _].
  cbn [json_at]. rewrite tree_of_get by assumption.
  destruct (fs_get es k) as [n|]; [|reflexivity].
  now destruct (node_of k n).
Qed.

(** ** Writing a file *)

Lemma assoc_set_last {V} (items : list (pystr * V)) k a b :
  assoc_get items k = None ->
  assoc_set (items ++ [(k, a)]) k b = items ++ [(k, b)].
Proof.
  induction items as [|[k0 v0] tl IH]; simpl.
  - now rewrite str_eqb_refl.
  - destruct (str_eqb k k0); [discriminate|]. intros H. now rewrite IH.
Qed.

Lemma assoc_get_last {V} (items : list (pystr * V)) k a :
  assoc_get items k = None -> assoc_get (items ++ [(k, a)]) k = Some a.
Proof.
  intros H. rewrite assoc_get_app, H. simpl. now rewrite str_eqb_refl.
Qed.

(** After a write the path names a regular file with the data written. *)
Lemma fs_write_at path :
  forall fs data fs',
    fs_write fs path data = Some fs' ->
    exists r, fs_at fs' path = Some (FsFile r data).
Proof.
  induction path as [|k rest IH]; intros fs data fs' H.
  - destruct fs as [r d|l es]; simpl in H; [|discriminate].
    injection H as <-. now exists r.
  - destruct fs as [r d|l es]; simpl in H; [discriminate|].
    destruct (fs_get es k) as [c|] eqn:Hget.
    + destruct (fs_write c rest data) as [c'|] eqn:Hw; [|discriminate].
      injection H as <-. simpl. rewrite assoc_get_set_same. eauto.
    + destruct rest; [|discriminate]. injection H as <-. simpl.
      rewrite assoc_get_last by assumption. now exists true.
Qed.

(** Writing over what was just written is writing once. *)
Lemma fs_write_overwrite path :
  forall fs d1 d2 fs1,
    fs_write fs path d1 = Some fs1 ->
    fs_write fs1 path d2 = fs_write fs path d2.
Proof.
  induction path as [|k rest IH]; intros fs d1 d2 fs1 H.
  - destruct fs as [r d|l es]; simpl in H; [|discriminate].
    now injection H as <-.
  - destruct fs as [r d|l es]; simpl in H; [discriminate|].
    destruct (fs_get es k) as [c|] eqn:Hget.
    + destruct (fs_write c rest d1) as [c1|] eqn:Hw; [|discriminate].
      injection H as <-. simpl.
      rewrite assoc_get_set_same, Hget, (IH c d1 d2 c1 Hw).
      destruct (fs_write c rest d2); [|reflexivity].
      now rewrite assoc_set_set.
    + destruct rest; [|discriminate]. injection H as <-. simpl.
      rewrite assoc_get_last, Hget by assumption.
      now rewrite assoc_set_last.
Qed.

(** Whether a file can be written does not depend on the data. *)
Lemma fs_write_any_data path :
  forall fs d1 d2 fs1,
    fs_write fs path d1 = Some fs1 ->
    exists fs2, fs_write fs path d2 = Some fs2.
Proof.
  induction path as [|k rest IH]; intros fs d1 d2 fs1 H.
  - destruct fs as [r d|l es]; simpl in *; [eauto | discriminate].
  - destruct fs as [r d|l es]; simpl in *; [discriminate|].
    destruct (fs_get es k) as [c|].
    + destruct (fs_write c rest d1) as [c1|] eqn:Hw; [|discriminate].
      destruct (IH c d1 d2 c1 Hw) as [c2 ->]. eauto.
    + destruct rest; [eauto | discriminate].
Qed.

Lemma fs_write_none_any_data path fs d1 d2 :
  fs_write fs path d1 = None -> fs_write fs path d2 = None.
Proof.
  intros H1. destruct (fs_write fs path d2) as [fs2|] eqn:H2; [|reflexivity].
  destruct (fs_write_any_data path fs d2 d1 fs2 H2) as [fs1 H]. congruence.
Qed.

(** ** The JSON text *)

Lemma land_15 (n : N) : N.land n 15 < 16.
Proof.
  change 15 with (N.ones 4). rewrite N.land_ones.
  apply N.mod_upper_bound. discriminate.
Qed.

Lemma hex_digit_printable (n : N) : n < 16 -> printable (hex_digit n).
Proof.
  unfold hex_digit, printable. intros H.
  destruct (n <? 10) eqn:E;
    [apply N.ltb_lt in E | apply N.ltb_ge in E]; lia.
Qed.

Lemma u_escape_printable (n : N) : Forall printable (u_escape n).
Proof.
  unfold u_escape.
  repeat (constructor; try (apply hex_digit_printable; apply land_15));
    unfold printable; lia.
Qed.

Lemma escape_char_printable (c : N) : Forall printable (escape_char c).
Proof.
  unfold escape_char.
  repeat match goal with
         | |- context [if ?b then _ else _] => destruct b eqn:?
         end;
    try (repeat constructor; unfold printable; lia);
    try apply u_escape_printable.
  - apply andb_true_iff in Heqb6 as [H1 H2].
    apply N.leb_le in H1, H2. repeat constructor; assumption.
  - apply Forall_app. split; apply u_escape_printable.
Qed.

Lemma encode_basestring_printable (s : pystr) :
  Forall printable (encode_basestring_ascii s).
Proof.
  unfold encode_basestring_ascii. apply Forall_app. split.
  - repeat constructor; unfold printable; lia.
  - apply Forall_app. split.
    + apply Forall_flat_map, Forall_forall. intros c _.
      apply escape_char_printable.
    + repeat constructor; unfold printable; lia.
Qed.

Lemma join_Forall (P : N -> Prop) sep chunks :
  Forall P sep -> Forall (Forall P) chunks -> Forall P (join sep chunks).
Proof.
  intros Hsep. induction 1 as [|c tl Hc Htl IH]; simpl; [constructor|].
  destruct tl as [|c' tl']; [assumption|].
  apply Forall_app. split; [assumption|].
  apply Forall_app. split; assumption.
Qed.

Lemma printable_text s : Forall printable s -> Forall text_char s.
Proof. apply Forall_impl. intros c H. now right. Qed.

Lemma newline_indent_text level : Forall text_char (newline_indent level).
Proof.
  unfold newline_indent. constructor; [now left|].
  apply Forall_forall. intros c Hc. apply repeat_spec in Hc. subst.
  right. unfold printable. lia.
Qed.

Lemma iterencode_eq level k v items :
  iterencode level (JObj ((k, v) :: items))
  = lit "{" ++ newline_indent (S level)
    ++ join (44 :: newline_indent (S level))
         (List.map
            (fun kv =>
               encode_basestring_ascii (fst kv) ++ lit ": "
               ++ iterencode (S level) (snd kv))
            ((k, v) :: items))
    ++ newline_indent level ++ lit "}".
Proof. reflexivity. Qed.

(** Replaces the string literals of the goal by their code points. *)
Ltac eval_lits :=
  repeat match goal with
         | |- context [lit ?s] =>
             let v := eval cbv in (lit s) in change (lit s) with v
         end.

Ltac text_chars :=
  eval_lits;
  repeat (apply Forall_cons; [right; unfold printable; lia|]);
  apply Forall_nil.

(** The text consists of line breaks and printable ASCII. *)
Lemma iterencode_text o : forall level, Forall text_char (iterencode level o).
Proof.
  induction o as [s | items IH] using json_nested_ind; intros level.
  - apply printable_text, encode_basestring_printable.
  - destruct items as [|[k v] items].
    + cbn [iterencode]. text_chars.
    + rewrite iterencode_eq. remember ((k, v) :: items) as all.
      apply Forall_app. split; [text_chars|].
      apply Forall_app. split; [apply newline_indent_text|].
      apply Forall_app. split.
      * apply join_Forall.
        -- constructor; [|apply newline_indent_text].
           right. unfold printable. lia.
        -- apply Forall_map. rewrite Forall_forall in *. intros kv Hkv.
           apply Forall_app. split.
           ++ apply printable_text, encode_basestring_printable.
           ++ apply Forall_app. split; [text_chars | now apply IH].
      * apply Forall_app. split; [apply newline_indent_text | text_chars].
Qed.

Lemma json_dumps_ascii o : Forall (fun c => c < 128) (json_dumps o).
Proof.
  eapply Forall_impl; [|apply iterencode_text].
  intros c [-> | [_ H]]; lia.
Qed.

Lemma utf8_encode_ascii s :
  Forall (fun c => c < 128) s ->
  utf8_encode s = Some (List.map byte_of_N s).
Proof.
  induction 1 as [|c tl Hc _ IH]; simpl; [reflexivity|].
  rewrite IH. unfold utf8_encode_char.
  apply N.ltb_lt in Hc. now rewrite Hc.
Qed.

(** The bytes [json.dump] leaves in the output file. *)
Lemma output_bytes o :
  utf8_encode (json_dumps o) = Some (List.map byte_of_N (json_dumps o)).
Proof. apply utf8_encode_ascii, json_dumps_ascii. Qed.

(** *** Indentation *)






(** ** The run as a whole *)

(** [repo_to_json] in one piece: the file is opened, written and closed
    exactly when it can be opened. *)
Lemma repo_to_json_spec fs repo_path output_file :
  repo_to_json fs repo_path output_file
  = match build (fs_at fs repo_path) with
    | inl e => (fs, Some e)
    | inr t =>
        match fs_write fs output_file (List.map byte_of_N (json_dumps t)) with
        | Some written => (written, None)
        | None => (fs, Some OSError)
        end
    end.
Proof.
  unfold repo_to_json. destruct (build (fs_at fs repo_path)) as [e|t];
    [reflexivity|].
  rewrite output_bytes.
  destruct (fs_write fs output_file []) as [opened|] eqn:Hopen.
  - rewrite (fs_write_overwrite _ _ _ _ _ Hopen).
    destruct (fs_write_any_data _ _ _ (List.map byte_of_N (json_dumps t)) _ Hopen)
      as [written ->].
    reflexivity.
  - now rewrite (fs_write_none_any_data _ _ _ (List.map byte_of_N (json_dumps t)) Hopen).
Qed.

Lemma main_spec fs repo_path output_file :
  main fs repo_path output_file
  = match build (fs_at fs repo_path) with
    | inl e => {| final_fs := fs; exit_code := 1; confirmation := false |}
    | inr t =>
        match fs_write fs output_file (List.map byte_of_N (json_dumps t)) with
        | Some written =>
            {| final_fs := written; exit_code := 0; confirmation := true |}
        | None => {| final_fs := fs; exit_code := 1; confirmation := false |}
        end
    end.
Proof.
  unfold main. rewrite repo_to_json_spec.
  destruct (build (fs_at fs repo_path)) as [e|t]; [reflexivity|].
  now destruct (fs_write fs output_file _).
Qed.

(** A run that builds [t] and can open its output file. *)
Lemma main_success fs repo_path output_file t opened :
  build (fs_at fs repo_path) = inr t ->
  fs_write fs output_file [] = Some opened ->
  exit_code (main fs repo_path output_file) = 0
  /\ confirmation (main fs repo_path output_file) = true
  /\ exists r,
      fs_at (final_fs (main fs repo_path output_file)) output_file
      = Some (FsFile r (List.map byte_of_N (json_dumps t))).
Proof.
  intros Hb Hopen. rewrite main_spec, Hb.
  destruct (fs_write_any_data _ _ _ (List.map byte_of_N (json_dumps t)) _ Hopen)
    as [written Hw].
  rewrite Hw. cbn [exit_code confirmation final_fs].
  repeat split. eapply fs_write_at; eassumption.
Qed.

(** A run whose traversal raises leaves the filesystem as it was. *)
Lemma main_failure fs repo_path output_file e :
  build (fs_at fs repo_path) = inl e ->
  main fs repo_path output_file
  = {| final_fs := fs; exit_code := 1; confirmation := false |}.
Proof. intros Hb. now rewrite main_spec, Hb. Qed.

(** ** Paths in the filesystem and in the tree *)

Lemma fs_at_app top p q :
  fs_at top (p ++ q)
  = match fs_at top p with
    | Some n => fs_at n q
    | None => None
    end.
Proof.
  revert top; induction p as [|k p IH]; intros top; simpl; [reflexivity|].
  destruct top as [r d|l es]; [reflexivity|].
  destruct (fs_get es k); [apply IH | reflexivity].
Qed.

Lemma json_at_app t p q :
  json_at t (p ++ q)
  = match json_at t p with
    | Some v => json_at v q
    | None => None
    end.
Proof.
  revert t; induction p as [|k p IH]; intros t; simpl; [reflexivity|].
  destruct t as [s|items]; [reflexivity|].
  destruct (dict_get items k); [apply IH | reflexivity].
Qed.

(** The node the tree has for an entry of the filesystem: the one [node_of]
    gives when the walk enters the directory of the entry, none otherwise. *)
Lemma tree_at_entry d :
  forall top k n,
    well_formed top = true ->
    fs_at top (d ++ [k]) = Some n ->
    json_at (JObj (tree_of top)) (d ++ [k])
    = if walked top d then node_of k n else None.
Proof.
  induction d as [|k0 d IH]; intros top k n Hwf Hat.
  - destruct top as [r dt|l es]; [discriminate|].
    cbn [app] in *. rewrite tree_of_step by assumption.
    cbn [fs_at] in Hat. destruct (fs_get es k) as [c|]; [|discriminate].
    injection Hat as ->. destruct l; cbn [walked]; [|reflexivity].
    now destruct (node_of k n).
  - destruct top as [r dt|l es]; [discriminate|].
    cbn [app] in *. rewrite tree_of_step by assumption.
    cbn [fs_at] in Hat. destruct (fs_get es k0) as [c|] eqn:Hget;
      [|discriminate].
    destruct l; cbn [walked]; [|reflexivity]. rewrite Hget.
    assert (Hc : well_formed c = true) by (eapply well_formed_child; eauto).
    destruct c as [r dc|[|] es']; cbn [node_of].
    + destruct d; simpl in Hat; discriminate.
    + destruct (keep_dir k0); cbn [andb]; [|reflexivity].
      now apply IH.
    + destruct d; cbn [walked]; now rewrite andb_false_r.
Qed.

Lemma walked_listable top d :
  walked top d = true -> exists es, fs_at top d = Some (FsDir true es).
Proof.
  revert top; induction d as [|k d IH]; intros top H.
  - destruct top as [r dt|[|] es]; try discriminate. now exists es.
  - destruct top as [r dt|[|] es]; try discriminate. cbn [walked] in H.
    apply andb_true_iff in H as [_ H]. cbn [fs_at].
    destruct (fs_get es k); [now apply IH | discriminate].
Qed.

(** The step the walk yields for a directory it enters. *)
Lemma walked_step d :
  forall top rel es,
    walked top d = true ->
    fs_at top d = Some (FsDir true es) ->
    In (rel ++ d, nondirs es) (os_walk keep_dir rel top).
Proof.
  induction d as [|k d IH]; intros top rel es Hw Hat.
  - injection Hat as ->. rewrite app_nil_r. now left.
  - destruct top as [r dt|[|] es0]; try discriminate.
    cbn [walked fs_at] in *. apply andb_true_iff in Hw as [Hkeep Hw].
    destruct (fs_get es0 k) as [c|] eqn:Hget; [|discriminate].
    right. apply in_flat_map. exists (k, c). split.
    + now apply assoc_get_In.
    + cbn [fst snd]. rewrite Hkeep.
      destruct c as [r dc|l es']; [destruct d; discriminate|].
      cbn [is_dir andb].
      replace (rel ++ k :: d) with ((rel ++ [k]) ++ d)
        by (now rewrite <- app_assoc).
      now apply IH.
Qed.

(** Every component below the top of a step passed the filter. *)
Lemma os_walk_kept top :
  forall rel s,
    In s (os_walk keep_dir rel top) ->
    exists parts,
      fst s = rel ++ parts /\ Forall (fun p => keep_dir p = true) parts.
Proof.
  induction top as [r d | l entries IH] using fsnode_nested_ind;
    intros rel s Hin; [destruct Hin|].
  destruct l; [|destruct Hin]. destruct Hin as [<- | Hin].
  - exists []. now rewrite app_nil_r.
  - apply in_flat_map in Hin as [[k c] [He Hin]]. cbn [fst snd] in Hin.
    destruct (is_dir c && keep_dir k) eqn:E; [|destruct Hin].
    apply andb_true_iff in E as [_ Hkeep].
    rewrite Forall_forall in IH.
    destruct (IH (k, c) He (rel ++ [k]) s Hin) as [parts [Hs Hparts]].
    exists (k :: parts). split; [now rewrite Hs, <- app_assoc|].
    now constructor.
Qed.

Lemma is_dir_prune c : is_dir (prune_excluded c) = is_dir c.
Proof. now destruct c. Qed.

(** The walk does not depend on anything inside a directory that line 15
    filters out. *)
Lemma os_walk_prune top :
  forall rel,
    os_walk keep_dir rel (prune_excluded top) = os_walk keep_dir rel top.
Proof.
  induction top as [r d | l entries IH] using fsnode_nested_ind;
    intros rel; [reflexivity|].
  destruct l; [|reflexivity]. cbn [prune_excluded os_walk]. f_equal.
  - f_equal. induction entries as [|[k c] tl IHtl]; [reflexivity|].
    inversion IH; subst. cbn [flat_map fst snd].
    destruct c as [r dc|l' es']; cbn [is_dir andb].
    + cbn [app nondirs filter snd is_dir negb prune_excluded].
      f_equal. now apply IHtl.
    + destruct (keep_dir k); cbn [negb app nondirs filter snd is_dir prune_excluded];
        now apply IHtl.
  - induction entries as [|[k c] tl IHtl]; [reflexivity|].
    inversion IH as [|? ? Hc Htl]; subst. cbn [flat_map fst snd] in *.
    destruct (is_dir c && negb (keep_dir k)) eqn:E.
    + apply andb_true_iff in E as [-> E]. apply negb_true_iff in E.
      rewrite E. cbn [andb app]. now apply IHtl.
    + cbn [app flat_map fst snd]. rewrite is_dir_prune, Hc.
      f_equal. now apply IHtl.
Qed.

Lemma build_prune top :
  build (Some (prune_excluded top)) = build (Some top).
Proof. unfold build. now rewrite os_walk_prune. Qed.

Lemma universal_newlines_id s : ~ In 13 s -> universal_newlines s = s.
Proof.
  induction s as [|c tl IH]; [reflexivity|].
  intros H. cbn [universal_newlines].
  destruct (c =? 13) eqn:E.
  - apply N.eqb_eq in E. subst. exfalso. apply H. now left.
  - f_equal. apply IH. intros Hin. apply H. now right.
Qed.

(** A write leaves alone every path that does not lead to the file
    written. *)
Lemma fs_write_elsewhere q :
  forall fs p data fs',
    fs_write fs q data = Some fs' ->
    (forall rest, q <> p ++ rest) ->
    fs_at fs' p = fs_at fs p.
Proof.
  induction q as [|k q IH]; intros fs p data fs' Hw Hp.
  - destruct p as [|k' p]; [now contradiction (Hp [])|].
    destruct fs as [r d|l es]; [|discriminate].
    cbn in Hw. now injection Hw as <-.
  - destruct p as [|k' p]; [now contradiction (Hp (k :: q))|].
    destruct fs as [r d|l es]; [discriminate|]. cbn [fs_write] in Hw.
    destruct (str_eqb k k') eqn:E.
    + apply str_eqb_eq in E. subst k'.
      assert (Hp' : forall rest, q <> p ++ rest)
        by (intros rest Hq; apply (Hp rest); cbn; now rewrite Hq).
      destruct (fs_get es k) as [c|] eqn:Hget.
      * destruct (fs_write c q data) as [c'|] eqn:Hc; [|discriminate].
        injection Hw as <-. cbn [fs_at].
        rewrite assoc_get_set_same, Hget. eapply IH; eassumption.
      * destruct q; [|discriminate]. injection Hw as <-. cbn [fs_at].
        rewrite assoc_get_last, Hget by assumption.
        destruct p as [|k2 p]; [now contradiction (Hp' [])|reflexivity].
    + apply str_eqb_neq in E.
      destruct (fs_get es k) as [c|] eqn:Hget.
      * destruct (fs_write c q data) as [c'|]; [|discriminate].
        injection Hw as <-. cbn [fs_at].
        now rewrite assoc_get_set_other.
      * destruct q; [|discriminate]. injection Hw as <-. cbn [fs_at].
        rewrite assoc_get_app. destruct (fs_get es k'); [reflexivity|].
        cbn. assert (str_eqb k' k = false) as ->
            by (apply str_eqb_neq; congruence).
        reflexivity.
Qed.

(** An output file outside the repository leaves the repository as it
    was. *)
Lemma main_keeps_repository fs repo_path output_file :
  (forall rest, output_file <> repo_path ++ rest) ->
  fs_at (final_fs (main fs repo_path output_file)) repo_path
  = fs_at fs repo_path.
Proof.
  intros Hout. rewrite main_spec.
  destruct (build (fs_at fs repo_path)) as [e|t]; [reflexivity|].
  destruct (fs_write fs output_file _) as [written|] eqn:Hw; [|reflexivity].
  cbn [final_fs]. eapply fs_write_elsewhere; eassumption.
Qed.

(** An output file inside the repository is part of the next snapshot: the
    second run then writes a different document. *)
Example rerun_with_output_inside_differs :
  let first := main scenario_repo [] [lit "out.json"] in
  let second := main (final_fs first) [] [lit "out.json"] in
  exit_code first = 0 /\ exit_code second = 0
  /\ fs_at (final_fs second) [lit "out.json"]
     <> fs_at (final_fs first) [lit "out.json"].
Proof.
  cbv zeta. split; [reflexivity|]. split; [reflexivity|].
  vm_compute. discriminate.
Qed.

Lemma same_document_refl t : same_document t t.
Proof. intros path. reflexivity. Qed.

(** * The claims *)

(** ** C1: a root that is missing or not a directory *)

(** C1, as stated, fails.  On a filesystem without [missing], the run over
    [missing] does not exit with a non-zero status and it does produce an
    output file that is not empty: it holds the two characters of the empty
    JSON object. *)
Lemma C1_counterexample :
  let p := main (host scenario_repo) [lit "missing"] [lit "out.json"] in
  fs_at (host scenario_repo) [lit "missing"] = None
  /\ ~ (exit_code p <> 0)
  /\ ~ (fs_at (final_fs p) [lit "out.json"] = None
        \/ exists r, fs_at (final_fs p) [lit "out.json"] = Some (FsFile r []))
  /\ fs_at (final_fs p) [lit "out.json"] = Some (text_file "{}").
Proof.
  cbv zeta. repeat split.
  - intros H. now apply H.
  - intros [H | [r H]]; vm_compute in H; discriminate.
Qed.

(** C1, amended: when [repo_path] names nothing, or names a regular file,
    [os.walk] yields nothing and the tree stays empty; if the output file
    can be opened the run ends with exit status 0, prints its confirmation,
    and leaves the output file holding [{}]; if it cannot, the run ends
    with status 1 and the filesystem unchanged. *)
Theorem C1_invalid_root_yields_empty_object
  (fs : fsnode) (repo_path output_file : list pystr) :
  (fs_at fs repo_path = None
   \/ exists r d, fs_at fs repo_path = Some (FsFile r d)) ->
  build (fs_at fs repo_path) = inr (JObj [])
  /\ (forall opened,
        fs_write fs output_file [] = Some opened ->
        exit_code (main fs repo_path output_file) = 0
        /\ confirmation (main fs repo_path output_file) = true
        /\ exists r,
            fs_at (final_fs (main fs repo_path output_file)) output_file
            = Some (FsFile r (ascii_bytes "{}")))
  /\ (fs_write fs output_file [] = None ->
      main fs repo_path output_file
      = {| final_fs := fs; exit_code := 1; confirmation := false |}).
Proof.
  intros Hroot.
  assert (Hb : build (fs_at fs repo_path) = inr (JObj [])).
  { destruct Hroot as [-> | [r [d ->]]]; reflexivity. }
  split; [exact Hb|]. split.
  - intros opened Hopen.
    exact (main_success fs repo_path output_file (JObj []) opened Hb Hopen).
  - intros Hopen. rewrite main_spec, Hb.
    now rewrite (fs_write_none_any_data _ _ _ _ Hopen).
Qed.

Lemma C1_invalid_root_witness :
  (fs_at (host scenario_repo) [lit "missing"] = None
   \/ exists r d, fs_at (host scenario_repo) [lit "missing"] = Some (FsFile r d))
  /\ build (fs_at (host scenario_repo) [lit "missing"]) = inr (JObj []).
Proof.
  split.
  - left. reflexivity.
  - apply (C1_invalid_root_yields_empty_object
             (host scenario_repo) [lit "missing"] [lit "out.json"]).
    left. reflexivity.
Defined.

(** ** C8: running twice *)

(** C8: when the first run left the tree under [repo_path] as it was, the
    second run ends exactly like the first: same exit status, same
    filesystem, and in it the same output file, byte for byte; the trees
    the two runs build are equal, so they serialize to the same text and
    show the same document whatever the order of keys.  The runs do write:
    when the tree can be built and the output file opened, both runs end
    with exit status 0 and each leaves at [output_file] a regular file
    holding exactly the bytes of the JSON text of the tree; and a first run
    that ends with status 0 has left such a file, which the second run
    leaves again. *)
Theorem C8_second_run_is_identical
  (fs : fsnode) (repo_path output_file : list pystr) :
  let first := main fs repo_path output_file in
  let second := main (final_fs first) repo_path output_file in
  fs_at (final_fs first) repo_path = fs_at fs repo_path ->
  second = first
  /\ fs_at (final_fs second) output_file = fs_at (final_fs first) output_file
  /\ (forall t1 t2,
        build (fs_at fs repo_path) = inr t1 ->
        build (fs_at (final_fs first) repo_path) = inr t2 ->
        json_dumps t1 = json_dumps t2 /\ same_document t1 t2)
  /\ (forall t opened,
        build (fs_at fs repo_path) = inr t ->
        fs_write fs output_file [] = Some opened ->
        exit_code first = 0 /\ exit_code second = 0
        /\ exists r,
            fs_at (final_fs first) output_file
            = Some (FsFile r (List.map byte_of_N (json_dumps t)))
            /\ fs_at (final_fs second) output_file
               = Some (FsFile r (List.map byte_of_N (json_dumps t))))
  /\ (exit_code first = 0 ->
      exit_code second = 0
      /\ exists t r,
          build (fs_at fs repo_path) = inr t
          /\ build (fs_at (final_fs first) repo_path) = inr t
          /\ fs_at (final_fs first) output_file
             = Some (FsFile r (List.map byte_of_N (json_dumps t)))
          /\ fs_at (final_fs second) output_file
             = Some (FsFile r (List.map byte_of_N (json_dumps t)))).
Proof.
  intros first second Hsame.
  assert (Heq : second = first).
  { subst first second. rewrite (main_spec (final_fs _)), Hsame.
    rewrite main_spec.
    destruct (build (fs_at fs repo_path)) as [e|t] eqn:Hb.
    - cbn [final_fs]. reflexivity.
    - destruct (fs_write fs output_file (List.map byte_of_N (json_dumps t)))
        as [written|] eqn:Hw; cbn [final_fs].
      + rewrite (fs_write_overwrite _ _ _ _ _ Hw), Hw. reflexivity.
      + now rewrite Hw. }
  split; [exact Heq|]. split; [now rewrite Heq|]. split; [|split].
  - intros t1 t2 H1 H2. rewrite Hsame, H1 in H2. injection H2 as <-.
    split; [reflexivity | apply same_document_refl].
  - intros t opened Hb Hopen. rewrite Heq.
    destruct (main_success fs repo_path output_file t opened Hb Hopen)
      as [Hexit [_ [r Hfile]]].
    fold first in Hexit, Hfile. repeat split; try assumption.
    exists r. split; assumption.
  - intros Hexit. rewrite Heq. split; [exact Hexit|].
    subst first. rewrite Hsame. rewrite main_spec in Hexit |- *.
    destruct (build (fs_at fs repo_path)) as [e|t]; [discriminate|].
    destruct (fs_write fs output_file (List.map byte_of_N (json_dumps t)))
      as [written|] eqn:Hw; [|discriminate].
    cbn [final_fs]. destruct (fs_write_at _ _ _ _ Hw) as [r Hr].
    exists t, r. repeat split; assumption.
Qed.

Lemma C8_second_run_witness :
  fs_at (final_fs (main (host scenario_repo) [lit "repo"] [lit "out.json"]))
    [lit "repo"]
  = fs_at (host scenario_repo) [lit "repo"]
  /\ main (final_fs (main (host scenario_repo) [lit "repo"] [lit "out.json"]))
       [lit "repo"] [lit "out.json"]
     = main (host scenario_repo) [lit "repo"] [lit "out.json"]
  /\ exit_code (main (host scenario_repo) [lit "repo"] [lit "out.json"]) = 0
  /\ exists r,
      fs_at
        (final_fs
           (main (final_fs
                    (main (host scenario_repo) [lit "repo"] [lit "out.json"]))
              [lit "repo"] [lit "out.json"]))
        [lit "out.json"]
      = Some
          (FsFile r
             (List.map byte_of_N
                (json_dumps
                   (JObj [(lit "readme.md", JStr (lit "hi"));
                          (lit "src",
                           JObj [(lit "main.txt", JStr (lit "hello"))])])))).
Proof.
  pose proof (C8_second_run_is_identical
                (host scenario_repo) [lit "repo"] [lit "out.json"]) as H.
  cbv zeta in H.
  assert (Hsame :
            fs_at
              (final_fs
                 (main (host scenario_repo) [lit "repo"] [lit "out.json"]))
              [lit "repo"]
            = fs_at (host scenario_repo) [lit "repo"])
    by (vm_compute; reflexivity).
  destruct (H Hsame) as [Heq [_ [_ [Hwrite _]]]].
  split; [exact Hsame|]. split; [exact Heq|].
  destruct (Hwrite
              (JObj [(lit "readme.md", JStr (lit "hi"));
                     (lit "src", JObj [(lit "main.txt", JStr (lit "hello"))])])
              (FsDir true [(lit "repo", scenario_repo);
                           (lit "out.json", FsFile true [])])
              eq_refl eq_refl)
    as [Hexit [_ [r [_ Hfile]]]].
  split; [exact Hexit|]. exists r. exact Hfile.
Defined.

(** ** C3: the JSON text *)



(** ** C5, C10: files skipped by their name *)

Lemma file_excluded_iff (file : pystr) :
  file_excluded file = true
  <-> (exists ext, In ext excluded_extensions
                   /\ exists stem, file = stem ++ ext)
      \/ In file excluded_files.
Proof.
  unfold file_excluded.
  rewrite orb_true_iff, existsb_exists, str_in_In.
  apply or_iff_compat_r. split.
  - intros [ext [Hin Hend]]. exists ext. split; [assumption|].
    now apply endswith_suffix.
  - intros [ext [Hin Hstem]]. exists ext. split; [assumption|].
    now apply endswith_suffix.
Qed.

(** A file whose name is excluded is not even opened. *)
Lemma visit_file_excluded lvl file node :
  file_excluded file = true -> visit_file lvl (file, node) = inr lvl.
Proof. intros H. unfold visit_file. cbn [fst]. now rewrite H. Qed.

(** C5: the [continue] of line 27 is taken exactly for a name that ends
    with one of the five suffixes or is one of the three names of
    [excluded_files], compared as they are written: [*.log] is skipped,
    [foo.log] is not.  For a file of a directory the walk enters that reads
    as text, the tree has no leaf exactly in that case. *)
Theorem C5_file_skipped_iff_name_excluded
  (top : fsnode) (t : json) (dir : list pystr) (file : pystr)
  (data : list byte) (s : pystr) :
  well_formed top = true ->
  build (Some top) = inr t ->
  walked top dir = true ->
  fs_at top (dir ++ [file]) = Some (FsFile true data) ->
  utf8_decode data = Some s ->
  (file_excluded file = true
   <-> (exists ext, In ext [lit ".js"; lit ".js.map"; lit ".d.ts";
                            lit ".exe"; lit ".pyc"]
                    /\ exists stem, file = stem ++ ext)
       \/ In file [lit ".DS_Store"; lit "*.log"; lit "*.lock"])
  /\ (json_at t (dir ++ [file]) = None <-> file_excluded file = true)
  /\ file_excluded (lit "foo.log") = false
  /\ file_excluded (lit "*.log") = true.
Proof.
  intros Hwf Hb Hwalk Hat Hdec.
  split; [apply file_excluded_iff|]. split; [|split; reflexivity].
  apply build_inr in Hb; [|assumption]. subst t.
  rewrite (tree_at_entry dir top file _ Hwf Hat), Hwalk.
  cbn [node_of open_read]. rewrite Hdec.
  destruct (file_excluded file); split; congruence.
Qed.

Lemma C5_file_skipped_witness :
  json_at (JObj [(lit "foo.log", JStr (lit "z")); (lit "docs", JObj [])])
    ([lit "docs"] ++ [lit "app.js"]) = None
  <-> file_excluded (lit "app.js") = true.
Proof.
  apply (C5_file_skipped_iff_name_excluded
           filtered_repo
           (JObj [(lit "foo.log", JStr (lit "z")); (lit "docs", JObj [])])
           [lit "docs"] (lit "app.js") (ascii_bytes "x") (lit "x"));
    reflexivity.
Defined.

(** C10: a name that is one of the excluded extensions, all of it, ends
    with that extension, so line 27 skips the file without opening it and
    the tree has no leaf for it. *)
Theorem C10_bare_extension_name_is_skipped
  (ext : pystr) (top : fsnode) (t : json) (dir : list pystr)
  (r : bool) (data : list byte) :
  In ext excluded_extensions ->
  well_formed top = true ->
  build (Some top) = inr t ->
  fs_at top (dir ++ [ext]) = Some (FsFile r data) ->
  endswith ext ext = true
  /\ file_excluded ext = true
  /\ (forall lvl node, visit_file lvl (ext, node) = inr lvl)
  /\ json_at t (dir ++ [ext]) = None.
Proof.
  intros Hext Hwf Hb Hat.
  assert (Hex : file_excluded ext = true).
  { apply file_excluded_iff. left. exists ext. split; [assumption|].
    now exists []. }
  split; [apply endswith_refl|]. split; [exact Hex|]. split.
  - intros lvl node. now apply visit_file_excluded.
  - apply build_inr in Hb; [|assumption]. subst t.
    rewrite (tree_at_entry dir top ext _ Hwf Hat).
    cbn [node_of]. rewrite Hex. now destruct (walked top dir).
Qed.

Lemma C10_bare_extension_witness :
  json_at (JObj [(lit "foo.log", JStr (lit "z")); (lit "docs", JObj [])])
    ([] ++ [lit ".js"]) = None.
Proof.
  apply (C10_bare_extension_name_is_skipped
           (lit ".js") filtered_repo
           (JObj [(lit "foo.log", JStr (lit "z")); (lit "docs", JObj [])])
           [] true (ascii_bytes "x")).
  - left. reflexivity.
  - reflexivity.
  - reflexivity.
  - reflexivity.
Defined.

(** ** C6: files that are not UTF-8 *)

Lemma visit_file_undecodable lvl file data :
  utf8_decode data = None -> visit_file lvl (file, FsFile true data) = inr lvl.
Proof.
  intros H. unfold visit_file. cbn [fst snd open_read]. rewrite H.
  now destruct (file_excluded file).
Qed.

Lemma visit_files_undecodable es lvl :
  Forall (fun e => exists data,
              snd e = FsFile true data /\ utf8_decode data = None) es ->
  visit_files es lvl = inr lvl.
Proof.
  unfold visit_files. induction 1 as [|[k n] tl [data [Hn Hd]] _ IH];
    [reflexivity|].
  cbn [snd] in Hn. subst n. cbn [for_each].
  now rewrite visit_file_undecodable.
Qed.

(** C6: a file whose bytes are not valid UTF-8 leaves the level it is met
    on as it was and raises nothing; the tree has no leaf for it; and a
    root that holds only such files gives the tree [{}], a run that ends
    with exit status 0 whenever the output file can be opened, and an
    output file holding [{}]. *)
Theorem C6_undecodable_file_is_skipped
  (fs : fsnode) (repo_path output_file : list pystr)
  (es : list (pystr * fsnode)) (opened : fsnode) :
  fs_at fs repo_path = Some (FsDir true es) ->
  Forall (fun e => exists data,
              snd e = FsFile true data /\ utf8_decode data = None) es ->
  fs_write fs output_file [] = Some opened ->
  (forall lvl file data,
      utf8_decode data = None ->
      visit_file lvl (file, FsFile true data) = inr lvl)
  /\ (forall top t dir file data,
        well_formed top = true ->
        build (Some top) = inr t ->
        fs_at top (dir ++ [file]) = Some (FsFile true data) ->
        utf8_decode data = None ->
        json_at t (dir ++ [file]) = None)
  /\ build (fs_at fs repo_path) = inr (JObj [])
  /\ exit_code (main fs repo_path output_file) = 0
  /\ exists r,
      fs_at (final_fs (main fs repo_path output_file)) output_file
      = Some (FsFile r (ascii_bytes "{}")).
Proof.
  intros Hroot Hbin Hopen.
  split; [intros; now apply visit_file_undecodable|]. split.
  { intros top t dir file data Hwf Hb Hat Hdec.
    apply build_inr in Hb; [|assumption]. subst t.
    rewrite (tree_at_entry dir top file _ Hwf Hat).
    cbn [node_of open_read]. rewrite Hdec.
    now destruct (walked top dir), (file_excluded file). }
  assert (Hb : build (fs_at fs repo_path) = inr (JObj [])).
  { rewrite Hroot, build_snapshot, snapshot_into_eq.
    assert (Hfiles : Forall (fun e => exists data,
                snd e = FsFile true data /\ utf8_decode data = None)
              (nondirs es)).
    { apply Forall_forall. intros e He. apply nondirs_In in He as [He _].
      rewrite Forall_forall in Hbin. now apply Hbin. }
    rewrite (visit_files_undecodable _ _ Hfiles). cbn [bind].
    clear Hfiles Hroot. induction Hbin as [|[k n] tl [data [Hn _]] _ IH];
      [reflexivity|].
    cbn [snd] in Hn. subst n. exact IH. }
  split; [exact Hb|].
  destruct (main_success fs repo_path output_file _ opened Hb Hopen)
    as [Hexit [_ Hfile]].
  split; assumption.
Qed.

Lemma C6_undecodable_witness :
  exit_code (main (host binary_repo) [lit "repo"] [lit "out.json"]) = 0
  /\ exists r,
      fs_at (final_fs (main (host binary_repo) [lit "repo"] [lit "out.json"]))
        [lit "out.json"]
      = Some (FsFile r (ascii_bytes "{}")).
Proof.
  apply (C6_undecodable_file_is_skipped
           (host binary_repo) [lit "repo"] [lit "out.json"]
           [(lit "blob.bin", FsFile true [xff; xfe; x00])]
           (FsDir true [(lit "repo", binary_repo);
                        (lit "out.json", FsFile true [])])).
  - reflexivity.
  - repeat constructor. exists [xff; xfe; x00]. split; reflexivity.
  - reflexivity.
Defined.

(** ** C2: the content of a leaf *)

(** C2, as stated, fails.  [a.txt] holds the four bytes x, CR, LF, y, which
    decode as UTF-8 to four characters; its name passes the exclusion
    rules; its leaf holds three characters, x, LF, y. *)
Lemma C2_counterexample :
  utf8_decode [x78; x0d; x0a; x79] = Some [120; 13; 10; 121]
  /\ file_excluded (lit "a.txt") = false
  /\ build (Some crlf_repo) = inr (JObj [(lit "a.txt", JStr [120; 10; 121])])
  /\ ~ (forall t, build (Some crlf_repo) = inr t ->
                  json_at t [lit "a.txt"] = Some (JStr [120; 13; 10; 121])).
Proof.
  split; [reflexivity|]. split; [reflexivity|]. split; [reflexivity|].
  intros H. specialize (H _ eq_refl). vm_compute in H. discriminate.
Qed.

(** C2, amended: for a file that survives the exclusion rules and decodes
    as UTF-8, the leaf under its directory node, keyed by its name, holds
    the decoded text as the text-mode read returns it, with every CR LF and
    every lone CR replaced by LF; it is the decoded text itself when that
    text has no CR. *)
Theorem C2_leaf_holds_text_as_read
  (top : fsnode) (t : json) (dir : list pystr) (file : pystr)
  (data : list byte) (s : pystr) :
  well_formed top = true ->
  build (Some top) = inr t ->
  walked top dir = true ->
  fs_at top (dir ++ [file]) = Some (FsFile true data) ->
  file_excluded file = false ->
  utf8_decode data = Some s ->
  json_at t (dir ++ [file]) = Some (JStr (universal_newlines s))
  /\ (~ In 13 s -> json_at t (dir ++ [file]) = Some (JStr s)).
Proof.
  intros Hwf Hb Hwalk Hat Hname Hdec.
  apply build_inr in Hb; [|assumption]. subst t.
  assert (Hleaf : json_at (JObj (tree_of top)) (dir ++ [file])
                  = Some (JStr (universal_newlines s))).
  { rewrite (tree_at_entry dir top file _ Hwf Hat), Hwalk.
    cbn [node_of open_read]. now rewrite Hname, Hdec. }
  split; [exact Hleaf|].
  intros Hcr. now rewrite Hleaf, universal_newlines_id.
Qed.

Lemma C2_leaf_witness :
  json_at
    (JObj [(lit "readme.md", JStr (lit "hi"));
           (lit "src", JObj [(lit "main.txt", JStr (lit "hello"))])])
    ([lit "src"] ++ [lit "main.txt"])
  = Some (JStr (universal_newlines (lit "hello"))).
Proof.
  refine (proj1 (C2_leaf_holds_text_as_read
                   scenario_repo
                   (JObj [(lit "readme.md", JStr (lit "hi"));
                          (lit "src",
                           JObj [(lit "main.txt", JStr (lit "hello"))])])
                   [lit "src"] (lit "main.txt") (ascii_bytes "hello")
                   (lit "hello") _ _ _ _ _ _));
    reflexivity.
Defined.

(** ** C4: excluded directories *)

Lemma keep_dir_false_iff name :
  keep_dir name = false <-> In name excluded_dirs.
Proof.
  unfold keep_dir. rewrite negb_false_iff. apply str_in_In.
Qed.

(** C4: a directory whose name is one of [.git], [node_modules], [dist],
    [build], [__pycache__] is never entered: no step of the walk lies in it
    or below it.  Its contents are never inspected: the run is the run on
    the filesystem without such directories, so two filesystems that differ
    only inside them give the same result.  And the tree has no node for it
    or for anything below it. *)
Theorem C4_excluded_directory_is_pruned
  (top : fsnode) (d : list pystr) (name : pystr)
  (l : bool) (es : list (pystr * fsnode)) :
  In name [lit ".git"; lit "node_modules"; lit "dist"; lit "build";
           lit "__pycache__"] ->
  fs_at top (d ++ [name]) = Some (FsDir l es) ->
  (forall s rest,
      In s (os_walk keep_dir [] top) -> fst s <> d ++ name :: rest)
  /\ build (Some top) = build (Some (prune_excluded top))
  /\ (forall top',
        prune_excluded top' = prune_excluded top ->
        build (Some top') = build (Some top))
  /\ (forall t rest,
        well_formed top = true ->
        build (Some top) = inr t ->
        json_at t (d ++ name :: rest) = None).
Proof.
  intros Hname Hat. apply keep_dir_false_iff in Hname.
  split; [|split; [|split]].
  - intros s rest Hin Hs.
    destruct (os_walk_kept top [] s Hin) as [parts [Hparts Hkept]].
    cbn [app] in Hparts. rewrite Hs in Hparts. subst parts.
    rewrite Forall_forall in Hkept.
    assert (keep_dir name = true)
      by (apply Hkept, in_or_app; right; now left).
    congruence.
  - symmetry. apply build_prune.
  - intros top' Hsame.
    now rewrite <- (build_prune top'), Hsame, build_prune.
  - intros t rest Hwf Hb.
    apply build_inr in Hb; [|assumption]. subst t.
    replace (d ++ name :: rest) with ((d ++ [name]) ++ rest)
      by (now rewrite <- app_assoc).
    rewrite json_at_app, (tree_at_entry d top name _ Hwf Hat).
    cbn [node_of]. rewrite Hname.
    now destruct (walked top d), l.
Qed.

Lemma C4_excluded_directory_witness :
  build (Some scenario_repo) = build (Some (prune_excluded scenario_repo))
  /\ json_at
       (JObj [(lit "readme.md", JStr (lit "hi"));
              (lit "src", JObj [(lit "main.txt", JStr (lit "hello"))])])
       ([] ++ lit ".git" :: [lit "config"]) = None.
Proof.
  pose proof (C4_excluded_directory_is_pruned
                scenario_repo [] (lit ".git") true
                [(lit "config", FsFile false [xff; xfe])]) as H.
  destruct H as [_ [Hprune [_ Hnode]]].
  - left. reflexivity.
  - reflexivity.
  - split; [exact Hprune|]. apply Hnode; reflexivity.
Defined.

(** ** C7: what cannot be read *)

(** A directory that cannot be listed contributes no step: the walk is the
    walk without it. *)
Lemma os_walk_unlistable keep rel pre post name sub :
  os_walk keep rel (FsDir true (pre ++ (name, FsDir false sub) :: post))
  = os_walk keep rel (FsDir true (pre ++ post)).
Proof.
  cbn [os_walk]. unfold nondirs. rewrite !filter_app, !flat_map_app.
  cbn [filter flat_map snd fst is_dir negb andb os_walk app].
  now destruct (keep name).
Qed.

Lemma visit_file_unreadable lvl file data :
  file_excluded file = false ->
  visit_file lvl (file, FsFile false data) = inl OSError.
Proof. intros H. unfold visit_file. cbn [fst snd open_read]. now rewrite H. Qed.

(** A file the walk reaches that cannot be opened ends the traversal. *)
Lemma build_unreadable top dir file data :
  walked top dir = true ->
  fs_at top (dir ++ [file]) = Some (FsFile false data) ->
  file_excluded file = false ->
  exists e, build (Some top) = inl e.
Proof.
  intros Hwalk Hat Hname.
  destruct (walked_listable top dir Hwalk) as [es Hdir].
  rewrite fs_at_app, Hdir in Hat. cbn [fs_at] in Hat.
  destruct (fs_get es file) as [c|] eqn:Hget; [|discriminate].
  injection Hat as ->.
  pose proof (walked_step dir top [] es Hwalk Hdir) as Hstep.
  unfold build, run_walk.
  apply (for_each_fails visit_dir _ _ Hstep).
  intros acc. unfold visit_dir. cbn [fst snd app].
  apply with_level_fails. intros lvl. unfold visit_files.
  apply (for_each_fails visit_file _ (file, FsFile false data)).
  - apply nondirs_In. split; [now apply assoc_get_In | reflexivity].
  - intros s. exists OSError. now apply visit_file_unreadable.
Qed.

(** C7, as stated, fails.  [a.txt] cannot be opened, [b.txt] can; the run
    does not skip [a.txt] and go on to [b.txt]: it ends with [OSError],
    exit status 1, and no output file at all. *)
Lemma C7_counterexample :
  let p := main (host unreadable_file_repo) [lit "repo"] [lit "out.json"] in
  build (Some unreadable_file_repo) = inl OSError
  /\ exit_code p = 1
  /\ final_fs p = host unreadable_file_repo
  /\ fs_at (final_fs p) [lit "out.json"] = None
  /\ ~ (exists t, build (Some unreadable_file_repo) = inr t
                  /\ json_at t [lit "b.txt"] = Some (JStr (lit "hi"))).
Proof.
  cbv zeta. split; [reflexivity|]. split; [reflexivity|].
  split; [reflexivity|]. split; [reflexivity|].
  intros [t [Hb _]]. vm_compute in Hb. discriminate.
Qed.

(** C7, amended: a subdirectory that cannot be listed is skipped and the
    traversal goes on: the walk, and so the tree, is the one of the
    filesystem without that directory, and the tree has no node for it.  A
    file the walk reaches, with a name that is not excluded, that cannot be
    opened is not skipped: the exception leaves [repo_to_json], the run ends
    with exit status 1 and nothing is written. *)
Theorem C7_unlistable_directory_skipped_unreadable_file_fatal
  (fs : fsnode) (repo_path output_file : list pystr)
  (top : fsnode) (dir : list pystr) (file : pystr) (data : list byte) :
  fs_at fs repo_path = Some top ->
  walked top dir = true ->
  fs_at top (dir ++ [file]) = Some (FsFile false data) ->
  file_excluded file = false ->
  (exists e, build (Some top) = inl e)
  /\ main fs repo_path output_file
     = {| final_fs := fs; exit_code := 1; confirmation := false |}
  /\ (forall keep rel pre post name sub,
        os_walk keep rel (FsDir true (pre ++ (name, FsDir false sub) :: post))
        = os_walk keep rel (FsDir true (pre ++ post)))
  /\ (forall pre post name sub,
        build (Some (FsDir true (pre ++ (name, FsDir false sub) :: post)))
        = build (Some (FsDir true (pre ++ post))))
  /\ (forall top' t d name sub rest,
        well_formed top' = true ->
        build (Some top') = inr t ->
        fs_at top' (d ++ [name]) = Some (FsDir false sub) ->
        json_at t (d ++ name :: rest) = None).
Proof.
  intros Hroot Hwalk Hat Hname.
  destruct (build_unreadable top dir file data Hwalk Hat Hname) as [e He].
  split; [now exists e|]. split; [|split; [|split]].
  - apply main_failure with (e := e). now rewrite Hroot.
  - intros. apply os_walk_unlistable.
  - intros. unfold build. now rewrite os_walk_unlistable.
  - intros top' t d name sub rest Hwf Hb Hsub.
    apply build_inr in Hb; [|assumption]. subst t.
    replace (d ++ name :: rest) with ((d ++ [name]) ++ rest)
      by (now rewrite <- app_assoc).
    rewrite json_at_app, (tree_at_entry d top' name _ Hwf Hsub).
    cbn [node_of]. now destruct (walked top' d).
Qed.

Lemma C7_unreadable_witness :
  main (host unreadable_file_repo) [lit "repo"] [lit "out.json"]
  = {| final_fs := host unreadable_file_repo;
       exit_code := 1;
       confirmation := false |}
  /\ build (Some unlistable_dir_repo)
     = build (Some (FsDir true [(lit "b.txt", text_file "hi")])).
Proof.
  pose proof (C7_unlistable_directory_skipped_unreadable_file_fatal
                (host unreadable_file_repo) [lit "repo"] [lit "out.json"]
                unreadable_file_repo [] (lit "a.txt") [x68; x69]) as H.
  destruct H as [_ [Hmain [_ [Hdir _]]]]; try reflexivity.
  split; [exact Hmain|].
  exact (Hdir [] [(lit "b.txt", text_file "hi")] (lit "locked")
           [(lit "c.txt", text_file "x")]).
Defined.

(** ** C9: directories without surviving files *)

Lemma flat_map_nil {A B} (f : A -> list B) (xs : list A) :
  (forall x, In x xs -> f x = []) -> flat_map f xs = [].
Proof.
  induction xs as [|x xs IH]; intros H; [reflexivity|].
  cbn [flat_map]. rewrite (H x) by now left.
  apply IH. intros y Hy. apply H. now right.
Qed.

Lemma leaf_of_survives e : survives e = false -> leaf_of e = [].
Proof.
  unfold survives, leaf_of. destruct (file_excluded (fst e)); [reflexivity|].
  now destruct (open_read (snd e)).
Qed.

(** C9, as stated, fails.  [locked] is a subdirectory of the root, its name
    is not excluded, and the run completes; but [locked] cannot be listed,
    [os.walk] yields no step for it, and the tree has no node for it. *)
Lemma C9_counterexample :
  keep_dir (lit "locked") = true
  /\ fs_at unlistable_dir_repo [lit "locked"]
     = Some (FsDir false [(lit "c.txt", text_file "x")])
  /\ build (Some unlistable_dir_repo)
     = inr (JObj [(lit "b.txt", JStr (lit "hi"))])
  /\ ~ (forall t,
          build (Some unlistable_dir_repo) = inr t ->
          exists items, json_at t [lit "locked"] = Some (JObj items)).
Proof.
  split; [reflexivity|]. split; [reflexivity|]. split; [reflexivity|].
  intros H. destruct (H _ eq_refl) as [items Hitems].
  vm_compute in Hitems. discriminate.
Qed.

(** C9, amended: every directory the walk enters, so every subdirectory of
    the root with a name that is not excluded that can be listed, has an
    object in the tree under its name, even when it contains no surviving
    files: when none of its files survives and all its subdirectories are
    excluded, in particular when it is empty, the object is the empty
    object, which is written as [{}] at any depth.  A subdirectory that
    cannot be listed (or is a symbolic link to a directory) has no node in
    the tree, and nothing below it has one. *)
Theorem C9_walked_directory_gets_object
  (top : fsnode) (t : json) (dir : list pystr) (name : pystr) :
  well_formed top = true ->
  build (Some top) = inr t ->
  walked top dir = true ->
  keep_dir name = true ->
  (forall sub,
      fs_at top (dir ++ [name]) = Some (FsDir true sub) ->
      exists items,
        json_at t (dir ++ [name]) = Some (JObj items)
        /\ (sub = [] -> items = [])
        /\ ((forall e, In e sub ->
               (is_dir (snd e) = false /\ survives e = false)
               \/ (is_dir (snd e) = true /\ keep_dir (fst e) = false)) ->
            items = []))
  /\ (forall sub rest,
        fs_at top (dir ++ [name]) = Some (FsDir false sub) ->
        json_at t (dir ++ name :: rest) = None)
  /\ (forall level, iterencode level (JObj []) = lit "{}").
Proof.
  intros Hwf Hb Hwalk Hkeep.
  apply build_inr in Hb; [|assumption]. subst t.
  split; [|split; [|reflexivity]].
  - intros sub Hat. exists (tree_of (FsDir true sub)).
    assert (Hfiltered :
              (forall e, In e sub ->
                 (is_dir (snd e) = false /\ survives e = false)
                 \/ (is_dir (snd e) = true /\ keep_dir (fst e) = false)) ->
              tree_of (FsDir true sub) = []).
    { intros Hnone. rewrite tree_of_eq.
      rewrite (flat_map_nil leaf_of), (flat_map_nil dir_object);
        [reflexivity | |].
      - intros e He. unfold dir_object.
        destruct (Hnone e He) as [[Hd _] | [_ Hk]].
        + destruct (snd e); [reflexivity | discriminate].
        + rewrite Hk. now destruct (snd e) as [r dt|[|] es].
      - intros e He. apply nondirs_In in He as [He Hd].
        destruct (Hnone e He) as [[_ Hs] | [Hd' _]]; [|congruence].
        now apply leaf_of_survives. }
    split; [|split].
    + rewrite (tree_at_entry dir top name _ Hwf Hat), Hwalk.
      cbn [node_of]. now rewrite Hkeep.
    + intros ->. reflexivity.
    + exact Hfiltered.
  - intros sub rest Hat.
    replace (dir ++ name :: rest) with ((dir ++ [name]) ++ rest)
      by (now rewrite <- app_assoc).
    rewrite json_at_app, (tree_at_entry dir top name _ Hwf Hat).
    cbn [node_of]. now destruct (walked top dir).
Qed.

Lemma C9_walked_directory_witness :
  (exists items,
      json_at (JObj [(lit "foo.log", JStr (lit "z")); (lit "docs", JObj [])])
        ([] ++ [lit "docs"]) = Some (JObj items)
      /\ (forall e,
             In e [(lit "app.js", text_file "x");
                   (lit ".DS_Store", text_file "y")] ->
             (is_dir (snd e) = false /\ survives e = false)
             \/ (is_dir (snd e) = true /\ keep_dir (fst e) = false))
      /\ items = [])
  /\ json_at (JObj [(lit "b.txt", JStr (lit "hi"))])
       ([] ++ lit "locked" :: [lit "c.txt"]) = None.
Proof.
  split.
  - destruct (C9_walked_directory_gets_object
                filtered_repo
                (JObj [(lit "foo.log", JStr (lit "z")); (lit "docs", JObj [])])
                [] (lit "docs") eq_refl eq_refl eq_refl eq_refl)
      as [Hobj _].
    destruct (Hobj [(lit "app.js", text_file "x");
                    (lit ".DS_Store", text_file "y")] eq_refl)
      as [items [Hat [_ Hnone]]].
    assert (Hall : forall e,
               In e [(lit "app.js", text_file "x");
                     (lit ".DS_Store", text_file "y")] ->
               (is_dir (snd e) = false /\ survives e = false)
               \/ (is_dir (snd e) = true /\ keep_dir (fst e) = false)).
    { intros e [<- | [<- | []]]; left; split; reflexivity. }
    exists items. split; [exact Hat|]. split; [exact Hall|]. exact (Hnone Hall).
  - destruct (C9_walked_directory_gets_object
                unlistable_dir_repo (JObj [(lit "b.txt", JStr (lit "hi"))])
                [] (lit "locked") eq_refl eq_refl eq_refl eq_refl)
      as [_ [Hnone _]].
    exact (Hnone [(lit "c.txt", text_file "x")] [lit "c.txt"] eq_refl).
Defined.

(** * Further properties of [repo_to_json.py] *)

(** ** The outcome of a run *)



(** ** Reading back what was written *)

Lemma byte_of_N_to_N (c : N) : c < 256 -> Byte.to_N (byte_of_N c) = c.
Proof.
  intros Hc. unfold byte_of_N.
  destruct (Byte.of_N c) as [b|] eqn:E.
  - now apply Byte.to_of_N.
  - apply Byte.of_N_None_iff in E. lia.
Qed.

(** ASCII bytes decode to themselves. *)
Lemma utf8_decode_ascii (bs : list byte) :
  Forall (fun b => Byte.to_N b < 128) bs ->
  utf8_decode bs = Some (List.map Byte.to_N bs).
Proof.
  induction 1 as [|b tl Hb _ IH]; [reflexivity|].
  cbn [utf8_decode List.map]. apply N.ltb_lt in Hb. now rewrite Hb, IH.
Qed.

Lemma utf8_decode_encoded_ascii (s : pystr) :
  Forall (fun c => c < 128) s ->
  utf8_decode (List.map byte_of_N s) = Some s.
Proof.
  intros Hs. rewrite utf8_decode_ascii.
  - f_equal. rewrite map_map. rewrite <- (map_id s) at 2.
    apply map_ext_in. intros c Hc. apply byte_of_N_to_N.
    rewrite Forall_forall in Hs. specialize (Hs c Hc). lia.
  - apply Forall_map. eapply Forall_impl; [|exact Hs].
    intros c Hc. cbv beta in *. rewrite byte_of_N_to_N; lia.
Qed.

Lemma json_dumps_no_cr (o : json) : ~ In 13 (json_dumps o).
Proof.
  intros Hin. pose proof (iterencode_text o 0) as Htext.
  rewrite Forall_forall in Htext. specialize (Htext 13 Hin).
  destruct Htext as [H | [H _]]; [discriminate | lia].
Qed.

(** A run that ends with exit status 0 built a tree and left at
    [output_file] a regular file whose bytes decode, as strict UTF-8, to
    the JSON text of that tree; read the way line 31 reads files, a readable
    output file gives that text back unchanged. *)
Theorem output_file_reads_back
  (fs : fsnode) (repo_path output_file : list pystr) :
  exit_code (main fs repo_path output_file) = 0 ->
  exists t r data,
    build (fs_at fs repo_path) = inr t
    /\ fs_at (final_fs (main fs repo_path output_file)) output_file
       = Some (FsFile r data)
    /\ utf8_decode data = Some (json_dumps t)
    /\ open_read (FsFile true data) = ReadText (json_dumps t).
Proof.
  rewrite main_spec.
  destruct (build (fs_at fs repo_path)) as [e|t]; [discriminate|].
  destruct (fs_write fs output_file _) as [written|] eqn:Hw; [|discriminate].
  intros _. cbn [final_fs].
  destruct (fs_write_at _ _ _ _ Hw) as [r Hr].
  assert (Hdec : utf8_decode (List.map byte_of_N (json_dumps t))
                 = Some (json_dumps t))
    by apply utf8_decode_encoded_ascii, json_dumps_ascii.
  exists t, r, (List.map byte_of_N (json_dumps t)).
  repeat split; try assumption.
  cbn [open_read]. rewrite Hdec.
  now rewrite universal_newlines_id by apply json_dumps_no_cr.
Qed.

Lemma output_file_reads_back_witness :
  exists t r data,
    build (fs_at (host scenario_repo) [lit "repo"]) = inr t
    /\ fs_at (final_fs (main (host scenario_repo) [lit "repo"] [lit "out.json"]))
         [lit "out.json"]
       = Some (FsFile r data)
    /\ utf8_decode data = Some (json_dumps t)
    /\ open_read (FsFile true data) = ReadText (json_dumps t).
Proof.
  apply (output_file_reads_back
           (host scenario_repo) [lit "repo"] [lit "out.json"]).
  reflexivity.
Defined.

(** An ASCII file without carriage returns is reproduced byte for byte:
    its leaf holds exactly the bytes of the file. *)
Theorem ascii_file_is_verbatim
  (top : fsnode) (t : json) (dir : list pystr) (file : pystr)
  (data : list byte) :
  well_formed top = true ->
  build (Some top) = inr t ->
  walked top dir = true ->
  fs_at top (dir ++ [file]) = Some (FsFile true data) ->
  file_excluded file = false ->
  Forall (fun b => Byte.to_N b < 128 /\ Byte.to_N b <> 13) data ->
  json_at t (dir ++ [file]) = Some (JStr (List.map Byte.to_N data)).
Proof.
  intros Hwf Hb Hwalk Hat Hname Hdata.
  apply build_inr in Hb; [|assumption]. subst t.
  rewrite (tree_at_entry dir top file _ Hwf Hat), Hwalk.
  cbn [node_of open_read]. rewrite Hname, utf8_decode_ascii.
  - rewrite universal_newlines_id; [reflexivity|].
    intros Hin. apply in_map_iff in Hin as [b [Hb Hin]].
    rewrite Forall_forall in Hdata. now destruct (Hdata b Hin).
  - eapply Forall_impl; [|exact Hdata]. now intros b [H _].
Qed.

Lemma ascii_file_is_verbatim_witness :
  json_at
    (JObj [(lit "readme.md", JStr (lit "hi"));
           (lit "src", JObj [(lit "main.txt", JStr (lit "hello"))])])
    ([lit "src"] ++ [lit "main.txt"])
  = Some (JStr (List.map Byte.to_N (ascii_bytes "hello"))).
Proof.
  apply (ascii_file_is_verbatim
           scenario_repo
           (JObj [(lit "readme.md", JStr (lit "hi"));
                  (lit "src", JObj [(lit "main.txt", JStr (lit "hello"))])])
           [lit "src"] (lit "main.txt") (ascii_bytes "hello"));
    try reflexivity.
  repeat constructor; cbn; lia.
Defined.

(** ** The tree is a tree of dicts *)

Lemma dict_ok_obj items :
  dict_ok (JObj items) = true
  <-> NoDup (keys items) /\ Forall (fun kv => dict_ok (snd kv) = true) items.
Proof.
  cbn [dict_ok]. rewrite andb_true_iff, names_unique_NoDup, forallb_forall.
  now rewrite Forall_forall.
Qed.

Lemma keys_assoc_set {V} (items : list (pystr * V)) k v k' :
  In k' (keys (assoc_set items k v)) -> In k' (keys items) \/ k' = k.
Proof.
  induction items as [|[k0 v0] tl IH]; cbn.
  - intros [<- | []]. now right.
  - destruct (str_eqb k k0); cbn; [tauto|].
    intros [H | H]; [tauto|]. destruct (IH H); tauto.
Qed.

Lemma NoDup_assoc_set {V} (items : list (pystr * V)) k v :
  NoDup (keys items) -> NoDup (keys (assoc_set items k v)).
Proof.
  induction items as [|[k0 v0] tl IH]; cbn.
  - intros _. repeat constructor. intros [].
  - intros H. inversion H as [|? ? Hk0 Htl]; subst.
    destruct (str_eqb k k0) eqn:E; cbn; [now constructor|].
    constructor; [|now apply IH].
    intros Hin. apply keys_assoc_set in Hin as [Hin | ->]; [tauto|].
    now rewrite str_eqb_refl in E.
Qed.

Lemma Forall_assoc_set {V} (P : V -> Prop) (items : list (pystr * V)) k v :
  Forall (fun kv => P (snd kv)) items -> P v ->
  Forall (fun kv => P (snd kv)) (assoc_set items k v).
Proof.
  intros Hitems Hv. induction Hitems as [|[k0 v0] tl H0 Htl IH]; cbn.
  - now repeat constructor.
  - destruct (str_eqb k k0); constructor; assumption.
Qed.

Lemma dict_ok_set items k v :
  dict_ok (JObj items) = true -> dict_ok v = true ->
  dict_ok (JObj (dict_set items k v)) = true.
Proof.
  rewrite !dict_ok_obj. intros [Hnd Hall] Hv. split.
  - now apply NoDup_assoc_set.
  - now apply (Forall_assoc_set (fun v => dict_ok v = true)).
Qed.

Lemma dict_ok_setdefault items k :
  dict_ok (JObj items) = true -> dict_ok (setdefault_value items k) = true.
Proof.
  intros H. unfold setdefault_value.
  destruct (dict_get items k) as [v|] eqn:E; [|reflexivity].
  apply dict_ok_obj in H as [_ Hall]. rewrite Forall_forall in Hall.
  apply assoc_get_In in E. exact (Hall _ E).
Qed.

Lemma for_each_invariant {A S} (P : S -> Prop) (body : S -> A -> result S)
  (xs : list A) :
  (forall s x s', P s -> body s x = inr s' -> P s') ->
  forall s s', P s -> for_each body xs s = inr s' -> P s'.
Proof.
  intros Hbody. induction xs as [|x xs IH]; intros s s' Hs Hrun.
  - injection Hrun as <-. exact Hs.
  - cbn [for_each] in Hrun. apply bind_inr in Hrun as [s1 [H1 Hrest]].
    eapply IH; [|exact Hrest]. eapply Hbody; eassumption.
Qed.

Lemma visit_file_dict_ok lvl f lvl' :
  dict_ok lvl = true -> visit_file lvl f = inr lvl' -> dict_ok lvl' = true.
Proof.
  intros Hok. unfold visit_file.
  destruct (file_excluded (fst f)); [now intros [= <-]|].
  destruct (open_read (snd f)) as [content| |];
    [|now intros [= <-] | discriminate].
  destruct lvl as [s|items]; [discriminate|].
  intros [= <-]. now apply dict_ok_set.
Qed.

Lemma with_level_dict_ok parts (body : json -> result json) :
  (forall l l', dict_ok l = true -> body l = inr l' -> dict_ok l' = true) ->
  forall node node',
    dict_ok node = true ->
    with_level parts body node = inr node' ->
    dict_ok node' = true.
Proof.
  intros Hbody. induction parts as [|p ps IH]; intros node node' Hok Hrun.
  - eapply Hbody; eassumption.
  - destruct node as [s|items]; [discriminate|]. cbn [with_level] in Hrun.
    apply bind_inr in Hrun as [child [Hchild Hret]]. injection Hret as <-.
    apply dict_ok_set; [assumption|].
    eapply IH; [|exact Hchild]. now apply dict_ok_setdefault.
Qed.

(** Whatever the filesystem, a traversal that completes leaves a tree in
    which no object binds a key twice, at any depth: the document written
    has no duplicate member names. *)
Theorem built_tree_has_unique_keys (repo : option fsnode) (t : json) :
  build repo = inr t -> dict_ok t = true.
Proof.
  unfold build, run_walk. intros Hrun.
  apply (for_each_invariant (fun s => dict_ok s = true) visit_dir _)
    with (s := JObj []) (3 := Hrun); [|reflexivity].
  intros s x s' Hs. unfold visit_dir.
  apply with_level_dict_ok; [|exact Hs].
  intros l l' Hl Hfiles. unfold visit_files in Hfiles.
  apply (for_each_invariant (fun s => dict_ok s = true) visit_file _)
    with (s := l) (3 := Hfiles); [|exact Hl].
  intros a f a'. apply visit_file_dict_ok.
Qed.

Lemma built_tree_has_unique_keys_witness :
  dict_ok (JObj [(lit "readme.md", JStr (lit "hi"));
                 (lit "src", JObj [(lit "main.txt", JStr (lit "hello"))])])
  = true.
Proof.
  apply (built_tree_has_unique_keys (Some scenario_repo)). reflexivity.
Defined.

(** ** Where the nodes of the tree come from *)

Lemma tree_leaf_origin p :
  forall top s,
    well_formed top = true ->
    json_at (JObj (tree_of top)) p = Some (JStr s) ->
    exists dir file data s0,
      p = dir ++ [file]
      /\ walked top dir = true
      /\ fs_at top p = Some (FsFile true data)
      /\ file_excluded file = false
      /\ utf8_decode data = Some s0
      /\ s = universal_newlines s0.
Proof.
  induction p as [|k rest IH]; intros top s Hwf Hat; [discriminate|].
  destruct top as [r d|l es]; [discriminate|].
  rewrite tree_of_step in Hat by assumption.
  destruct l; [|discriminate].
  destruct (fs_get es k) as [n|] eqn:Hget; [|discriminate].
  destruct (node_of k n) as [v|] eqn:Hnode; [|discriminate].
  destruct n as [r d|[|] es']; cbn [node_of] in Hnode.
  - destruct (file_excluded k) eqn:Hname; [discriminate|].
    destruct r; cbn [open_read] in Hnode; [|discriminate].
    destruct (utf8_decode d) as [s0|] eqn:Hdec; [|discriminate].
    injection Hnode as <-.
    destruct rest as [|k' rest]; [|discriminate]. injection Hat as <-.
    exists [], k, d, s0. cbn [app walked fs_at]. rewrite Hget.
    repeat split; auto.
  - destruct (keep_dir k) eqn:Hkeep; [|discriminate]. injection Hnode as <-.
    assert (Hc : well_formed (FsDir true es') = true)
      by (eapply well_formed_child; eauto).
    destruct (IH _ _ Hc Hat)
      as [dir [file [data [s0 [Hp [Hw [Hf [Hn [Hd Hs]]]]]]]]].
    exists (k :: dir), file, data, s0. cbn [app walked fs_at].
    rewrite Hget, Hkeep, Hw, <- Hp. cbn [andb]. repeat split; auto.
  - discriminate.
Qed.

Lemma tree_object_origin p :
  forall top items,
    well_formed top = true ->
    p <> [] ->
    json_at (JObj (tree_of top)) p = Some (JObj items) ->
    walked top p = true
    /\ exists es, fs_at top p = Some (FsDir true es).
Proof.
  induction p as [|k rest IH]; intros top items Hwf Hne Hat; [now elim Hne|].
  destruct top as [r d|l es]; [discriminate|].
  rewrite tree_of_step in Hat by assumption.
  destruct l; [|discriminate].
  destruct (fs_get es k) as [n|] eqn:Hget; [|discriminate].
  destruct (node_of k n) as [v|] eqn:Hnode; [|discriminate].
  destruct n as [r d|[|] es']; cbn [node_of] in Hnode.
  - destruct (file_excluded k); [discriminate|].
    destruct (open_read (FsFile r d)); try discriminate.
    injection Hnode as <-. destruct rest; discriminate.
  - destruct (keep_dir k) eqn:Hkeep; [|discriminate]. injection Hnode as <-.
    cbn [walked fs_at]. rewrite Hget, Hkeep. cbn [andb].
    destruct rest as [|k' rest]; [split; [reflexivity | now exists es']|].
    assert (Hc : well_formed (FsDir true es') = true)
      by (eapply well_formed_child; eauto).
    apply (IH _ items Hc); [discriminate | exact Hat].
  - discriminate.
Qed.

(** The tree invents nothing.  A leaf of the tree stands at the path of a
    readable regular file, in a directory the walk enters, whose name is not
    excluded and whose bytes decode as UTF-8, and it holds the text of that
    file with line endings translated.  An object below the root stands at
    the path of a directory the walk enters. *)
Theorem tree_nodes_mirror_filesystem
  (top : fsnode) (t : json) (p : list pystr) :
  well_formed top = true ->
  build (Some top) = inr t ->
  (forall s,
      json_at t p = Some (JStr s) ->
      exists dir file data s0,
        p = dir ++ [file]
        /\ walked top dir = true
        /\ fs_at top p = Some (FsFile true data)
        /\ file_excluded file = false
        /\ utf8_decode data = Some s0
        /\ s = universal_newlines s0)
  /\ (forall items,
        p <> [] ->
        json_at t p = Some (JObj items) ->
        walked top p = true
        /\ exists es, fs_at top p = Some (FsDir true es)).
Proof.
  intros Hwf Hb. apply build_inr in Hb; [|assumption]. subst t. split.
  - intros s. now apply tree_leaf_origin.
  - intros items. now apply tree_object_origin.
Qed.

Lemma tree_nodes_mirror_filesystem_witness :
  exists dir file data s0,
    [lit "src"; lit "main.txt"] = dir ++ [file]
    /\ walked scenario_repo dir = true
    /\ fs_at scenario_repo [lit "src"; lit "main.txt"]
       = Some (FsFile true data)
    /\ file_excluded file = false
    /\ utf8_decode data = Some s0
    /\ lit "hello" = universal_newlines s0.
Proof.
  apply (proj1 (tree_nodes_mirror_filesystem
                  scenario_repo
                  (JObj [(lit "readme.md", JStr (lit "hi"));
                         (lit "src",
                          JObj [(lit "main.txt", JStr (lit "hello"))])])
                  [lit "src"; lit "main.txt"] eq_refl eq_refl)
               (lit "hello")).
  reflexivity.
Defined.

(** ** Line endings *)

Lemma universal_newlines_no_cr_bounded n :
  forall s, (List.length s <= n)%nat -> ~ In 13 (universal_newlines s).
Proof.
  induction n as [|n IH]; intros s Hlen.
  - destruct s; [intros [] | cbn in Hlen; lia].
  - destruct s as [|c rest]; [intros []|]. cbn in Hlen.
    cbn [universal_newlines]. destruct (N.eqb_spec c 13) as [->|Hc].
    + destruct rest as [|c' rest']; [cbn; intuition discriminate|].
      cbn in Hlen. destruct (c' =? 10).
      * intros [H | H]; [discriminate|]. revert H. apply IH. lia.
      * intros [H | H]; [discriminate|]. revert H. apply IH. cbn. lia.
    + intros [H | H]; [congruence|]. revert H. apply IH. lia.
Qed.

Lemma universal_newlines_no_cr s : ~ In 13 (universal_newlines s).
Proof. now apply (universal_newlines_no_cr_bounded (List.length s)). Qed.

(** No leaf of the tree contains a carriage return, whatever the files
    hold. *)
Theorem leaves_have_no_carriage_return
  (top : fsnode) (t : json) (p : list pystr) (s : pystr) :
  well_formed top = true ->
  build (Some top) = inr t ->
  json_at t p = Some (JStr s) ->
  ~ In 13 s.
Proof.
  intros Hwf Hb Hat. apply build_inr in Hb; [|assumption]. subst t.
  destruct (tree_leaf_origin p top s Hwf Hat)
    as [dir [file [data [s0 [_ [_ [_ [_ [_ ->]]]]]]]]].
  apply universal_newlines_no_cr.
Qed.

Lemma leaves_have_no_carriage_return_witness :
  ~ In 13 [120; 10; 121].
Proof.
  apply (leaves_have_no_carriage_return
           crlf_repo (JObj [(lit "a.txt", JStr [120; 10; 121])])
           [lit "a.txt"] [120; 10; 121]);
    reflexivity.
Defined.

(** ** The two exclusion rules do not overlap *)

Lemma excluded_dir_name_not_excluded_file name :
  In name excluded_dirs -> file_excluded name = false.
Proof.
  intros H. repeat (destruct H as [<- | H]; [reflexivity|]). destruct H.
Qed.

(** The rule for directories applies to directories only and the rule for
    files to files only.  A regular file named like an excluded directory
    (a file called [build], say) gets its leaf; a directory whose name the
    file rule would skip (a directory called [vendor.js], say) is entered
    and gets its object. *)
Theorem exclusion_rules_apply_by_kind
  (top : fsnode) (t : json) (dir : list pystr) (name : pystr) :
  well_formed top = true ->
  build (Some top) = inr t ->
  walked top dir = true ->
  (In name excluded_dirs -> file_excluded name = false)
  /\ (file_excluded name = true -> keep_dir name = true)
  /\ (forall data s,
        In name excluded_dirs ->
        fs_at top (dir ++ [name]) = Some (FsFile true data) ->
        utf8_decode data = Some s ->
        json_at t (dir ++ [name]) = Some (JStr (universal_newlines s)))
  /\ (forall sub,
        file_excluded name = true ->
        fs_at top (dir ++ [name]) = Some (FsDir true sub) ->
        exists items, json_at t (dir ++ [name]) = Some (JObj items)).
Proof.
  intros Hwf Hb Hwalk. apply build_inr in Hb; [|assumption]. subst t.
  assert (Hfile : file_excluded name = true -> keep_dir name = true).
  { intros Hex. destruct (keep_dir name) eqn:Hk; [reflexivity|].
    apply keep_dir_false_iff, excluded_dir_name_not_excluded_file in Hk.
    congruence. }
  split; [apply excluded_dir_name_not_excluded_file|].
  split; [exact Hfile|]. split.
  - intros data s Hname Hat Hdec.
    rewrite (tree_at_entry dir top name _ Hwf Hat), Hwalk.
    cbn [node_of open_read].
    now rewrite (excluded_dir_name_not_excluded_file name Hname), Hdec.
  - intros sub Hname Hat. exists (tree_of (FsDir true sub)).
    rewrite (tree_at_entry dir top name _ Hwf Hat), Hwalk.
    cbn [node_of]. now rewrite (Hfile Hname).
Qed.

Lemma exclusion_rules_apply_by_kind_witness :
  json_at
    (JObj [(lit "build", JStr (lit "x"));
           (lit "vendor.js", JObj [(lit "a.txt", JStr (lit "y"))])])
    ([] ++ [lit "build"])
  = Some (JStr (universal_newlines (lit "x")))
  /\ exists items,
      json_at
        (JObj [(lit "build", JStr (lit "x"));
               (lit "vendor.js", JObj [(lit "a.txt", JStr (lit "y"))])])
        ([] ++ [lit "vendor.js"])
      = Some (JObj items).
Proof.
  pose proof (exclusion_rules_apply_by_kind
                (FsDir true
                   [(lit "build", text_file "x");
                    (lit "vendor.js",
                     FsDir true [(lit "a.txt", text_file "y")])])
                (JObj [(lit "build", JStr (lit "x"));
                       (lit "vendor.js", JObj [(lit "a.txt", JStr (lit "y"))])])
                [] (lit "build") eq_refl eq_refl eq_refl) as [_ [_ [Hf _]]].
  pose proof (exclusion_rules_apply_by_kind
                (FsDir true
                   [(lit "build", text_file "x");
                    (lit "vendor.js",
                     FsDir true [(lit "a.txt", text_file "y")])])
                (JObj [(lit "build", JStr (lit "x"));
                       (lit "vendor.js", JObj [(lit "a.txt", JStr (lit "y"))])])
                [] (lit "vendor.js") eq_refl eq_refl eq_refl) as [_ [_ [_ Hd]]].
  split.
  - apply (Hf (ascii_bytes "x") (lit "x")); [|reflexivity|reflexivity].
    right. right. right. left. reflexivity.
  - apply (Hd [(lit "a.txt", text_file "y")]); reflexivity.
Defined.

(** ** Coming back to a level *)

(** Lines 17-22 find on a second visit what they created on the first:
    two steps for one relative path, one after the other, are one step with
    the files of both. *)
Theorem visiting_a_level_twice_merges
  (repo_structure : json) (rel : list pystr)
  (files1 files2 : list (pystr * fsnode)) :
  run_walk [(rel, files1); (rel, files2)] repo_structure
  = visit_dir repo_structure (rel, files1 ++ files2).
Proof.
  unfold run_walk, visit_dir. cbn [for_each fst snd].
  rewrite (bind_ext _ _ (with_level rel (visit_files files2)))
    by (intros a; apply bind_ret_r).
  rewrite with_level_seq. apply with_level_ext. intros l.
  unfold visit_files. now rewrite for_each_app.
Qed.

(** ** The traversal as one recursive pass *)

(** On a filesystem in which no directory holds a name twice, the loop
    over the walk with its insertions by path is one recursive pass.  It
    raises exactly when a file it opens (a file with a name that is not
    excluded, in a directory the walk enters) cannot be opened, and then
    the exception is [OSError]; otherwise it returns the tree in which the
    object of a directory lists the leaves of its surviving files, in the
    order of the listing, followed by the objects of the directories
    entered, in the order of the listing. *)
Theorem build_is_one_recursive_pass (top : fsnode) :
  well_formed top = true ->
  build (Some top)
  = (if opens_ok top then inr (JObj (tree_of top)) else inl OSError)
  /\ (forall es,
        tree_of (FsDir true es)
        = flat_map leaf_of (nondirs es) ++ flat_map dir_object es)
  /\ (forall es,
        opens_ok (FsDir true es)
        = forallb file_opens (nondirs es) && forallb dir_opens es).
Proof.
  intros Hwf. split; [|split; reflexivity].
  destruct top as [r d|[|] es].
  - reflexivity.
  - now apply build_well_formed.
  - now rewrite build_snapshot.
Qed.

Lemma build_is_one_recursive_pass_witness :
  build (Some scenario_repo)
  = (if opens_ok scenario_repo
     then inr (JObj (tree_of scenario_repo))
     else inl OSError).
Proof.
  apply (build_is_one_recursive_pass scenario_repo). reflexivity.
Defined.

(** ** Each directory once *)

Lemma os_walk_walked top :
  forall rel s,
    well_formed top = true ->
    In s (os_walk keep_dir rel top) ->
    exists d, fst s = rel ++ d /\ walked top d = true.
Proof.
  induction top as [r d | l entries IH] using fsnode_nested_ind;
    intros rel s Hwf Hin; [destruct Hin|].
  destruct l; [|destruct Hin].
  destruct Hin as [<- | Hin].
  - exists []. now rewrite app_nil_r.
  - apply in_flat_map in Hin as [[k c] [He Hin]]. cbn [fst snd] in Hin.
    destruct (is_dir c && keep_dir k) eqn:E; [|destruct Hin].
    apply andb_true_iff in E as [_ Hkeep].
    pose proof (well_formed_dir _ _ Hwf) as [Hnd Hch].
    rewrite Forall_forall in IH, Hch.
    destruct (IH (k, c) He (rel ++ [k]) s (Hch _ He) Hin) as [d [Hs Hw]].
    exists (k :: d). split; [now rewrite Hs, <- app_assoc|].
    cbn [walked]. rewrite Hkeep.
    now rewrite (assoc_get_unique entries k c Hnd He).
Qed.

Lemma os_walk_paths_NoDup top :
  forall rel,
    well_formed top = true ->
    NoDup (List.map fst (os_walk keep_dir rel top)).
Proof.
  induction top as [r d | l entries IH] using fsnode_nested_ind;
    intros rel Hwf; [constructor|].
  destruct l; [|constructor].
  pose proof (well_formed_dir _ _ Hwf) as [Hnd Hch].
  cbn [os_walk List.map fst]. constructor.
  - intros Hin. apply in_map_iff in Hin as [s [Hs Hin]].
    apply in_flat_map in Hin as [[k c] [_ Hin]]. cbn [fst snd] in Hin.
    destruct (is_dir c && keep_dir k); [|destruct Hin].
    destruct (os_walk_kept c (rel ++ [k]) s Hin) as [parts [Hparts _]].
    rewrite Hparts, <- app_assoc in Hs.
    apply (f_equal (@List.length pystr)) in Hs.
    rewrite length_app in Hs. cbn in Hs. lia.
  - clear Hwf. induction entries as [|[k c] tl IHtl]; [constructor|].
    inversion IH as [|? ? Hc Htl]; subst.
    inversion Hnd as [|? ? Hk Hndtl]; subst.
    inversion Hch as [|? ? Hwc Hchtl]; subst.
    cbn [flat_map fst snd] in *. rewrite map_app.
    apply NoDup_app.
    + destruct (is_dir c && keep_dir k); [now apply Hc | constructor].
    + now apply IHtl.
    + intros p Hp1 Hp2.
      apply in_map_iff in Hp1 as [s1 [Hs1 Hin1]].
      apply in_map_iff in Hp2 as [s2 [Hs2 Hin2]].
      destruct (is_dir c && keep_dir k); [|destruct Hin1].
      destruct (os_walk_kept c (rel ++ [k]) s1 Hin1) as [parts1 [Hp1 _]].
      apply in_flat_map in Hin2 as [[k' c'] [He' Hin2]].
      cbn [fst snd] in Hin2.
      destruct (is_dir c' && keep_dir k'); [|destruct Hin2].
      destruct (os_walk_kept c' (rel ++ [k']) s2 Hin2) as [parts2 [Hp2 _]].
      rewrite Hp1, <- app_assoc in Hs1. rewrite Hp2, <- app_assoc in Hs2.
      rewrite <- Hs2 in Hs1. apply app_inv_head in Hs1.
      injection Hs1 as Hkk _. subst k'.
      apply Hk. eapply keys_In; eauto.
Qed.

(** On a filesystem in which no directory holds a name twice, the walk
    yields exactly one step for every directory it can reach through
    directories that pass the filter of line 15 and can be listed, and no
    other step. *)
Theorem walk_visits_each_directory_once (top : fsnode) :
  well_formed top = true ->
  NoDup (List.map fst (os_walk keep_dir [] top))
  /\ (forall d,
        In d (List.map fst (os_walk keep_dir [] top))
        <-> walked top d = true).
Proof.
  intros Hwf. split; [now apply os_walk_paths_NoDup|].
  intros d. split.
  - intros Hin. apply in_map_iff in Hin as [s [Hs Hin]].
    destruct (os_walk_walked top [] s Hwf Hin) as [d' [Hd' Hw]].
    cbn [app] in Hd'. congruence.
  - intros Hw. destruct (walked_listable top d Hw) as [es Hes].
    apply in_map_iff. exists (d, nondirs es). split; [reflexivity|].
    exact (walked_step d top [] es Hw Hes).
Qed.

Lemma walk_visits_each_directory_once_witness :
  NoDup (List.map fst (os_walk keep_dir [] scenario_repo)).
Proof.
  apply (walk_visits_each_directory_once scenario_repo). reflexivity.
Defined.

(** ** Bytes that are never text *)

Lemma never_utf8_bounds b :
  never_utf8 b = true ->
  Byte.to_N b = 0xC0 \/ Byte.to_N b = 0xC1 \/ 0xF5 <= Byte.to_N b.
Proof.
  unfold never_utf8. cbv zeta.
  rewrite !orb_true_iff, !N.eqb_eq, N.leb_le. tauto.
Qed.

Lemma in_range_not_never b lo hi :
  (lo <=? Byte.to_N b) && (Byte.to_N b <=? hi) = true ->
  hi <= 0xBF ->
  never_utf8 b = false.
Proof.
  intros Hr Hhi. apply andb_true_iff in Hr as [_ Hle]. apply N.leb_le in Hle.
  destruct (never_utf8 b) eqn:E; [|reflexivity].
  apply never_utf8_bounds in E. lia.
Qed.

Lemma cont_not_never b : is_cont (Byte.to_N b) = true -> never_utf8 b = false.
Proof. intros H. apply (in_range_not_never b 0x80 0xBF); [exact H | lia]. Qed.

Lemma limits_le_BF (x0 : N) :
  (if x0 =? 0xED then 0x9F else 0xBF) <= 0xBF
  /\ (if x0 =? 0xF4 then 0x8F else 0xBF) <= 0xBF.
Proof. destruct (x0 =? 0xED), (x0 =? 0xF4); lia. Qed.

Lemma utf8_decode_never_bounded n :
  forall bs,
    (List.length bs <= n)%nat ->
    existsb never_utf8 bs = true ->
    utf8_decode bs = None.
Proof.
  induction n as [|n IH]; intros bs Hlen Hbad.
  - destruct bs; [discriminate | cbn in Hlen; lia].
  - destruct bs as [|b0 t0]; [discriminate|].
    cbn [List.length] in Hlen. cbn [existsb] in Hbad.
    cbn [utf8_decode]. cbv zeta.
    destruct (never_utf8 b0) eqn:Hb0.
    + apply never_utf8_bounds in Hb0.
      assert ((Byte.to_N b0 <? 0x80) = false) as -> by (apply N.ltb_ge; lia).
      assert ((0xC2 <=? Byte.to_N b0) && (Byte.to_N b0 <=? 0xDF) = false)
        as ->.
      { apply andb_false_iff. rewrite N.leb_gt, N.leb_gt. lia. }
      assert ((0xE0 <=? Byte.to_N b0) && (Byte.to_N b0 <=? 0xEF) = false)
        as ->.
      { apply andb_false_iff. rewrite N.leb_gt, N.leb_gt. lia. }
      assert ((0xF0 <=? Byte.to_N b0) && (Byte.to_N b0 <=? 0xF4) = false)
        as ->.
      { apply andb_false_iff. rewrite N.leb_gt, N.leb_gt. lia. }
      reflexivity.
    + cbn [orb] in Hbad.
      destruct (Byte.to_N b0 <? 0x80).
      { rewrite (IH t0) by (assumption || lia). reflexivity. }
      destruct ((0xC2 <=? Byte.to_N b0) && (Byte.to_N b0 <=? 0xDF)).
      { destruct t0 as [|b1 t1]; [reflexivity|].
        cbn [List.length existsb] in *.
        destruct (is_cont (Byte.to_N b1)) eqn:H1; [|reflexivity].
        rewrite (cont_not_never b1 H1) in Hbad. cbn [orb] in Hbad.
        rewrite (IH t1) by (assumption || lia). reflexivity. }
      destruct ((0xE0 <=? Byte.to_N b0) && (Byte.to_N b0 <=? 0xEF)).
      { destruct t0 as [|b1 [|b2 t2]]; try reflexivity.
        cbn [List.length existsb] in *.
        match goal with
        | |- (if ?c then _ else _) = None => destruct c eqn:Hc
        end; [|reflexivity].
        apply andb_true_iff in Hc as [H1 H2].
        rewrite (in_range_not_never b1 _ _ H1 (proj1 (limits_le_BF _))),
          (cont_not_never b2 H2) in Hbad.
        cbn [orb] in Hbad.
        rewrite (IH t2) by (assumption || lia). reflexivity. }
      destruct ((0xF0 <=? Byte.to_N b0) && (Byte.to_N b0 <=? 0xF4));
        [|reflexivity].
      destruct t0 as [|b1 [|b2 [|b3 t3]]]; try reflexivity.
      cbn [List.length existsb] in *.
      match goal with
      | |- (if ?c then _ else _) = None => destruct c eqn:Hc
      end; [|reflexivity].
      apply andb_true_iff in Hc as [Hc H3].
      apply andb_true_iff in Hc as [H1 H2].
      rewrite (in_range_not_never b1 _ _ H1 (proj2 (limits_le_BF _))),
        (cont_not_never b2 H2), (cont_not_never b3 H3) in Hbad.
      cbn [orb] in Hbad.
      rewrite (IH t3) by (assumption || lia). reflexivity.
Qed.

(** A file that holds one of the bytes 0xC0, 0xC1 or 0xF5 to 0xFF, at any
    place, never decodes: it is skipped without an error, whatever its name
    and whatever else it holds. *)
Theorem file_with_impossible_byte_is_skipped
  (lvl : json) (file : pystr) (data : list byte) :
  existsb never_utf8 data = true ->
  utf8_decode data = None
  /\ open_read (FsFile true data) = ReadDecodeError
  /\ visit_file lvl (file, FsFile true data) = inr lvl.
Proof.
  intros Hbad.
  assert (Hdec : utf8_decode data = None)
    by (now apply (utf8_decode_never_bounded (List.length data))).
  split; [exact Hdec|]. split.
  - cbn [open_read]. now rewrite Hdec.
  - now apply visit_file_undecodable.
Qed.

Lemma file_with_impossible_byte_witness :
  visit_file (JObj []) (lit "logo.png", FsFile true [x89; x50; xff; x47])
  = inr (JObj []).
Proof.
  apply (file_with_impossible_byte_is_skipped
           (JObj []) (lit "logo.png") [x89; x50; xff; x47]).
  reflexivity.
Defined.

(** ** A snapshot written into the repository *)

(** Creating a file in a directory adds it at the end of the listing. *)
Lemma fs_write_creates rp :
  forall fs l es name data,
    fs_at fs rp = Some (FsDir l es) ->
    fs_get es name = None ->
    exists fs',
      fs_write fs (rp ++ [name]) data = Some fs'
      /\ fs_at fs' rp = Some (FsDir l (es ++ [(name, FsFile true data)])).
Proof.
  induction rp as [|k rp IH]; intros fs l es name data Hat Hnew.
  - injection Hat as ->. cbn [app fs_write fs_at]. rewrite Hnew. eauto.
  - destruct fs as [r d|l0 es0]; [discriminate|]. cbn [fs_at] in Hat.
    destruct (fs_get es0 k) as [c|] eqn:Hget; [|discriminate].
    destruct (IH c l es name data Hat Hnew) as [c' [Hw Hc']].
    exists (FsDir l0 (fs_set es0 k c')). cbn [app fs_write fs_at].
    rewrite Hget, Hw. split; [reflexivity|].
    now rewrite assoc_get_set_same.
Qed.

Lemma names_unique_app_new es name (c : fsnode) :
  NoDup (keys es) -> fs_get es name = None -> NoDup (keys (es ++ [(name, c)])).
Proof.
  intros Hnd Hnew. unfold keys. rewrite map_app. apply NoDup_app.
  - exact Hnd.
  - repeat constructor. intros [].
  - intros k Hk [Hkn | []]. cbn in Hkn. subst k.
    apply in_map_iff in Hk as [[k' c'] [Hk' Hin]]. cbn in Hk'. subst k'.
    rewrite (assoc_get_unique es name c' Hnd Hin) in Hnew. discriminate.
Qed.

(** When [output_file] is a new file directly in the repository, with a
    name that is not excluded, a run that succeeds is followed by a run that
    succeeds too and whose tree has, under the name of the output file, a
    leaf holding the whole JSON text the first run wrote: each snapshot
    embeds the one before. *)
Theorem next_snapshot_embeds_previous_output
  (fs : fsnode) (repo_path : list pystr) (name : pystr)
  (es : list (pystr * fsnode)) (t1 : json) :
  fs_at fs repo_path = Some (FsDir true es) ->
  well_formed (FsDir true es) = true ->
  fs_get es name = None ->
  file_excluded name = false ->
  build (fs_at fs repo_path) = inr t1 ->
  let first := main fs repo_path (repo_path ++ [name]) in
  exit_code first = 0
  /\ exists t2,
      build (fs_at (final_fs first) repo_path) = inr t2
      /\ json_at t2 [name] = Some (JStr (json_dumps t1)).
Proof.
  intros Hroot Hwf Hnew Hname Hb first. subst first.
  set (data := List.map byte_of_N (json_dumps t1)).
  destruct (fs_write_creates repo_path fs true es name data Hroot Hnew)
    as [fs' [Hw Hat']].
  rewrite main_spec, Hb. fold data. rewrite Hw. cbn [exit_code final_fs].
  split; [reflexivity|]. rewrite Hat'.
  set (top' := FsDir true (es ++ [(name, FsFile true data)])).
  assert (Hdec : utf8_decode data = Some (json_dumps t1))
    by apply utf8_decode_encoded_ascii, json_dumps_ascii.
  assert (Hwf' : well_formed top' = true).
  { pose proof (well_formed_dir _ _ Hwf) as [Hnd Hch].
    cbn [well_formed top']. apply andb_true_iff. split.
    - apply names_unique_NoDup. now apply names_unique_app_new.
    - rewrite forallb_app. apply andb_true_iff. split; [|reflexivity].
      apply forallb_forall. now apply Forall_forall. }
  assert (Hok' : opens_ok top' = true).
  { rewrite Hroot, build_well_formed in Hb by assumption.
    destruct (opens_ok (FsDir true es)) eqn:Hok; [|discriminate].
    rewrite opens_ok_eq in Hok. apply andb_true_iff in Hok as [Hf Hd].
    unfold top'. rewrite opens_ok_eq. unfold nondirs in *.
    rewrite filter_app, !forallb_app, Hf, Hd. cbn [filter snd is_dir negb].
    cbn [forallb andb]. unfold file_opens, dir_opens.
    cbn [fst snd open_read]. now rewrite Hname, Hdec. }
  exists (JObj (tree_of top')). split; [now apply build_total|].
  assert (Hentry : fs_at top' ([] ++ [name]) = Some (FsFile true data)).
  { cbn [app fs_at top']. now rewrite assoc_get_last. }
  pose proof (tree_at_entry [] top' name _ Hwf' Hentry) as Hleaf.
  cbn [app] in Hleaf. rewrite Hleaf.
  cbn [walked top' node_of open_read]. rewrite Hname, Hdec.
  now rewrite universal_newlines_id by apply json_dumps_no_cr.
Qed.

Lemma next_snapshot_embeds_previous_output_witness :
  exit_code (main (host scenario_repo) [lit "repo"]
               ([lit "repo"] ++ [lit "out.json"])) = 0.
Proof.
  apply (next_snapshot_embeds_previous_output
           (host scenario_repo) [lit "repo"] (lit "out.json")
           [(lit "src", FsDir true [(lit "main.txt", text_file "hello")]);
            (lit ".git", FsDir true [(lit "config", FsFile false [xff; xfe])]);
            (lit "app.js", text_file "x");
            (lit "readme.md", text_file "hi")]
           (JObj [(lit "readme.md", JStr (lit "hi"));
                  (lit "src", JObj [(lit "main.txt", JStr (lit "hello"))])]));
    reflexivity.
Defined.

(** * Properties of [test_api_keys.py] *)

(** ** What is shown of a key *)

(** The line that announces the key shows its first five characters and,
    only when the key has more than nine, its last four: at most nine
    characters of the key.  A key of more than nine characters keeps
    everything between those hidden; a key of at most five characters is
    shown whole. *)
Theorem key_preview_shows_at_most_nine (api_key : pystr) :
  ((List.length api_key <= 5)%nat ->
   ApiKeys.key_preview api_key = api_key ++ lit "...")
  /\ ((List.length api_key <= 9)%nat ->
      ApiKeys.key_preview api_key = firstn 5 api_key ++ lit "...")
  /\ ((9 < List.length api_key)%nat ->
      exists hidden,
        api_key
        = firstn 5 api_key ++ hidden
          ++ skipn (List.length api_key - 4) api_key
        /\ List.length hidden = (List.length api_key - 9)%nat
        /\ ApiKeys.key_preview api_key
           = firstn 5 api_key ++ lit "..."
             ++ skipn (List.length api_key - 4) api_key).
Proof.
  unfold ApiKeys.key_preview.
  change (ApiKeys.text "...") with (lit "...").
  split; [|split].
  - intros Hlen. rewrite firstn_all2 by assumption.
    destruct (Nat.ltb_spec 9 (List.length api_key)); [lia|].
    now rewrite app_nil_r.
  - intros Hlen.
    destruct (Nat.ltb_spec 9 (List.length api_key)); [lia|].
    now rewrite app_nil_r.
  - intros Hlen.
    destruct (Nat.ltb_spec 9 (List.length api_key)); [|lia].
    exists (firstn (List.length api_key - 9) (skipn 5 api_key)).
    split; [|split; [|reflexivity]].
    + replace (skipn (List.length api_key - 4) api_key)
        with (skipn (List.length api_key - 9) (skipn 5 api_key)).
      * now rewrite !firstn_skipn.
      * rewrite skipn_skipn. f_equal. lia.
    + rewrite length_firstn, length_skipn. lia.
Qed.

(** ** Keys typed at the prompt *)

Lemma lstrip_spec s :
  exists pre,
    s = pre ++ ApiKeys.lstrip s
    /\ forallb ApiKeys.is_space pre = true
    /\ (forall c tl, ApiKeys.lstrip s = c :: tl -> ApiKeys.is_space c = false).
Proof.
  induction s as [|c s [pre [Hs [Hpre Hhead]]]].
  - exists []. repeat split. discriminate.
  - cbn [ApiKeys.lstrip]. destruct (ApiKeys.is_space c) eqn:Hc.
    + exists (c :: pre). cbn [app forallb]. rewrite Hc, Hpre.
      repeat split; [now f_equal | exact Hhead].
    + exists []. repeat split. now intros c' tl [= <- _].
Qed.

Lemma lstrip_blank s :
  forallb ApiKeys.is_space s = true -> ApiKeys.lstrip s = [].
Proof.
  induction s as [|c s IH]; [reflexivity|]. cbn [forallb ApiKeys.lstrip].
  intros H. apply andb_true_iff in H as [-> H]. now apply IH.
Qed.

Lemma lstrip_fixed s :
  (forall c tl, s = c :: tl -> ApiKeys.is_space c = false) ->
  ApiKeys.lstrip s = s.
Proof.
  destruct s as [|c tl]; [reflexivity|]. intros H. cbn [ApiKeys.lstrip].
  now rewrite (H c tl eq_refl).
Qed.

(** [strip] removes white space at both ends and nothing else: the string
    is white space, what [strip] returns, white space; what it returns
    neither starts nor ends with white space; a blank string gives the
    empty string; stripping again changes nothing. *)
Theorem strip_trims_both_ends (s : pystr) :
  (exists pre post,
      s = pre ++ ApiKeys.strip s ++ post
      /\ forallb ApiKeys.is_space pre = true
      /\ forallb ApiKeys.is_space post = true)
  /\ (forall c tl, ApiKeys.strip s = c :: tl -> ApiKeys.is_space c = false)
  /\ (forall init c,
        ApiKeys.strip s = init ++ [c] -> ApiKeys.is_space c = false)
  /\ (forallb ApiKeys.is_space s = true -> ApiKeys.strip s = [])
  /\ ApiKeys.strip (ApiKeys.strip s) = ApiKeys.strip s.
Proof.
  unfold ApiKeys.strip.
  destruct (lstrip_spec s) as [pre [Hs [Hpre Hhead]]].
  set (a := ApiKeys.lstrip s) in *.
  destruct (lstrip_spec (rev a)) as [pre2 [Ha [Hpre2 Hhead2]]].
  set (b := ApiKeys.lstrip (rev a)) in *.
  assert (Ha' : a = rev b ++ rev pre2).
  { rewrite <- rev_app_distr, <- Ha. now rewrite rev_involutive. }
  assert (Hlast : forall init c, rev b = init ++ [c] ->
                                 ApiKeys.is_space c = false).
  { intros init c Hb. apply (f_equal (@rev N)) in Hb.
    rewrite rev_involutive, rev_app_distr in Hb. cbn in Hb.
    now apply (Hhead2 c (rev init)). }
  assert (Hfirst : forall c tl, rev b = c :: tl -> ApiKeys.is_space c = false).
  { intros c tl Hb. apply (Hhead c (tl ++ rev pre2)).
    now rewrite Ha', Hb. }
  split; [|split; [|split; [|split]]].
  - exists pre, (rev pre2). split; [now rewrite <- Ha'|].
    split; [assumption|].
    rewrite forallb_forall in *. intros x Hx. apply Hpre2.
    now apply in_rev.
  - exact Hfirst.
  - exact Hlast.
  - intros Hblank. subst b a. now rewrite (lstrip_blank s Hblank).
  - rewrite (lstrip_fixed (rev b)) by exact Hfirst.
    rewrite rev_involutive.
    rewrite (lstrip_fixed b); [reflexivity|].
    intros c tl Hb. apply (Hlast (rev tl) c). now rewrite Hb.
Qed.

(** ** Running statements *)

Ltac fixed_line := vm_compute; reflexivity.

Lemma run_print line st :
  ApiKeys.has_surrogate line = false ->
  ApiKeys.print line st
  = ({| ApiKeys.stdout := ApiKeys.stdout st ++ line ++ [10];
        ApiKeys.requests := ApiKeys.requests st;
        ApiKeys.lines := ApiKeys.lines st |},
     inr tt).
Proof. intros H. unfold ApiKeys.print. now rewrite H. Qed.

Lemma bind_print {B} line (k : unit -> ApiKeys.script B) st :
  ApiKeys.has_surrogate line = false ->
  ApiKeys.script_bind (ApiKeys.print line) k st
  = k tt {| ApiKeys.stdout := ApiKeys.stdout st ++ line ++ [10];
            ApiKeys.requests := ApiKeys.requests st;
            ApiKeys.lines := ApiKeys.lines st |}.
Proof. intros H. unfold ApiKeys.script_bind. now rewrite run_print. Qed.

Lemma script_bind_assoc {A B C} (m : ApiKeys.script A)
  (f : A -> ApiKeys.script B) (g : B -> ApiKeys.script C) st :
  ApiKeys.script_bind (ApiKeys.script_bind m f) g st
  = ApiKeys.script_bind m (fun a => ApiKeys.script_bind (f a) g) st.
Proof.
  unfold ApiKeys.script_bind. destruct (m st) as [st' [e|a]]; reflexivity.
Qed.

Lemma bind_input_line {B} prompt (k : pystr -> ApiKeys.script B)
  st line rest :
  ApiKeys.lines st = line :: rest ->
  ApiKeys.script_bind (ApiKeys.input prompt) k st
  = k line {| ApiKeys.stdout := ApiKeys.stdout st ++ prompt;
              ApiKeys.requests := ApiKeys.requests st;
              ApiKeys.lines := rest |}.
Proof.
  intros H. unfold ApiKeys.script_bind, ApiKeys.input. now rewrite H.
Qed.

Lemma bind_input_eof {B} prompt (k : pystr -> ApiKeys.script B) st :
  ApiKeys.lines st = [] ->
  ApiKeys.script_bind (ApiKeys.input prompt) k st
  = ({| ApiKeys.stdout := ApiKeys.stdout st ++ prompt;
        ApiKeys.requests := ApiKeys.requests st;
        ApiKeys.lines := [] |},
     inl ApiKeys.EOFError).
Proof.
  intros H. unfold ApiKeys.script_bind, ApiKeys.input. now rewrite H.
Qed.

Lemma strip_blank s :
  forallb ApiKeys.is_space s = true -> ApiKeys.strip s = [].
Proof.
  intros H. unfold ApiKeys.strip. now rewrite (lstrip_blank s H).
Qed.

(** ** What can be printed *)

Lemma has_surrogate_app a b :
  ApiKeys.has_surrogate (a ++ b)
  = ApiKeys.has_surrogate a || ApiKeys.has_surrogate b.
Proof. apply existsb_app. Qed.

Lemma lit_no_surrogate s : ApiKeys.has_surrogate (lit s) = false.
Proof.
  unfold lit, ApiKeys.has_surrogate.
  induction (list_ascii_of_string s) as [|a l IH]; [reflexivity|].
  cbn [List.map existsb]. rewrite IH, orb_false_r.
  unfold ApiKeys.is_surrogate. pose proof (N_ascii_bounded a).
  apply andb_false_iff. left. apply N.leb_gt. lia.
Qed.

Lemma decimal_no_surrogate n : ApiKeys.has_surrogate (ApiKeys.decimal n) = false.
Proof. apply lit_no_surrogate. Qed.

Lemma space_no_surrogate c :
  ApiKeys.is_space c = true -> ApiKeys.is_surrogate c = false.
Proof.
  intros H. unfold ApiKeys.is_surrogate.
  destruct (N.leb_spec 0xD800 c) as [Hc|]; [|reflexivity].
  exfalso. unfold ApiKeys.is_space in H.
  repeat (apply orb_true_iff in H as [H|H]);
    rewrite ?andb_true_iff, ?N.leb_le, ?N.eqb_eq in H; lia.
Qed.

Lemma lstrip_surrogate s :
  ApiKeys.has_surrogate (ApiKeys.lstrip s) = ApiKeys.has_surrogate s.
Proof.
  induction s as [|c s IH]; [reflexivity|]. cbn [ApiKeys.lstrip].
  destruct (ApiKeys.is_space c) eqn:Hc; [|reflexivity].
  rewrite IH. unfold ApiKeys.has_surrogate. cbn [existsb].
  now rewrite (space_no_surrogate c Hc).
Qed.

Lemma rev_surrogate s :
  ApiKeys.has_surrogate (rev s) = ApiKeys.has_surrogate s.
Proof.
  induction s as [|c s IH]; [reflexivity|]. cbn [rev].
  rewrite has_surrogate_app, IH. unfold ApiKeys.has_surrogate.
  cbn [existsb]. now rewrite orb_false_r, orb_comm.
Qed.

Lemma strip_surrogate s :
  ApiKeys.has_surrogate (ApiKeys.strip s) = ApiKeys.has_surrogate s.
Proof.
  unfold ApiKeys.strip.
  now rewrite rev_surrogate, lstrip_surrogate, rev_surrogate, lstrip_surrogate.
Qed.

Lemma firstn_no_surrogate n s :
  ApiKeys.has_surrogate s = false ->
  ApiKeys.has_surrogate (firstn n s) = false.
Proof.
  intros H. rewrite <- (firstn_skipn n s), has_surrogate_app in H.
  now apply orb_false_iff in H.
Qed.

Lemma skipn_no_surrogate n s :
  ApiKeys.has_surrogate s = false ->
  ApiKeys.has_surrogate (skipn n s) = false.
Proof.
  intros H. rewrite <- (firstn_skipn n s), has_surrogate_app in H.
  now apply orb_false_iff in H.
Qed.

Lemma key_preview_no_surrogate key :
  ApiKeys.has_surrogate key = false ->
  ApiKeys.has_surrogate (ApiKeys.key_preview key) = false.
Proof.
  intros H. unfold ApiKeys.key_preview. rewrite !has_surrogate_app.
  rewrite (firstn_no_surrogate 5 key H).
  destruct (Nat.ltb 9 (List.length key));
    [now rewrite (skipn_no_surrogate _ key H) | reflexivity].
Qed.

(** The literals of the source can be printed: a line made of them and of
    other texts fails only for those. *)
Ltac literal_lines :=
  rewrite ?has_surrogate_app, ?decimal_no_surrogate;
  repeat match goal with
    | |- context [ApiKeys.has_surrogate (ApiKeys.text ?s)] =>
        let v := eval vm_compute in (ApiKeys.has_surrogate (ApiKeys.text s)) in
        change (ApiKeys.has_surrogate (ApiKeys.text s)) with v
    end;
  cbn [orb]; rewrite ?orb_false_r.

Lemma bind_eval {A B} (m : ApiKeys.py A) (k : A -> ApiKeys.script B) st :
  ApiKeys.script_bind (ApiKeys.eval m) k st
  = match m with
    | inl e => (st, inl e)
    | inr a => k a st
    end.
Proof. reflexivity. Qed.

Lemma bind_done {A B} (a : A) (k : A -> ApiKeys.script B) st :
  ApiKeys.script_bind (ApiKeys.done a) k st = k a st.
Proof. reflexivity. Qed.

Lemma report_error_false w status_code json st :
  snd (ApiKeys.report_error w status_code json st) = inr false.
Proof.
  unfold ApiKeys.report_error, ApiKeys.script_bind at 1, ApiKeys.try.
  assert (Hhttp : forall st',
    snd (ApiKeys.print (ApiKeys.text "❌ Error: HTTP "
                        ++ ApiKeys.decimal status_code) st') = inr tt).
  { intros st'. rewrite run_print; [reflexivity|]. literal_lines.
    reflexivity. }
  rewrite bind_eval.
  destruct (ApiKeys.response_json json) as [e|error_data].
  { specialize (Hhttp st). destruct (ApiKeys.print _ st) as [st' [e'|[]]];
      [discriminate | reflexivity]. }
  rewrite bind_eval.
  destruct (ApiKeys.error_message error_data) as [e|m].
  { specialize (Hhttp st). destruct (ApiKeys.print _ st) as [st' [e'|[]]];
      [discriminate | reflexivity]. }
  unfold ApiKeys.print at 1.
  destruct (ApiKeys.has_surrogate _); [|reflexivity].
  specialize (Hhttp st). destruct (ApiKeys.print _ st) as [st' [e'|[]]];
      [discriminate | reflexivity].
Qed.

Lemma report_exception_not_true w e st :
  snd (ApiKeys.report_exception w e st) <> inr true.
Proof.
  unfold ApiKeys.report_exception, ApiKeys.script_bind, ApiKeys.print.
  destruct (ApiKeys.has_surrogate _); discriminate.
Qed.

(** The [try] of a test function: the request, the judgement of the
    response, the handler of line 64. *)
Lemma attempt_true_iff w req
  (judge : N -> pystr + ApiKeys.pyval -> ApiKeys.script bool) st :
  snd (ApiKeys.try
         (ApiKeys.script_bind (ApiKeys.requests_post w req)
            (fun response => judge (fst response) (snd response)))
         (ApiKeys.report_exception w) st) = inr true
  <-> exists status_code json,
        ApiKeys.post w req = ApiKeys.PostResponse status_code json
        /\ snd (judge status_code json
                  {| ApiKeys.stdout := ApiKeys.stdout st;
                     ApiKeys.requests := ApiKeys.requests st ++ [req];
                     ApiKeys.lines := ApiKeys.lines st |}) = inr true.
Proof.
  unfold ApiKeys.try, ApiKeys.script_bind, ApiKeys.requests_post. cbv zeta.
  destruct (ApiKeys.post w req) as [message | status_code json].
  - split; [intros H; now apply report_exception_not_true in H|].
    intros (sc & j & H & _). discriminate.
  - cbn [fst snd].
    destruct (judge status_code json _) as [st' [e|b]] eqn:Hj.
    + split; [intros H; now apply report_exception_not_true in H|].
      intros (sc & j & [= <- <-] & H). rewrite Hj in H. discriminate.
    + cbn [snd]. split.
      * intros H. exists status_code, json. rewrite Hj. now split.
      * intros (sc & j & [= <- <-] & H). now rewrite Hj in H.
Qed.

Lemma judge_openai_true_iff w status_code json st :
  snd (ApiKeys.judge_openai w status_code json st) = inr true
  <-> status_code = 200
      /\ exists data content,
           json = inr data
           /\ ApiKeys.completion_content data = inr (ApiKeys.VStr content)
           /\ ApiKeys.has_surrogate (ApiKeys.strip content) = false.
Proof.
  unfold ApiKeys.judge_openai.
  rewrite bind_print by (literal_lines; reflexivity).
  destruct (N.eqb_spec status_code 200) as [-> | Hstatus].
  - rewrite bind_eval. destruct json as [message | data];
      cbn [ApiKeys.response_json].
    { split; [discriminate | intros [_ (d & c & H & _)]; discriminate]. }
    rewrite bind_eval.
    destruct (ApiKeys.completion_content data) as [e | content] eqn:Hc.
    { split; [discriminate|].
      intros [_ (d & c & [= <-] & H & _)]. congruence. }
    rewrite bind_eval.
    destruct content; cbn [ApiKeys.py_strip];
      try (split; [discriminate|];
           intros [_ (d & c & [= <-] & H & _)]; congruence).
    cbn [ApiKeys.format_value]. unfold ApiKeys.script_bind, ApiKeys.print.
    literal_lines.
    destruct (ApiKeys.has_surrogate (ApiKeys.strip s)) eqn:Hs; cbn [snd].
    + split; [discriminate|].
      intros [_ (d & c & [= <-] & H & Hp)].
      rewrite Hc in H. injection H as <-. congruence.
    + split; [|reflexivity]. intros _. split; [reflexivity|].
      now exists data, s.
  - split; [|intros [H _]; contradiction].
    intros H. rewrite report_error_false in H. discriminate.
Qed.

Lemma judge_perplexity_true_iff w status_code json st :
  snd (ApiKeys.judge_perplexity w status_code json st) = inr true
  <-> status_code = 200
      /\ exists data content,
           json = inr data
           /\ ApiKeys.completion_content data = inr (ApiKeys.VStr content)
           /\ ApiKeys.has_surrogate (ApiKeys.strip (firstn 50 content))
              = false.
Proof.
  unfold ApiKeys.judge_perplexity.
  rewrite bind_print by (literal_lines; reflexivity).
  destruct (N.eqb_spec status_code 200) as [-> | Hstatus].
  - rewrite bind_eval. destruct json as [message | data];
      cbn [ApiKeys.response_json].
    { split; [discriminate | intros [_ (d & c & H & _)]; discriminate]. }
    rewrite bind_eval.
    destruct (ApiKeys.completion_content data) as [e | content] eqn:Hc.
    { split; [discriminate|].
      intros [_ (d & c & [= <-] & H & _)]. congruence. }
    rewrite bind_eval.
    destruct content; cbn [ApiKeys.py_slice50];
      try (split; [discriminate|];
           intros [_ (d & c & [= <-] & H & _)]; congruence).
    rewrite bind_eval. cbn [ApiKeys.py_strip ApiKeys.format_value].
    unfold ApiKeys.script_bind, ApiKeys.print. literal_lines.
    destruct (ApiKeys.has_surrogate (ApiKeys.strip (firstn 50 s))) eqn:Hs;
      cbn [snd].
    + split; [discriminate|].
      intros [_ (d & c & [= <-] & H & Hp)].
      rewrite Hc in H. injection H as <-. congruence.
    + split; [|reflexivity]. intros _. split; [reflexivity|].
      now exists data, s.
  - split; [|intros [H _]; contradiction].
    intros H. rewrite report_error_false in H. discriminate.
Qed.

Lemma key_line_surrogate key :
  ApiKeys.has_surrogate (ApiKeys.text "🔑 Using key: " ++ ApiKeys.key_preview key)
  = ApiKeys.has_surrogate (ApiKeys.key_preview key).
Proof. rewrite has_surrogate_app. reflexivity. Qed.

Lemma test_openai_key_true_iff w api_key st :
  snd (ApiKeys.test_openai_key w api_key st) = inr true
  <-> api_key <> []
      /\ ApiKeys.has_surrogate (ApiKeys.key_preview api_key) = false
      /\ exists data content,
           ApiKeys.post w (ApiKeys.openai_request api_key)
           = ApiKeys.PostResponse 200 (inr data)
           /\ ApiKeys.completion_content data = inr (ApiKeys.VStr content)
           /\ ApiKeys.has_surrogate (ApiKeys.strip content) = false.
Proof.
  unfold ApiKeys.test_openai_key.
  rewrite !bind_print by fixed_line.
  destruct api_key as [|c key].
  { rewrite bind_print by fixed_line.
    split; [discriminate | intros [H _]; now elim H]. }
  set (api_key := c :: key).
  unfold ApiKeys.script_bind at 1, ApiKeys.print at 1.
  rewrite key_line_surrogate.
  destruct (ApiKeys.has_surrogate (ApiKeys.key_preview api_key)).
  { split; [discriminate | intros [_ [H _]]; discriminate]. }
  rewrite attempt_true_iff. split.
  - intros (sc & json & Hpost & Hj).
    apply judge_openai_true_iff in Hj as [-> (data & content & -> & Hc & Hp)].
    split; [discriminate|]. split; [reflexivity|]. now exists data, content.
  - intros [_ [_ (data & content & Hpost & Hc & Hp)]].
    exists 200, (inr data). split; [assumption|].
    apply judge_openai_true_iff. split; [reflexivity|].
    now exists data, content.
Qed.

Lemma test_perplexity_key_true_iff w api_key st :
  snd (ApiKeys.test_perplexity_key w api_key st) = inr true
  <-> api_key <> []
      /\ ApiKeys.has_surrogate (ApiKeys.key_preview api_key) = false
      /\ exists data content,
           ApiKeys.post w (ApiKeys.perplexity_request api_key)
           = ApiKeys.PostResponse 200 (inr data)
           /\ ApiKeys.completion_content data = inr (ApiKeys.VStr content)
           /\ ApiKeys.has_surrogate (ApiKeys.strip (firstn 50 content))
              = false.
Proof.
  unfold ApiKeys.test_perplexity_key.
  rewrite !bind_print by fixed_line.
  destruct api_key as [|c key].
  { rewrite bind_print by fixed_line.
    split; [discriminate | intros [H _]; now elim H]. }
  set (api_key := c :: key).
  unfold ApiKeys.script_bind at 1, ApiKeys.print at 1.
  rewrite key_line_surrogate.
  destruct (ApiKeys.has_surrogate (ApiKeys.key_preview api_key)).
  { split; [discriminate | intros [_ [H _]]; discriminate]. }
  rewrite attempt_true_iff. split.
  - intros (sc & json & Hpost & Hj).
    apply judge_perplexity_true_iff
      in Hj as [-> (data & content & -> & Hc & Hp)].
    split; [discriminate|]. split; [reflexivity|]. now exists data, content.
  - intros [_ [_ (data & content & Hpost & Hc & Hp)]].
    exists 200, (inr data). split; [assumption|].
    apply judge_perplexity_true_iff. split; [reflexivity|].
    now exists data, content.
Qed.

(** ** Exceptions that leave a test *)

Lemma py_bind_error {A B} (m : ApiKeys.py A) (k : A -> ApiKeys.py B) e :
  ApiKeys.py_bind m k = inl e ->
  m = inl e \/ exists a, m = inr a /\ k a = inl e.
Proof.
  destruct m as [e'|a]; cbn; intros H;
    [injection H as ->; now left | right; eauto].
Qed.

Lemma py_get_error v key default e :
  ApiKeys.py_get v key default = inl e -> ApiKeys.raised_by_operation e.
Proof.
  destruct v; cbn; try (intros [= <-]; (eexists _, _; reflexivity)).
  destruct (assoc_get items key); discriminate.
Qed.

Lemma py_index0_error v e :
  ApiKeys.py_index0 v = inl e -> ApiKeys.raised_by_operation e.
Proof.
  destruct v as [| | | |s|xs|]; cbn; try (intros [= <-]; (eexists _, _; reflexivity)).
  - destruct s; [intros [= <-]; (eexists _, _; reflexivity) | discriminate].
  - destruct xs; [intros [= <-]; (eexists _, _; reflexivity) | discriminate].
Qed.

Lemma py_slice50_error v e :
  ApiKeys.py_slice50 v = inl e -> ApiKeys.raised_by_operation e.
Proof. destruct v; cbn; try discriminate; intros [= <-]; (eexists _, _; reflexivity). Qed.

Lemma py_strip_error v e :
  ApiKeys.py_strip v = inl e -> ApiKeys.raised_by_operation e.
Proof. destruct v; cbn; try discriminate; intros [= <-]; (eexists _, _; reflexivity). Qed.

Lemma completion_content_error data e :
  ApiKeys.completion_content data = inl e -> ApiKeys.raised_by_operation e.
Proof.
  unfold ApiKeys.completion_content. intros H.
  apply py_bind_error in H as [H | (choices & _ & H)];
    [now apply py_get_error in H|].
  apply py_bind_error in H as [H | (first & _ & H)];
    [now apply py_index0_error in H|].
  apply py_bind_error in H as [H | (message & _ & H)];
    now apply py_get_error in H.
Qed.

Lemma raised_printable w e :
  ApiKeys.printable_world w -> ApiKeys.raised_by_operation e ->
  ApiKeys.has_surrogate (ApiKeys.exception_text w e) = false.
Proof. intros [H _] (op & operand & ->). apply H. Qed.

Lemma report_exception_returns w e st :
  ApiKeys.has_surrogate (ApiKeys.exception_text w e) = false ->
  snd (ApiKeys.report_exception w e st) = inr false.
Proof.
  intros H. unfold ApiKeys.report_exception.
  rewrite bind_print; [reflexivity|]. literal_lines. exact H.
Qed.

Lemma judge_openai_error w status_code json st e :
  ApiKeys.printable_world w ->
  (forall message, json = inl message ->
                   ApiKeys.has_surrogate message = false) ->
  snd (ApiKeys.judge_openai w status_code json st) = inl e ->
  ApiKeys.has_surrogate (ApiKeys.exception_text w e) = false.
Proof.
  intros Hw Hjson. unfold ApiKeys.judge_openai.
  rewrite bind_print by (literal_lines; reflexivity).
  destruct (status_code =? 200);
    [|rewrite report_error_false; discriminate].
  rewrite bind_eval. destruct json as [message | data];
    cbn [ApiKeys.response_json].
  { intros [= <-]. now apply Hjson. }
  rewrite bind_eval.
  destruct (ApiKeys.completion_content data) as [e' | content] eqn:Hc.
  { intros [= <-]. apply (raised_printable w e' Hw).
    now apply completion_content_error in Hc. }
  rewrite bind_eval.
  destruct (ApiKeys.py_strip content) as [e' | shown] eqn:Hs.
  { intros [= <-]. apply (raised_printable w e' Hw).
    now apply py_strip_error in Hs. }
  unfold ApiKeys.script_bind, ApiKeys.print.
  destruct (ApiKeys.has_surrogate _); [|discriminate].
  intros [= <-]. apply (raised_printable w _ Hw). (eexists _, _; reflexivity).
Qed.

Lemma judge_perplexity_error w status_code json st e :
  ApiKeys.printable_world w ->
  (forall message, json = inl message ->
                   ApiKeys.has_surrogate message = false) ->
  snd (ApiKeys.judge_perplexity w status_code json st) = inl e ->
  ApiKeys.has_surrogate (ApiKeys.exception_text w e) = false.
Proof.
  intros Hw Hjson. unfold ApiKeys.judge_perplexity.
  rewrite bind_print by (literal_lines; reflexivity).
  destruct (status_code =? 200);
    [|rewrite report_error_false; discriminate].
  rewrite bind_eval. destruct json as [message | data];
    cbn [ApiKeys.response_json].
  { intros [= <-]. now apply Hjson. }
  rewrite bind_eval.
  destruct (ApiKeys.completion_content data) as [e' | content] eqn:Hc.
  { intros [= <-]. apply (raised_printable w e' Hw).
    now apply completion_content_error in Hc. }
  rewrite bind_eval.
  destruct (ApiKeys.py_slice50 content) as [e' | head] eqn:Hh.
  { intros [= <-]. apply (raised_printable w e' Hw).
    now apply py_slice50_error in Hh. }
  rewrite bind_eval.
  destruct (ApiKeys.py_strip head) as [e' | shown] eqn:Hs.
  { intros [= <-]. apply (raised_printable w e' Hw).
    now apply py_strip_error in Hs. }
  unfold ApiKeys.script_bind, ApiKeys.print.
  destruct (ApiKeys.has_surrogate _); [|discriminate].
  intros [= <-]. apply (raised_printable w _ Hw). (eexists _, _; reflexivity).
Qed.

Lemma attempt_returns w req
  (judge : N -> pystr + ApiKeys.pyval -> ApiKeys.script bool) st :
  ApiKeys.printable_world w ->
  (forall status_code json st' e,
      ApiKeys.post w req = ApiKeys.PostResponse status_code json ->
      snd (judge status_code json st') = inl e ->
      ApiKeys.has_surrogate (ApiKeys.exception_text w e) = false) ->
  exists b,
    snd (ApiKeys.try
           (ApiKeys.script_bind (ApiKeys.requests_post w req)
              (fun response => judge (fst response) (snd response)))
           (ApiKeys.report_exception w) st) = inr b.
Proof.
  intros Hw Hjudge.
  unfold ApiKeys.try, ApiKeys.script_bind, ApiKeys.requests_post. cbv zeta.
  destruct (ApiKeys.post w req) as [message | status_code json] eqn:Hpost.
  - exists false. apply report_exception_returns.
    destruct Hw as [_ [Hw _]]. exact (Hw req message Hpost).
  - cbn [fst snd].
    destruct (judge status_code json _) as [st' [e|b]] eqn:Hj.
    + exists false. apply report_exception_returns.
      eapply (Hjudge status_code json _ e eq_refl). now rewrite Hj.
    + now exists b.
Qed.

Lemma test_openai_key_returns w api_key st :
  ApiKeys.printable_world w ->
  ApiKeys.has_surrogate (ApiKeys.key_preview api_key) = false ->
  exists b, snd (ApiKeys.test_openai_key w api_key st) = inr b.
Proof.
  intros Hw Hkey. unfold ApiKeys.test_openai_key.
  rewrite !bind_print by fixed_line.
  destruct api_key as [|c key].
  { rewrite bind_print by fixed_line. now exists false. }
  rewrite bind_print by (now rewrite key_line_surrogate).
  apply attempt_returns; [assumption|].
  intros status_code json st' e Hpost.
  apply judge_openai_error; [assumption|].
  intros message ->. destruct Hw as [_ [_ Hw]]. exact (Hw _ _ _ Hpost).
Qed.

Lemma test_perplexity_key_returns w api_key st :
  ApiKeys.printable_world w ->
  ApiKeys.has_surrogate (ApiKeys.key_preview api_key) = false ->
  exists b, snd (ApiKeys.test_perplexity_key w api_key st) = inr b.
Proof.
  intros Hw Hkey. unfold ApiKeys.test_perplexity_key.
  rewrite !bind_print by fixed_line.
  destruct api_key as [|c key].
  { rewrite bind_print by fixed_line. now exists false. }
  rewrite bind_print by (now rewrite key_line_surrogate).
  apply attempt_returns; [assumption|].
  intros status_code json st' e Hpost.
  apply judge_perplexity_error; [assumption|].
  intros message ->. destruct Hw as [_ [_ Hw]]. exact (Hw _ _ _ Hpost).
Qed.

(** ** The requests a statement sends *)

Lemma quiet_done {A} (a : A) : ApiKeys.quiet (ApiKeys.done a).
Proof. intros st. reflexivity. Qed.

Lemma quiet_eval {A} (m : ApiKeys.py A) : ApiKeys.quiet (ApiKeys.eval m).
Proof. intros st. reflexivity. Qed.

Lemma quiet_print line : ApiKeys.quiet (ApiKeys.print line).
Proof.
  intros st. unfold ApiKeys.print.
  now destruct (ApiKeys.has_surrogate line).
Qed.

Lemma quiet_bind {A B} (m : ApiKeys.script A) (k : A -> ApiKeys.script B) :
  ApiKeys.quiet m -> (forall a, ApiKeys.quiet (k a)) ->
  ApiKeys.quiet (ApiKeys.script_bind m k).
Proof.
  intros Hm Hk st. unfold ApiKeys.script_bind. specialize (Hm st).
  destruct (m st) as [st' [e|a]]; cbn [fst] in *; [assumption|].
  now rewrite Hk.
Qed.

Lemma quiet_try {A} (body : ApiKeys.script A) handler :
  ApiKeys.quiet body -> (forall e, ApiKeys.quiet (handler e)) ->
  ApiKeys.quiet (ApiKeys.try body handler).
Proof.
  intros Hm Hk st. unfold ApiKeys.try. specialize (Hm st).
  destruct (body st) as [st' [e|a]]; cbn [fst] in *; [|assumption].
  now rewrite Hk.
Qed.

Create HintDb quiet.
#[local] Hint Resolve quiet_done quiet_eval quiet_print : quiet.
#[local] Hint Extern 1 (ApiKeys.quiet (ApiKeys.script_bind _ _)) =>
  apply quiet_bind; [|intros ?] : quiet.
#[local] Hint Extern 1 (ApiKeys.quiet (ApiKeys.try _ _)) =>
  apply quiet_try; [|intros ?] : quiet.

Lemma quiet_report_error w status_code json :
  ApiKeys.quiet (ApiKeys.report_error w status_code json).
Proof. unfold ApiKeys.report_error. auto 10 with quiet. Qed.

Lemma quiet_report_exception w e :
  ApiKeys.quiet (ApiKeys.report_exception w e).
Proof. unfold ApiKeys.report_exception. auto with quiet. Qed.

Lemma quiet_judge_openai w status_code json :
  ApiKeys.quiet (ApiKeys.judge_openai w status_code json).
Proof.
  unfold ApiKeys.judge_openai. apply quiet_bind; [apply quiet_print|].
  intros _. destruct (status_code =? 200);
    [auto 10 with quiet | apply quiet_report_error].
Qed.

Lemma quiet_judge_perplexity w status_code json :
  ApiKeys.quiet (ApiKeys.judge_perplexity w status_code json).
Proof.
  unfold ApiKeys.judge_perplexity. apply quiet_bind; [apply quiet_print|].
  intros _. destruct (status_code =? 200);
    [auto 12 with quiet | apply quiet_report_error].
Qed.

Lemma quiet_summary_line label result :
  ApiKeys.quiet (ApiKeys.summary_line label result).
Proof. destruct result; cbn; auto with quiet. Qed.

Lemma sends_quiet {A} (m : ApiKeys.script A) :
  ApiKeys.quiet m -> ApiKeys.sends [] m.
Proof.
  intros H st. exists []. rewrite app_nil_r.
  split; [apply H|]. split; [now exists [] | reflexivity].
Qed.

Lemma sends_bind {A B} l1 l2 (m : ApiKeys.script A)
  (k : A -> ApiKeys.script B) :
  ApiKeys.sends l1 m -> (forall a, ApiKeys.sends l2 (k a)) ->
  ApiKeys.sends (l1 ++ l2) (ApiKeys.script_bind m k).
Proof.
  intros Hm Hk st. destruct (Hm st) as (l1' & Hreq & [later Hl] & Hret).
  unfold ApiKeys.script_bind.
  destruct (m st) as [st' [e|a]]; cbn [fst snd] in *.
  - exists l1'. split; [assumption|]. split; [|discriminate].
    exists (later ++ l2). now rewrite Hl, app_assoc.
  - rewrite (Hret a eq_refl) in Hreq.
    destruct (Hk a st') as (l2' & Hreq2 & [later2 Hl2] & Hret2).
    exists (l1 ++ l2'). split; [now rewrite Hreq2, Hreq, app_assoc|].
    split.
    + exists later2. now rewrite Hl2, app_assoc.
    + intros b Hb. now rewrite (Hret2 b Hb).
Qed.

Lemma sends_after_quiet {A B} l (m : ApiKeys.script A)
  (k : A -> ApiKeys.script B) :
  ApiKeys.quiet m -> (forall a, ApiKeys.sends l (k a)) ->
  ApiKeys.sends l (ApiKeys.script_bind m k).
Proof.
  intros Hm Hk. apply (sends_bind [] l); [now apply sends_quiet | exact Hk].
Qed.

Lemma sends_then_quiet {A B} l (m : ApiKeys.script A)
  (k : A -> ApiKeys.script B) :
  ApiKeys.sends l m -> (forall a, ApiKeys.quiet (k a)) ->
  ApiKeys.sends l (ApiKeys.script_bind m k).
Proof.
  intros Hm Hk. rewrite <- (app_nil_r l).
  apply sends_bind; [exact Hm | intros a; apply sends_quiet, Hk].
Qed.

(** The [try] of a test function sends its request, however it ends. *)
Lemma attempt_sends w req
  (judge : N -> pystr + ApiKeys.pyval -> ApiKeys.script bool) :
  (forall status_code json, ApiKeys.quiet (judge status_code json)) ->
  ApiKeys.sends [req]
    (ApiKeys.try
       (ApiKeys.script_bind (ApiKeys.requests_post w req)
          (fun response => judge (fst response) (snd response)))
       (ApiKeys.report_exception w)).
Proof.
  intros Hjudge st. exists [req].
  split; [|split; [now exists (@nil ApiKeys.request) | reflexivity]].
  unfold ApiKeys.try, ApiKeys.script_bind, ApiKeys.requests_post. cbv zeta.
  destruct (ApiKeys.post w req) as [message | status_code json].
  - now rewrite quiet_report_exception.
  - cbn [fst snd].
    pose proof (Hjudge status_code json
                  {| ApiKeys.stdout := ApiKeys.stdout st;
                     ApiKeys.requests := ApiKeys.requests st ++ [req];
                     ApiKeys.lines := ApiKeys.lines st |}) as Hq.
    destruct (judge status_code json _) as [st' [e|b]]; cbn [fst] in *.
    + now rewrite quiet_report_exception.
    + exact Hq.
Qed.

Lemma test_openai_key_sends w api_key :
  ApiKeys.sends
    match api_key with
    | [] => []
    | _ :: _ => [ApiKeys.openai_request api_key]
    end
    (ApiKeys.test_openai_key w api_key).
Proof.
  unfold ApiKeys.test_openai_key.
  do 3 (apply sends_after_quiet; [apply quiet_print | intros _]).
  destruct api_key as [|c key].
  - apply sends_quiet. auto with quiet.
  - apply sends_after_quiet; [apply quiet_print | intros _].
    apply attempt_sends, quiet_judge_openai.
Qed.

Lemma test_perplexity_key_sends w api_key :
  ApiKeys.sends
    match api_key with
    | [] => []
    | _ :: _ => [ApiKeys.perplexity_request api_key]
    end
    (ApiKeys.test_perplexity_key w api_key).
Proof.
  unfold ApiKeys.test_perplexity_key.
  do 3 (apply sends_after_quiet; [apply quiet_print | intros _]).
  destruct api_key as [|c key].
  - apply sends_quiet. auto with quiet.
  - apply sends_after_quiet; [apply quiet_print | intros _].
    apply attempt_sends, quiet_judge_perplexity.
Qed.

Lemma test_both_sends w openai_key perplexity_key
  (rest : option bool -> option bool -> ApiKeys.script unit) :
  (forall r1 r2, ApiKeys.quiet (rest r1 r2)) ->
  ApiKeys.sends (ApiKeys.intended openai_key perplexity_key)
    (ApiKeys.script_bind
       (ApiKeys.tested (ApiKeys.test_openai_key w) openai_key)
       (fun r1 =>
          ApiKeys.script_bind
            (ApiKeys.tested (ApiKeys.test_perplexity_key w) perplexity_key)
            (fun r2 => rest r1 r2))).
Proof.
  intros Hrest. unfold ApiKeys.intended. apply sends_bind.
  - destruct openai_key as [|c key]; cbn [ApiKeys.tested].
    + apply sends_quiet, quiet_done.
    + apply sends_then_quiet; [|intros r; apply quiet_done].
      apply (test_openai_key_sends w (c :: key)).
  - intros r1. apply sends_then_quiet; [|intros r2; apply Hrest].
    destruct perplexity_key as [|c key]; cbn [ApiKeys.tested].
    + apply sends_quiet, quiet_done.
    + apply sends_then_quiet; [|intros r; apply quiet_done].
      apply (test_perplexity_key_sends w (c :: key)).
Qed.

Lemma test_keys_sends w openai_key perplexity_key :
  ApiKeys.sends (ApiKeys.intended openai_key perplexity_key)
    (ApiKeys.test_keys w openai_key perplexity_key).
Proof.
  unfold ApiKeys.test_keys. cbv zeta.
  destruct openai_key as [|c1 k1]; [destruct perplexity_key as [|c2 k2]|];
    [apply sends_quiet, quiet_print | | ];
    (apply test_both_sends; intros r1 r2;
     repeat (apply quiet_bind; [|intros _]);
     auto using quiet_print, quiet_summary_line).
Qed.

(** ** Statements that do not read *)

Lemma ignores_done {A} (a : A) : ApiKeys.ignores_stdin (ApiKeys.done a).
Proof. intros st ls. reflexivity. Qed.

Lemma ignores_eval {A} (m : ApiKeys.py A) :
  ApiKeys.ignores_stdin (ApiKeys.eval m).
Proof. intros st ls. reflexivity. Qed.

Lemma ignores_print line : ApiKeys.ignores_stdin (ApiKeys.print line).
Proof.
  intros st ls. unfold ApiKeys.print.
  now destruct (ApiKeys.has_surrogate line).
Qed.

Lemma ignores_post w req :
  ApiKeys.ignores_stdin (ApiKeys.requests_post w req).
Proof.
  intros st ls. unfold ApiKeys.requests_post. cbv zeta.
  now destruct (ApiKeys.post w req).
Qed.

Lemma ignores_bind {A B} (m : ApiKeys.script A) (k : A -> ApiKeys.script B) :
  ApiKeys.ignores_stdin m -> (forall a, ApiKeys.ignores_stdin (k a)) ->
  ApiKeys.ignores_stdin (ApiKeys.script_bind m k).
Proof.
  intros Hm Hk st ls. unfold ApiKeys.script_bind. rewrite Hm.
  destruct (m st) as [st' [e|a]]; cbn [fst snd]; [reflexivity | apply Hk].
Qed.

Lemma ignores_try {A} (body : ApiKeys.script A) handler :
  ApiKeys.ignores_stdin body -> (forall e, ApiKeys.ignores_stdin (handler e)) ->
  ApiKeys.ignores_stdin (ApiKeys.try body handler).
Proof.
  intros Hm Hk st ls. unfold ApiKeys.try. rewrite Hm.
  destruct (body st) as [st' [e|a]]; cbn [fst snd]; [apply Hk | reflexivity].
Qed.

Ltac no_reading :=
  repeat first
    [ apply ignores_done | apply ignores_eval | apply ignores_print
    | apply ignores_post
    | apply ignores_bind; [|intros ?]
    | apply ignores_try; [|intros ?] ].

Lemma ignores_report_error w status_code json :
  ApiKeys.ignores_stdin (ApiKeys.report_error w status_code json).
Proof. unfold ApiKeys.report_error. no_reading. Qed.

Lemma ignores_test_openai_key w api_key :
  ApiKeys.ignores_stdin (ApiKeys.test_openai_key w api_key).
Proof.
  unfold ApiKeys.test_openai_key. no_reading.
  destruct api_key; no_reading.
  unfold ApiKeys.judge_openai. no_reading.
  match goal with
  | |- context [fst ?r =? 200] => destruct (fst r =? 200)
  end; [no_reading | apply ignores_report_error].
Qed.

Lemma ignores_test_perplexity_key w api_key :
  ApiKeys.ignores_stdin (ApiKeys.test_perplexity_key w api_key).
Proof.
  unfold ApiKeys.test_perplexity_key. no_reading.
  destruct api_key; no_reading.
  unfold ApiKeys.judge_perplexity. no_reading.
  match goal with
  | |- context [fst ?r =? 200] => destruct (fst r =? 200)
  end; [no_reading | apply ignores_report_error].
Qed.

Lemma ignores_test_keys w openai_key perplexity_key :
  ApiKeys.ignores_stdin (ApiKeys.test_keys w openai_key perplexity_key).
Proof.
  assert (Htested : forall run key,
    (forall k, ApiKeys.ignores_stdin (run k)) ->
    ApiKeys.ignores_stdin (ApiKeys.tested run key)).
  { intros run key Hrun. destruct key; cbn [ApiKeys.tested]; no_reading.
    apply Hrun. }
  assert (Hline : forall label r,
    ApiKeys.ignores_stdin (ApiKeys.summary_line label r)).
  { intros label r. destruct r; cbn [ApiKeys.summary_line]; no_reading. }
  unfold ApiKeys.test_keys. cbv zeta.
  destruct openai_key as [|c1 k1]; [destruct perplexity_key as [|c2 k2]|];
    repeat first
      [ apply Hline
      | apply Htested; intros ?
      | apply ignores_test_openai_key
      | apply ignores_test_perplexity_key
      | apply ignores_print
      | apply ignores_bind; [|intros ?] ].
Qed.

(** ** Statements that return *)

Lemma bind_returns {A B} (m : ApiKeys.script A) (k : A -> ApiKeys.script B)
  st :
  (exists a, snd (m st) = inr a) ->
  (forall a st', exists b, snd (k a st') = inr b) ->
  exists b, snd (ApiKeys.script_bind m k st) = inr b.
Proof.
  intros [a Ha] Hk. unfold ApiKeys.script_bind.
  destruct (m st) as [st' [e|a']]; [discriminate | apply Hk].
Qed.

Lemma print_returns line st :
  ApiKeys.has_surrogate line = false ->
  exists u, snd (ApiKeys.print line st) = inr u.
Proof. intros H. rewrite run_print by assumption. now exists tt. Qed.

Lemma summary_line_returns label r st :
  ApiKeys.has_surrogate label = false ->
  exists u, snd (ApiKeys.summary_line label r st) = inr u.
Proof.
  intros H. destruct r as [r|]; cbn [ApiKeys.summary_line];
    [|now exists tt].
  apply print_returns. rewrite has_surrogate_app, H.
  now destruct r.
Qed.

Lemma test_keys_returns w openai_key perplexity_key st :
  ApiKeys.printable_world w ->
  ApiKeys.has_surrogate (ApiKeys.key_preview openai_key) = false ->
  ApiKeys.has_surrogate (ApiKeys.key_preview perplexity_key) = false ->
  exists u, snd (ApiKeys.test_keys w openai_key perplexity_key st) = inr u.
Proof.
  intros Hw H1 H2.
  assert (H1' : forall st', exists r,
    snd (ApiKeys.tested (ApiKeys.test_openai_key w) openai_key st') = inr r).
  { intros st'. destruct openai_key as [|c key]; cbn [ApiKeys.tested].
    - now exists None.
    - apply bind_returns; [|intros r st''; now exists (Some r)].
      now apply test_openai_key_returns. }
  assert (H2' : forall st', exists r,
    snd (ApiKeys.tested (ApiKeys.test_perplexity_key w) perplexity_key st')
    = inr r).
  { intros st'. destruct perplexity_key as [|c key]; cbn [ApiKeys.tested].
    - now exists None.
    - apply bind_returns; [|intros r st''; now exists (Some r)].
      now apply test_perplexity_key_returns. }
  unfold ApiKeys.test_keys. cbv zeta.
  destruct openai_key as [|c1 k1]; [destruct perplexity_key as [|c2 k2]|];
    [apply print_returns; fixed_line | | ];
    (apply bind_returns; [apply H1' | intros r1 st1];
     apply bind_returns; [apply H2' | intros r2 st2];
     repeat (apply bind_returns; [|intros _ ?]);
      try (apply print_returns; fixed_line);
      apply summary_line_returns; fixed_line).
Qed.

(** ** Running [main] *)

Lemma bind_obtain_key {B} env_value prompt found
  (k : pystr -> ApiKeys.script B) st :
  ApiKeys.has_surrogate found = false ->
  ApiKeys.script_bind (ApiKeys.obtain_key env_value prompt found) k st
  = match env_value with
    | [] =>
        match ApiKeys.lines st with
        | [] =>
            ({| ApiKeys.stdout := ApiKeys.stdout st ++ prompt;
                ApiKeys.requests := ApiKeys.requests st;
                ApiKeys.lines := [] |},
             inl ApiKeys.EOFError)
        | line :: rest =>
            k (ApiKeys.strip line)
              {| ApiKeys.stdout := ApiKeys.stdout st ++ prompt;
                 ApiKeys.requests := ApiKeys.requests st;
                 ApiKeys.lines := rest |}
        end
    | _ :: _ =>
        k env_value
          {| ApiKeys.stdout := ApiKeys.stdout st ++ found ++ [10];
             ApiKeys.requests := ApiKeys.requests st;
             ApiKeys.lines := ApiKeys.lines st |}
    end.
Proof.
  intros Hfound. destruct env_value as [|c env]; cbn [ApiKeys.obtain_key].
  - rewrite script_bind_assoc. unfold ApiKeys.script_bind, ApiKeys.input.
    now destruct (ApiKeys.lines st).
  - rewrite script_bind_assoc, bind_print by assumption. reflexivity.
Qed.

(** [main] from the prompts on: the state in which the keys are tested
    has sent nothing yet. *)
Lemma main_run w s :
  (exists st,
      ApiKeys.requests st = []
      /\ ApiKeys.main_body w s
           {| ApiKeys.stdout := []; ApiKeys.requests := [];
              ApiKeys.lines := ApiKeys.stdin s |}
         = ApiKeys.test_keys w (ApiKeys.openai_key_of s)
             (ApiKeys.perplexity_key_of s) st
      /\ (ApiKeys.env_openai s = [] -> ApiKeys.stdin s <> [])
      /\ (ApiKeys.env_perplexity s = [] ->
          match ApiKeys.env_openai s with
          | [] => tl (ApiKeys.stdin s)
          | _ :: _ => ApiKeys.stdin s
          end <> []))
  \/ (exists st,
        ApiKeys.requests st = []
        /\ ApiKeys.main_body w s
             {| ApiKeys.stdout := []; ApiKeys.requests := [];
                ApiKeys.lines := ApiKeys.stdin s |}
           = (st, inl ApiKeys.EOFError)
        /\ ((ApiKeys.env_openai s = [] /\ ApiKeys.stdin s = [])
            \/ (ApiKeys.env_perplexity s = []
                /\ match ApiKeys.env_openai s with
                   | [] => tl (ApiKeys.stdin s)
                   | _ :: _ => ApiKeys.stdin s
                   end = []))).
Proof.
  unfold ApiKeys.main_body, ApiKeys.openai_key_of, ApiKeys.perplexity_key_of.
  cbv zeta. rewrite !bind_print by fixed_line.
  rewrite bind_obtain_key by fixed_line.
  destruct s as [env1 env2 input]. cbn [ApiKeys.env_openai
    ApiKeys.env_perplexity ApiKeys.stdin ApiKeys.lines ApiKeys.requests].
  destruct env1 as [|c1 env1].
  - destruct input as [|line1 input].
    { right. eexists. split; [|split; [reflexivity|]]; [reflexivity|].
      left. now split. }
    rewrite bind_obtain_key by fixed_line. cbn [ApiKeys.lines hd tl].
    destruct env2 as [|c2 env2].
    + destruct input as [|line2 input].
      { right. eexists. split; [|split; [reflexivity|]]; [reflexivity|].
        right. now split. }
      left. eexists. split; [|split; [reflexivity|]]; [reflexivity|].
      split; intros _; discriminate.
    + left. eexists. split; [|split; [reflexivity|]]; [reflexivity|].
      split; [intros _|]; discriminate.
  - rewrite bind_obtain_key by fixed_line. cbn [ApiKeys.lines hd tl].
    destruct env2 as [|c2 env2].
    + destruct input as [|line2 input].
      { right. eexists. split; [|split; [reflexivity|]]; [reflexivity|].
        right. now split. }
      left. eexists. split; [|split; [reflexivity|]]; [reflexivity|].
      split; [|intros _]; discriminate.
    + left. eexists. split; [|split; [reflexivity|]]; [reflexivity|].
      split; discriminate.
Qed.

Lemma ignores_main_body w s :
  ApiKeys.env_openai s <> [] -> ApiKeys.env_perplexity s <> [] ->
  ApiKeys.ignores_stdin (ApiKeys.main_body w s).
Proof.
  destruct s as [[|c1 env1] [|c2 env2] input];
    cbn [ApiKeys.env_openai ApiKeys.env_perplexity];
    intros H1 H2; try contradiction.
  unfold ApiKeys.main_body. cbv zeta.
  cbn [ApiKeys.env_openai ApiKeys.env_perplexity ApiKeys.obtain_key].
  repeat first
    [ apply ignores_test_keys
    | apply ignores_print
    | apply ignores_done
    | apply ignores_bind; [|intros ?] ].
Qed.

Lemma test_openai_key_unprintable w api_key st :
  api_key <> [] ->
  ApiKeys.has_surrogate (ApiKeys.key_preview api_key) = true ->
  exists st' e,
    ApiKeys.requests st' = ApiKeys.requests st
    /\ ApiKeys.test_openai_key w api_key st = (st', inl e).
Proof.
  intros Hkey Hp. unfold ApiKeys.test_openai_key.
  rewrite !bind_print by fixed_line.
  destruct api_key as [|c key]; [contradiction|].
  unfold ApiKeys.script_bind, ApiKeys.print.
  rewrite key_line_surrogate, Hp. eexists _, _.
  split; [|reflexivity]. reflexivity.
Qed.

(** ** Which responses count as a valid key *)

(** [test_openai_key] returns [True] exactly when the key is not
    empty, the line that shows the key can be printed, the request came
    back with status 200 and a JSON body, line 53 finds a str in it, and
    that answer, stripped, can be printed: line 54 is inside the [try], so
    an answer that holds a lone surrogate makes the test return [False].
    The defaults of line 53 make an object without [choices] succeed, with
    the empty response; an empty list of choices raises at [[0]] and
    fails.  When the texts of the world can be printed and the line that
    shows the key can, the test returns and raises nothing. *)
Theorem openai_key_valid_iff
  (w : ApiKeys.world) (api_key : pystr) (st : ApiKeys.state) :
  (snd (ApiKeys.test_openai_key w api_key st) = inr true
   <-> api_key <> []
       /\ ApiKeys.has_surrogate (ApiKeys.key_preview api_key) = false
       /\ exists data content,
           ApiKeys.post w (ApiKeys.openai_request api_key)
           = ApiKeys.PostResponse 200 (inr data)
           /\ ApiKeys.completion_content data = inr (ApiKeys.VStr content)
           /\ ApiKeys.has_surrogate (ApiKeys.strip content) = false)
  /\ (forall items,
        assoc_get items (ApiKeys.text "choices") = None ->
        ApiKeys.completion_content (ApiKeys.VDict items)
        = inr (ApiKeys.VStr []))
  /\ (forall items,
        assoc_get items (ApiKeys.text "choices") = Some (ApiKeys.VList []) ->
        ApiKeys.completion_content (ApiKeys.VDict items)
        = inl (ApiKeys.Raised ApiKeys.OpIndex0 (ApiKeys.VList [])))
  /\ (ApiKeys.printable_world w ->
      ApiKeys.has_surrogate (ApiKeys.key_preview api_key) = false ->
      exists b, snd (ApiKeys.test_openai_key w api_key st) = inr b).
Proof.
  split; [apply test_openai_key_true_iff|]. split; [|split].
  - intros items Hnone. unfold ApiKeys.completion_content.
    cbn [ApiKeys.py_get]. rewrite Hnone. reflexivity.
  - intros items Hempty. unfold ApiKeys.completion_content.
    cbn [ApiKeys.py_get]. rewrite Hempty. reflexivity.
  - apply test_openai_key_returns.
Qed.

(** [test_perplexity_key] returns [True] exactly when the key is not
    empty, the line that shows the key can be printed, the request came
    back with status 200 and a JSON body, line 103 finds a str in it, and
    the first fifty characters of that answer, stripped, can be printed.
    For the same outcome of the request it accepts whatever
    [test_openai_key] accepts; it accepts more, since line 104 prints the
    first fifty characters only: an answer with a lone surrogate after
    them is valid for Perplexity and invalid for OpenAI. *)
Theorem perplexity_accepts_what_openai_accepts
  (w : ApiKeys.world) (api_key : pystr) (st st' : ApiKeys.state) :
  (snd (ApiKeys.test_perplexity_key w api_key st) = inr true
   <-> api_key <> []
       /\ ApiKeys.has_surrogate (ApiKeys.key_preview api_key) = false
       /\ exists data content,
           ApiKeys.post w (ApiKeys.perplexity_request api_key)
           = ApiKeys.PostResponse 200 (inr data)
           /\ ApiKeys.completion_content data = inr (ApiKeys.VStr content)
           /\ ApiKeys.has_surrogate (ApiKeys.strip (firstn 50 content))
              = false)
  /\ (ApiKeys.post w (ApiKeys.perplexity_request api_key)
      = ApiKeys.post w (ApiKeys.openai_request api_key) ->
      snd (ApiKeys.test_openai_key w api_key st') = inr true ->
      snd (ApiKeys.test_perplexity_key w api_key st) = inr true)
  /\ (let answer :=
        ApiKeys.VDict
          [(ApiKeys.text "choices",
            ApiKeys.VList
              [ApiKeys.VDict
                 [(ApiKeys.text "message",
                   ApiKeys.VDict
                     [(ApiKeys.text "content",
                       ApiKeys.VStr (repeat 97 50 ++ [0xDC80]))])]])] in
      let served :=
        {| ApiKeys.post := fun _ => ApiKeys.PostResponse 200 (inr answer);
           ApiKeys.error_text := fun _ _ => [];
           ApiKeys.value_text := fun _ => [] |} in
      snd (ApiKeys.test_perplexity_key served (lit "sk-test") st) = inr true
      /\ snd (ApiKeys.test_openai_key served (lit "sk-test") st)
         = inr false).
Proof.
  split; [apply test_perplexity_key_true_iff|]. split.
  - intros Hsame Hopenai.
    apply test_openai_key_true_iff
      in Hopenai as (Hkey & Hpreview & data & content & Hpost & Hc & Hp).
    apply test_perplexity_key_true_iff.
    split; [assumption|]. split; [assumption|].
    exists data, content. rewrite Hsame. split; [assumption|].
    split; [assumption|].
    rewrite strip_surrogate in *. now apply firstn_no_surrogate.
  - cbv zeta. split; vm_compute; reflexivity.
Qed.

(** ** The requests [main] sends *)

(** [main] sends each key to its own service and to no other: the
    key of OpenAI is [OPENAI_API_KEY] or, when that is not set, the first
    line typed, stripped; the key of Perplexity is [PERPLEXITY_API_KEY] or,
    when that is not set, the line typed at its prompt, stripped (the
    second line when the OpenAI key was typed too).  The requests sent are
    the request of OpenAI with the first key, if it is not empty, then the
    request of Perplexity with the second, if it is not empty: all of
    these when [main] returns, the first few of them when an exception
    ends it; never more than two.  When standard input ends before a
    prompt is answered, [main] fails with nothing sent. *)
Theorem main_sends_each_key_to_its_own_service
  (w : ApiKeys.world) (s : ApiKeys.session) :
  (exists later,
      ApiKeys.intended (ApiKeys.openai_key_of s) (ApiKeys.perplexity_key_of s)
      = ApiKeys.sent (ApiKeys.main w s) ++ later)
  /\ (ApiKeys.exit_status (ApiKeys.main w s) = 0 ->
      ApiKeys.sent (ApiKeys.main w s)
      = ApiKeys.intended (ApiKeys.openai_key_of s)
          (ApiKeys.perplexity_key_of s))
  /\ (ApiKeys.env_openai s = [] -> ApiKeys.stdin s = [] ->
      ApiKeys.sent (ApiKeys.main w s) = []
      /\ ApiKeys.exit_status (ApiKeys.main w s) = 1)
  /\ (ApiKeys.env_perplexity s = [] ->
      match ApiKeys.env_openai s with
      | [] => tl (ApiKeys.stdin s)
      | _ :: _ => ApiKeys.stdin s
      end = [] ->
      ApiKeys.sent (ApiKeys.main w s) = []
      /\ ApiKeys.exit_status (ApiKeys.main w s) = 1)
  /\ (List.length (ApiKeys.sent (ApiKeys.main w s)) <= 2)%nat.
Proof.
  unfold ApiKeys.main. cbv zeta.
  cbn [ApiKeys.sent ApiKeys.exit_status].
  destruct (main_run w s)
    as [(st & Hreq & -> & Hin1 & Hin2) | (st & Hreq & -> & Heof)].
  - destruct (test_keys_sends w (ApiKeys.openai_key_of s)
                (ApiKeys.perplexity_key_of s) st)
      as (l' & Hl & [later Hlater] & Hret).
    rewrite Hreq in Hl. cbn [app] in Hl. rewrite Hl.
    split; [now exists later|]. split; [|split; [|split]].
    + destruct (snd (ApiKeys.test_keys w _ _ st)) as [e|u];
        [discriminate|]. intros _. exact (Hret u eq_refl).
    + intros He Hs. now elim (Hin1 He).
    + intros He Hs. now elim (Hin2 He).
    + apply (f_equal (@List.length _)) in Hlater.
      rewrite length_app in Hlater. unfold ApiKeys.intended in Hlater.
      rewrite length_app in Hlater.
      destruct (ApiKeys.openai_key_of s), (ApiKeys.perplexity_key_of s);
        cbn in Hlater; lia.
  - cbn [fst snd]. rewrite Hreq. split; [now eexists|].
    split; [discriminate|]. split; [now split|]. split; [now split|].
    cbn. lia.
Qed.

(** With both keys in the environment nothing is read from standard
    input.  When the texts of the world and the two lines that show the
    keys can be printed, exactly two requests are sent, the OpenAI key to
    OpenAI first, then the Perplexity key to Perplexity, and the exit
    status is 0 whatever the two verdicts.  Line 27 is outside the [try]:
    an OpenAI key whose shown part holds a lone surrogate, as a variable
    with bytes that are not UTF-8 does, ends [main] with an exception
    before any request. *)
Theorem main_with_both_keys_in_environment
  (w : ApiKeys.world) (s : ApiKeys.session) :
  ApiKeys.env_openai s <> [] ->
  ApiKeys.env_perplexity s <> [] ->
  (forall lines,
      ApiKeys.main w {| ApiKeys.env_openai := ApiKeys.env_openai s;
                        ApiKeys.env_perplexity := ApiKeys.env_perplexity s;
                        ApiKeys.stdin := lines |}
      = ApiKeys.main w s)
  /\ (ApiKeys.printable_world w ->
      ApiKeys.has_surrogate (ApiKeys.key_preview (ApiKeys.env_openai s))
      = false ->
      ApiKeys.has_surrogate (ApiKeys.key_preview (ApiKeys.env_perplexity s))
      = false ->
      ApiKeys.sent (ApiKeys.main w s)
      = [ApiKeys.openai_request (ApiKeys.env_openai s);
         ApiKeys.perplexity_request (ApiKeys.env_perplexity s)]
      /\ ApiKeys.exit_status (ApiKeys.main w s) = 0)
  /\ (ApiKeys.has_surrogate (ApiKeys.key_preview (ApiKeys.env_openai s))
      = true ->
      ApiKeys.sent (ApiKeys.main w s) = []
      /\ ApiKeys.exit_status (ApiKeys.main w s) = 1).
Proof.
  intros H1 H2. split.
  { intros input. unfold ApiKeys.main. cbv zeta.
    pose proof (ignores_main_body w s H1 H2
                  {| ApiKeys.stdout := []; ApiKeys.requests := [];
                     ApiKeys.lines := ApiKeys.stdin s |} input) as Hsame.
    unfold ApiKeys.with_lines in Hsame at 1.
    cbn [ApiKeys.stdout ApiKeys.requests] in Hsame.
    cbn [ApiKeys.stdin].
    replace (ApiKeys.main_body w
               {| ApiKeys.env_openai := ApiKeys.env_openai s;
                  ApiKeys.env_perplexity := ApiKeys.env_perplexity s;
                  ApiKeys.stdin := input |})
      with (ApiKeys.main_body w s) by now destruct s.
    rewrite Hsame. reflexivity. }
  assert (Hk1 : ApiKeys.openai_key_of s = ApiKeys.env_openai s).
  { unfold ApiKeys.openai_key_of.
    destruct (ApiKeys.env_openai s); [contradiction | reflexivity]. }
  assert (Hk2 : ApiKeys.perplexity_key_of s = ApiKeys.env_perplexity s).
  { unfold ApiKeys.perplexity_key_of.
    destruct (ApiKeys.env_perplexity s); [contradiction | reflexivity]. }
  unfold ApiKeys.main. cbv zeta. cbn [ApiKeys.sent ApiKeys.exit_status].
  destruct (main_run w s)
    as [(st & Hreq & -> & _) | (st & _ & _ & [[He _] | [He _]])];
    try contradiction.
  rewrite Hk1, Hk2. split.
  - intros Hw Hp1 Hp2.
    destruct (test_keys_sends w (ApiKeys.env_openai s)
                (ApiKeys.env_perplexity s) st) as (l' & Hl & _ & Hret).
    destruct (test_keys_returns w (ApiKeys.env_openai s)
                (ApiKeys.env_perplexity s) st Hw Hp1 Hp2) as [u Hu].
    rewrite Hl, (Hret u Hu), Hreq, Hu. split; [|reflexivity].
    unfold ApiKeys.intended.
    destruct (ApiKeys.env_openai s); [contradiction|].
    destruct (ApiKeys.env_perplexity s); [contradiction|]. reflexivity.
  - intros Hp.
    destruct (test_openai_key_unprintable w (ApiKeys.env_openai s) st H1 Hp)
      as (st' & e & Hreq' & Hrun).
    unfold ApiKeys.test_keys. cbv zeta.
    destruct (ApiKeys.env_openai s) as [|c1 k1]; [contradiction|].
    cbn [ApiKeys.tested]. unfold ApiKeys.script_bind. rewrite Hrun.
    cbn [fst snd]. now rewrite Hreq', Hreq.
Qed.

Lemma main_with_both_keys_witness :
  ApiKeys.sent
    (ApiKeys.main
       {| ApiKeys.post := fun _ => ApiKeys.PostResponse 401 (inl []);
          ApiKeys.error_text := fun _ _ => [];
          ApiKeys.value_text := fun _ => [] |}
       {| ApiKeys.env_openai := lit "sk-test";
          ApiKeys.env_perplexity := lit "pplx-test";
          ApiKeys.stdin := [] |})
  = [ApiKeys.openai_request (lit "sk-test");
     ApiKeys.perplexity_request (lit "pplx-test")]
  /\ ApiKeys.exit_status
       (ApiKeys.main
          {| ApiKeys.post := fun _ => ApiKeys.PostResponse 401 (inl []);
             ApiKeys.error_text := fun _ _ => [];
             ApiKeys.value_text := fun _ => [] |}
          {| ApiKeys.env_openai := lit "sk-test";
             ApiKeys.env_perplexity := lit "pplx-test";
             ApiKeys.stdin := [] |}) = 0.
Proof.
  refine (proj1 (proj2
    (main_with_both_keys_in_environment
       {| ApiKeys.post := fun _ => ApiKeys.PostResponse 401 (inl []);
          ApiKeys.error_text := fun _ _ => [];
          ApiKeys.value_text := fun _ => [] |}
       {| ApiKeys.env_openai := lit "sk-test";
          ApiKeys.env_perplexity := lit "pplx-test";
          ApiKeys.stdin := [] |} _ _)) _ _ _).
  - discriminate.
  - discriminate.
  - split; [reflexivity|]. split.
    + intros req message H. discriminate.
    + intros req status_code message H. now injection H as _ <-.
  - reflexivity.
  - reflexivity.
Defined.

(** ** Blank answers *)

(** Answers that are blank count as no key: with neither variable set and
    two blank lines typed, no request is sent and [main] returns normally. *)
Theorem blank_answers_send_nothing
  (w : ApiKeys.world) (line1 line2 : pystr) (rest : list pystr) :
  forallb ApiKeys.is_space line1 = true ->
  forallb ApiKeys.is_space line2 = true ->
  ApiKeys.sent
    (ApiKeys.main w {| ApiKeys.env_openai := [];
                       ApiKeys.env_perplexity := [];
                       ApiKeys.stdin := line1 :: line2 :: rest |}) = []
  /\ ApiKeys.exit_status
       (ApiKeys.main w {| ApiKeys.env_openai := [];
                          ApiKeys.env_perplexity := [];
                          ApiKeys.stdin := line1 :: line2 :: rest |}) = 0.
Proof.
  intros H1 H2. unfold ApiKeys.main, ApiKeys.main_body. cbv zeta.
  cbn [ApiKeys.env_openai ApiKeys.env_perplexity ApiKeys.stdin
         ApiKeys.obtain_key].
  rewrite !bind_print by fixed_line.
  cbn [ApiKeys.stdout ApiKeys.requests ApiKeys.lines].
  rewrite script_bind_assoc.
  rewrite bind_input_line with (line := line1) (rest := line2 :: rest)
    by reflexivity.
  cbn [ApiKeys.script_bind ApiKeys.done
         ApiKeys.stdout ApiKeys.requests ApiKeys.lines].
  rewrite script_bind_assoc.
  rewrite bind_input_line with (line := line2) (rest := rest) by reflexivity.
  cbn [ApiKeys.script_bind ApiKeys.done
         ApiKeys.stdout ApiKeys.requests ApiKeys.lines].
  rewrite (strip_blank line1 H1), (strip_blank line2 H2).
  unfold ApiKeys.test_keys. rewrite run_print by fixed_line.
  split; reflexivity.
Qed.

Lemma blank_answers_send_nothing_witness :
  ApiKeys.sent
    (ApiKeys.main
       {| ApiKeys.post := fun _ => ApiKeys.PostRaises [];
          ApiKeys.error_text := fun _ _ => [];
          ApiKeys.value_text := fun _ => [] |}
       {| ApiKeys.env_openai := [];
          ApiKeys.env_perplexity := [];
          ApiKeys.stdin := [lit "  "; [9]] |}) = [].
Proof.
  apply (blank_answers_send_nothing
           {| ApiKeys.post := fun _ => ApiKeys.PostRaises [];
              ApiKeys.error_text := fun _ _ => [];
              ApiKeys.value_text := fun _ => [] |}
           (lit "  ") [9] []);
    reflexivity.
Defined.


(** * More on the traversal *)

(** ** The only way a traversal fails *)

Lemma forallb_false {A} (f : A -> bool) (xs : list A) :
  forallb f xs = false -> exists x, In x xs /\ f x = false.
Proof.
  induction xs as [|x xs IH]; [discriminate|]. cbn [forallb].
  destruct (f x) eqn:Hx.
  - intros H. destruct (IH H) as [y [Hy Hfy]]. exists y. split; [now right|].
    exact Hfy.
  - intros _. exists x. split; [now left | exact Hx].
Qed.

Lemma opens_ok_false top :
  well_formed top = true ->
  opens_ok top = false ->
  exists dir file data,
    walked top dir = true
    /\ fs_at top (dir ++ [file]) = Some (FsFile false data)
    /\ file_excluded file = false.
Proof.
  induction top as [r d | l entries IH] using fsnode_nested_ind;
    intros Hwf Hok; [discriminate|].
  destruct l; [|discriminate].
  pose proof (well_formed_dir _ _ Hwf) as [Hnd Hch].
  rewrite opens_ok_eq in Hok. apply andb_false_iff in Hok as [Hok | Hok].
  - apply forallb_false in Hok as [[file n] [Hin Hopen]].
    apply nondirs_In in Hin as [Hin Hfile]. cbn [snd] in Hfile.
    unfold file_opens in Hopen. cbn [fst snd] in Hopen.
    apply orb_false_iff in Hopen as [Hname Hread].
    destruct n as [r data|l' es']; [|discriminate].
    destruct r.
    { cbn [open_read] in Hread. destruct (utf8_decode data); discriminate. }
    exists [], file, data. cbn [app walked fs_at].
    now rewrite (assoc_get_unique entries file _ Hnd Hin).
  - apply forallb_false in Hok as [[k c] [Hin Hdir]].
    unfold dir_opens in Hdir. cbn [fst snd] in Hdir.
    destruct c as [r data|[|] es']; try discriminate.
    apply orb_false_iff in Hdir as [Hkeep Hsub].
    apply negb_false_iff in Hkeep.
    rewrite Forall_forall in IH, Hch.
    destruct (IH (k, FsDir true es') Hin (Hch _ Hin) Hsub)
      as [dir [file [data [Hw [Hat Hname]]]]].
    cbn [snd] in Hw, Hat.
    exists (k :: dir), file, data. cbn [app walked fs_at].
    rewrite (assoc_get_unique entries k _ Hnd Hin), Hkeep, Hw, Hat.
    now repeat split.
Qed.

(** On a filesystem in which no directory holds a name twice, the
    traversal fails exactly when some directory the walk enters holds a
    file, with a name that is not excluded, that cannot be opened; the
    exception is then [OSError].  Files that cannot be opened in excluded
    directories, or with excluded names, do no harm. *)
Theorem traversal_fails_iff_unreadable_file (top : fsnode) :
  well_formed top = true ->
  ((exists e, build (Some top) = inl e)
   <-> exists dir file data,
        walked top dir = true
        /\ fs_at top (dir ++ [file]) = Some (FsFile false data)
        /\ file_excluded file = false)
  /\ (forall e, build (Some top) = inl e -> e = OSError).
Proof.
  intros Hwf.
  assert (Hb : build (Some top)
               = if opens_ok top then inr (JObj (tree_of top))
                 else inl OSError).
  { destruct top as [r d|[|] es];
      [reflexivity | now apply build_well_formed | now rewrite build_snapshot]. }
  split.
  - split.
    + intros [e He]. rewrite Hb in He.
      destruct (opens_ok top) eqn:Hok; [discriminate|].
      now apply opens_ok_false.
    + intros [dir [file [data [Hw [Hat Hname]]]]].
      eapply build_unreadable; eassumption.
  - intros e He. rewrite Hb in He.
    destruct (opens_ok top); [discriminate | now injection He as <-].
Qed.

Lemma traversal_fails_iff_unreadable_file_witness :
  (exists e, build (Some unreadable_file_repo) = inl e)
  <-> exists dir file data,
       walked unreadable_file_repo dir = true
       /\ fs_at unreadable_file_repo (dir ++ [file])
          = Some (FsFile false data)
       /\ file_excluded file = false.
Proof.
  apply (traversal_fails_iff_unreadable_file unreadable_file_repo).
  reflexivity.
Defined.

(** ** Snapshots compose *)

Lemma walked_app top d1 :
  forall d2 sub,
    walked top d1 = true ->
    fs_at top d1 = Some sub ->
    walked sub d2 = true ->
    walked top (d1 ++ d2) = true.
Proof.
  revert top. induction d1 as [|k d1 IH]; intros top d2 sub Hw Hat Hsub.
  - injection Hat as ->. exact Hsub.
  - destruct top as [r d|[|] es]; try discriminate.
    cbn [walked fs_at app] in *.
    apply andb_true_iff in Hw as [Hkeep Hw]. rewrite Hkeep.
    destruct (fs_get es k) as [c|]; [|discriminate].
    cbn [andb]. eapply IH; eassumption.
Qed.

Lemma well_formed_at top d :
  forall sub,
    well_formed top = true -> fs_at top d = Some sub ->
    well_formed sub = true.
Proof.
  revert top. induction d as [|k d IH]; intros top sub Hwf Hat.
  - now injection Hat as <-.
  - destruct top as [r dt|l es]; [discriminate|]. cbn [fs_at] in Hat.
    destruct (fs_get es k) as [c|] eqn:Hget; [|discriminate].
    eapply IH; [|exact Hat]. eapply well_formed_child; eassumption.
Qed.

Lemma tree_at_walked d :
  forall top sub,
    well_formed top = true ->
    walked top d = true ->
    fs_at top d = Some sub ->
    json_at (JObj (tree_of top)) d = Some (JObj (tree_of sub)).
Proof.
  induction d as [|k d IH]; intros top sub Hwf Hw Hat.
  - now injection Hat as <-.
  - destruct top as [r dt|[|] es]; try discriminate.
    rewrite tree_of_step by assumption.
    cbn [walked fs_at] in *. apply andb_true_iff in Hw as [Hkeep Hw].
    destruct (fs_get es k) as [c|] eqn:Hget; [|discriminate].
    assert (Hc : well_formed c = true) by (eapply well_formed_child; eauto).
    destruct c as [r dc|[|] es']; try (destruct d; discriminate).
    cbn [node_of]. rewrite Hkeep. now apply IH.
Qed.

(** The snapshot of a directory is a part of the snapshot of the
    repository: when a run on the repository completes, a run on a
    directory the walk enters completes too, and the tree it builds is the
    object the repository's tree has at the path of that directory. *)
Theorem subdirectory_snapshot_is_subtree
  (top : fsnode) (t : json) (dir : list pystr) (sub : fsnode) :
  well_formed top = true ->
  build (Some top) = inr t ->
  walked top dir = true ->
  fs_at top dir = Some sub ->
  exists t_sub,
    build (Some sub) = inr t_sub /\ json_at t dir = Some t_sub.
Proof.
  intros Hwf Hb Hw Hat.
  assert (Hsub : well_formed sub = true) by (eapply well_formed_at; eauto).
  exists (JObj (tree_of sub)). split.
  - apply build_total; [assumption|].
    destruct (opens_ok sub) eqn:Hok; [reflexivity|].
    destruct (opens_ok_false sub Hsub Hok)
      as [d [file [data [Hwd [Hfile Hname]]]]].
    assert (Hfail : exists e, build (Some top) = inl e).
    { apply (build_unreadable top (dir ++ d) file data).
      - eapply walked_app; eassumption.
      - now rewrite <- app_assoc, fs_at_app, Hat.
      - assumption. }
    destruct Hfail as [e He]. congruence.
  - apply build_inr in Hb; [|assumption]. subst t.
    now apply tree_at_walked.
Qed.

Lemma subdirectory_snapshot_is_subtree_witness :
  exists t_sub,
    build (Some (FsDir true [(lit "main.txt", text_file "hello")]))
    = inr t_sub
    /\ json_at
         (JObj [(lit "readme.md", JStr (lit "hi"));
                (lit "src", JObj [(lit "main.txt", JStr (lit "hello"))])])
         [lit "src"]
       = Some t_sub.
Proof.
  apply (subdirectory_snapshot_is_subtree
           scenario_repo
           (JObj [(lit "readme.md", JStr (lit "hi"));
                  (lit "src", JObj [(lit "main.txt", JStr (lit "hello"))])])
           [lit "src"]
           (FsDir true [(lit "main.txt", text_file "hello")]));
    reflexivity.
Defined.
